(** * nest-crud: the query compiler of [@ackplus/nest-crud]

    A shallow embedding of the four cooperating translators of
    [packages/nest-crud/src/lib/helper]:

    - [QueryBuilderHelper]   (query-builder-helper.ts): alias / column resolver,
    - [WhereQueryBuilder]    (where-query-builder.ts):  predicate compiler,
    - [JoinQueryBuilder]     (join-query-builder.ts):   join planner,
    - [FindQueryBuilder]     (find-query-builder.ts):   orchestrator,

    followed by the properties of the specification, stated over these
    definitions.

    Conventions.  JavaScript strings are [string]; objects whose
    enumeration order matters are association lists in [for .. in] order;
    the parameter record handed to the ORM and the resolver's [Map] cache are
    [gmap]s; a [Set<string>] that is later turned into an array is a
    duplicate-free list in insertion order; mutable instance fields are
    threaded as an explicit state; a thrown exception is the [Throw] branch of
    [Result].  The ORM (TypeORM's [SelectQueryBuilder] and entity metadata) is
    an external collaborator: the builder is modelled by the list of calls it
    has received, the metadata by plain records. *)

From Stdlib Require Import ZArith Ascii String List Sorted Permutation.
From stdpp Require Import base option list gmap strings pretty.

#[local] Set Warnings "-register-all,-notation-for-abbreviation".
Local Open Scope list_scope.

(** ** Exceptions and fallible computations *)

Inductive Exception : Type :=
| BadRequestException (message : string)   (* @nestjs/common, a 4xx *)
| Error (message : string)                 (* plain [new Error(..)] *)
| TypeORMError (message : string)          (* raised by the ORM *)
| TypeError.                               (* raised by the JS runtime *)

Inductive Result (A : Type) : Type :=
| Ok (a : A)
| Throw (e : Exception).
Arguments Ok {A} a.
Arguments Throw {A} e.

Definition bindR {A B} (r : Result A) (k : A -> Result B) : Result B :=
  match r with
  | Ok a => k a
  | Throw e => Throw e
  end.

Notation "'let*' p ':=' r 'in' k" := (bindR r (fun p => k))
  (at level 10, p pattern, r at level 200, k at level 200, only parsing).

(** ** Strings, the way the source uses them *)

Module Str.

(** [s.split(sep)] for a one-character separator: never the empty list. *)
Fixpoint split (sep : ascii) (s : string) : list string :=
  match s with
  | EmptyString => [EmptyString]
  | String c rest =>
      match split sep rest with
      | [] => [String c EmptyString]
      | seg :: segs =>
          if Ascii.eqb c sep then EmptyString :: seg :: segs
          else String c seg :: segs
      end
  end.

(** [parts.join(sep)] *)
Definition join (sep : string) (parts : list string) : string :=
  String.concat sep parts.

(** [s.replace(/c/g, by)] for a literal character [c]. *)
Fixpoint replaceAll (c : ascii) (by_ : string) (s : string) : string :=
  match s with
  | EmptyString => EmptyString
  | String x rest =>
      if Ascii.eqb x c then by_ +:+ replaceAll c by_ rest
      else String x (replaceAll c by_ rest)
  end.

(** Does character [c] occur in [s]? *)
Fixpoint occurs (c : ascii) (s : string) : bool :=
  match s with
  | EmptyString => false
  | String x rest => Ascii.eqb x c || occurs c rest
  end.

Definition isEmpty (s : string) : bool :=
  match s with EmptyString => true | _ => false end.

(** The characters of a string as one-character strings. *)
Fixpoint chars (s : string) : list string :=
  match s with
  | EmptyString => []
  | String c rest => String c EmptyString :: chars rest
  end.

(** [s.toLowerCase()], on the ASCII letters. *)
Definition lowerAscii (c : ascii) : ascii :=
  let n := nat_of_ascii c in
  if (65 <=? n)%nat && (n <=? 90)%nat then ascii_of_nat (n + 32) else c.

Fixpoint toLowerCase (s : string) : string :=
  match s with
  | EmptyString => EmptyString
  | String c rest => String (lowerAscii c) (toLowerCase rest)
  end.

Definition paren (s : string) : string := "(" +:+ s +:+ ")".

End Str.

Definition dot : ascii := "."%char.
Definition underscore : ascii := "_"%char.
Definition dquote : ascii := "034"%char.
Definition backtick : ascii := "`"%char.

(** ** JavaScript values

    The JSON-shaped values the compiler receives.  An object is the list of
    its own enumerable properties in enumeration order. *)

Inductive JsValue : Type :=
| JUndefined
| JNull
| JBool (b : bool)
| JNum (z : Z)
| JStr (s : string)
| JArr (items : list JsValue)
| JObj (props : list (string * JsValue)).

(** Truthiness, as tested by [!x], [x ? a : b] and [if (x)]. *)
Definition truthy (v : JsValue) : bool :=
  match v with
  | JUndefined | JNull => false
  | JBool b => b
  | JNum z => negb (Z.eqb z 0)
  | JStr s => negb (Str.isEmpty s)
  | JArr _ | JObj _ => true
  end.

Definition isArray (v : JsValue) : bool :=
  match v with JArr _ => true | _ => false end.

(** [typeof v === 'object'] *)
Definition typeofObject (v : JsValue) : bool :=
  match v with JNull | JArr _ | JObj _ => true | _ => false end.

(** Pairs every element with its index, printed in decimal. *)
Fixpoint indexedFrom {A} (i : nat) (l : list A) : list (string * A) :=
  match l with
  | [] => []
  | x :: l' => (pretty i, x) :: indexedFrom (S i) l'
  end.

(** The properties visited by [for (const key in v)] together with [v[key]];
    [Object.keys(v)] is the list of their names.  Arrays and strings
    enumerate their indices. *)
Definition entries (v : JsValue) : list (string * JsValue) :=
  match v with
  | JObj props => props
  | JArr items => indexedFrom 0 items
  | JStr s => indexedFrom 0 (map JStr (Str.chars s))
  | _ => []
  end.

(** [String(v)], also the conversion inside a template literal. *)
Fixpoint toString (v : JsValue) : string :=
  match v with
  | JUndefined => "undefined"
  | JNull => "null"
  | JBool true => "true"
  | JBool false => "false"
  | JNum z => pretty z
  | JStr s => s
  | JArr items =>
      Str.join ","
        (map (fun x => match x with
                       | JUndefined | JNull => ""
                       | _ => toString x
                       end) items)
  | JObj _ => "[object Object]"
  end.

(** [const [start, end] = value]: arrays and strings are iterable, anything
    else makes the destructuring throw. *)
Definition destructurePair (v : JsValue) : Result (JsValue * JsValue) :=
  match v with
  | JArr items => Ok (nth 0 items JUndefined, nth 1 items JUndefined)
  | JStr s =>
      let cs := map JStr (Str.chars s) in
      Ok (nth 0 cs JUndefined, nth 1 cs JUndefined)
  | _ => Throw TypeError
  end.

(** ** Entity metadata, as supplied by the ORM

    TypeORM's metadata graph is cyclic (a relation points to the entity on
    its other side, which points back), so a relation names its target by
    its position in the table of entities of the connection. *)

Record ColumnMetadata : Type := {
  propertyName : string;
  propertyPath : string;
  databasePath : string;
  isPrimary : bool;
  isDeleteDate : bool;
  embeddedMetadata : bool;      (* is the column part of an embedded? *)
}.

Record RelationMetadata : Type := {
  relationPropertyName : string;
  inverseEntity : nat;          (* position of [inverseEntityMetadata] *)
}.

Record EntityMetadata : Type := {
  targetName : string;
  columns : list ColumnMetadata;
  primaryColumns : list ColumnMetadata;
  relations : list RelationMetadata;
  deleteDateColumn : option ColumnMetadata;
}.

Record Repository : Type := {
  entityMetadatas : list EntityMetadata;   (* connection.entityMetadatas *)
  metadata : EntityMetadata;               (* repository.metadata *)
  connectionType : string;                 (* metadata.connection.options.type *)
}.

Definition inverseEntityMetadata (repo : Repository) (r : RelationMetadata)
  : option EntityMetadata :=
  entityMetadatas repo !! inverseEntity r.

(** ** The query builder of the ORM

    The ORM (TypeORM 0.3) is a collaborator of the repository; its code is
    not among the sources.  Its [SelectQueryBuilder] is modelled by the
    calls it has received and by its table of aliases, which decides
    whether a join is accepted: [join] throws for a property that is no
    relation of the entity its parent alias stands for.  The metadata
    modelled here has no many-to-many relation (a join makes no junction
    alias), no relation inside an embedded (the property path of a relation
    is its property name) and no table inheritance. *)

Inductive JoinKind : Type := InnerJoin | LeftJoin.

Record JoinCall : Type := {
  joinKind : JoinKind;
  joinProperty : option string;   (* first argument; [undefined] is [None] *)
  joinAlias : string;
}.

Record FindManyOptions : Type := {
  fo_take : option Z;
  fo_skip : option Z;
  fo_withDeleted : option bool;
}.

Inductive OrderDirectionEnum : Type := ASC | DESC.

Record SelectQueryBuilder : Type := {
  alias : string;
  aliases : list (string * option EntityMetadata);    (* expressionMap.aliases *)
  joins : list JoinCall;                              (* innerJoin / leftJoin *)
  wheres : list (string * gmap string JsValue);       (* andWhere *)
  findOptions : option FindManyOptions;               (* setFindOptions *)
  selects : list string;                              (* select *)
  orderBys : list (string * OrderDirectionEnum);      (* addOrderBy *)
}.

(** [repository.createQueryBuilder(alias)]: the main alias stands for the
    entity of the repository. *)
Definition createQueryBuilder (repo : Repository) (alias_ : string)
  : SelectQueryBuilder :=
  {| alias := alias_; aliases := [(alias_, Some (metadata repo))];
     joins := []; wheres := []; findOptions := None;
     selects := [alias_]; orderBys := [] |}.

(** [QueryBuilderUtils.isAliasProperty]: a string with a dot, a non-empty
    alias before the first dot and a non-empty property after it, and no
    parenthesis (which would make it a subquery). *)
Definition isAliasProperty (str : string) : bool :=
  Str.occurs dot str
  && match Str.split dot str with
     | aliasName :: propertyName :: _ =>
         negb (Str.isEmpty aliasName) && negb (Str.isEmpty propertyName)
     | _ => false
     end
  && negb (Str.occurs "("%char str) && negb (Str.occurs ")"%char str).

(** [str.substr(0, str.indexOf("."))] and [str.substr(str.indexOf(".") + 1)] *)
Definition parentAliasOf (str : string) : string :=
  List.hd "" (Str.split dot str).

Definition relationPropertyPathOf (str : string) : string :=
  Str.join "." (List.tl (Str.split dot str)).

(** [expressionMap.findAliasByName]: the first alias of that name. *)
Definition findAliasByName (aliasName : string)
    (table : list (string * option EntityMetadata))
  : option (option EntityMetadata) :=
  snd <$> find (fun entry => bool_decide (fst entry = aliasName)) table.

(** [metadata.findRelationWithPropertyPath] *)
Definition findRelationWithPropertyPath (md : EntityMetadata)
    (propertyPath : string) : option RelationMetadata :=
  find (fun relation => bool_decide (relationPropertyName relation = propertyPath))
       (relations md).

(** [innerJoin] and [leftJoin].  For an alias property the join needs the
    parent alias in the table and the property among the relations of its
    entity, and throws otherwise; the alias of the join then stands for the
    entity on the other side of the relation (a relation whose target is no
    entity of the connection counts as no relation).  Any other string is
    taken for an entity name, a table path or a subquery, and is joined
    under an alias without entity metadata; [undefined] is no string. *)
Definition join_ (repo : Repository) (k : JoinKind) (property : option string)
    (alias_ : string) (b : SelectQueryBuilder) : Result SelectQueryBuilder :=
  let joined (md : option EntityMetadata) :=
    {| alias := alias b;
       aliases := aliases b ++ [(alias_, md)];
       joins := joins b ++ [ {| joinKind := k; joinProperty := property;
                                joinAlias := alias_ |} ];
       wheres := wheres b; findOptions := findOptions b;
       selects := selects b; orderBys := orderBys b |} in
  match property with
  | None => Throw TypeError
  | Some entityOrProperty =>
      if isAliasProperty entityOrProperty then
        let parentAlias := parentAliasOf entityOrProperty in
        let relationPropertyPath := relationPropertyPathOf entityOrProperty in
        match findAliasByName parentAlias (aliases b) with
        | None =>
            Throw (TypeORMError
                     (String dquote parentAlias
                        +:+ String dquote " alias was not found."
                        +:+ " Maybe you forgot to join it?"))
        | Some None =>
            Throw (TypeORMError
                     ("Cannot get entity metadata for the given alias "
                        +:+ String dquote parentAlias +:+ String dquote ""))
        | Some (Some owner) =>
            match findRelationWithPropertyPath owner relationPropertyPath with
            | Some relation =>
                match inverseEntityMetadata repo relation with
                | Some md => Ok (joined (Some md))
                | None =>
                    Throw (TypeORMError
                             ("Relation with property path "
                                +:+ relationPropertyPath
                                +:+ " in entity was not found."))
                end
            | None =>
                Throw (TypeORMError
                         ("Relation with property path "
                            +:+ relationPropertyPath
                            +:+ " in entity was not found."))
            end
        end
      else Ok (joined None)
  end.

Definition andWhere (query : string) (params : gmap string JsValue)
    (b : SelectQueryBuilder) : SelectQueryBuilder :=
  {| alias := alias b; aliases := aliases b; joins := joins b;
     wheres := wheres b ++ [(query, params)];
     findOptions := findOptions b; selects := selects b;
     orderBys := orderBys b |}.

Definition setFindOptions (fo : FindManyOptions) (b : SelectQueryBuilder)
  : SelectQueryBuilder :=
  {| alias := alias b; aliases := aliases b; joins := joins b;
     wheres := wheres b; findOptions := Some fo; selects := selects b;
     orderBys := orderBys b |}.

Definition select (fields : list string) (b : SelectQueryBuilder)
  : SelectQueryBuilder :=
  {| alias := alias b; aliases := aliases b; joins := joins b;
     wheres := wheres b; findOptions := findOptions b; selects := fields;
     orderBys := orderBys b |}.

Definition addOrderBy (field : string) (d : OrderDirectionEnum)
    (b : SelectQueryBuilder) : SelectQueryBuilder :=
  {| alias := alias b; aliases := aliases b; joins := joins b;
     wheres := wheres b; findOptions := findOptions b; selects := selects b;
     orderBys := orderBys b ++ [(field, d)] |}.

(** ** State of one [FindQueryBuilder] and of the objects it owns

    [builder] is the one query builder shared by the helper, the where
    builder and the join builder; [selectedFields] and [entityRelationsHash]
    are the helper's mutable fields; [paramIndex] and [paramsPrefix] are the
    where builder's. *)

Record AllowedRelation : Type := {
  ar_alias : string;
  ar_name : string;
  ar_path : option string;
  ar_columns : list string;
  ar_nested : bool;
  ar_primaryColumns : list string;
  ar_allowedColumns : option (list string);
}.

Record State : Type := {
  builder : SelectQueryBuilder;
  selectedFields : list string;
  entityRelationsHash : gmap string AllowedRelation;
  paramIndex : nat;
  paramsPrefix : string;
}.

Definition setBuilder (b : SelectQueryBuilder) (st : State) : State :=
  {| builder := b; selectedFields := selectedFields st;
     entityRelationsHash := entityRelationsHash st;
     paramIndex := paramIndex st; paramsPrefix := paramsPrefix st |}.

Definition setSelectedFields (fs : list string) (st : State) : State :=
  {| builder := builder st; selectedFields := fs;
     entityRelationsHash := entityRelationsHash st;
     paramIndex := paramIndex st; paramsPrefix := paramsPrefix st |}.

Definition setEntityRelationsHash (h : gmap string AllowedRelation)
    (st : State) : State :=
  {| builder := builder st; selectedFields := selectedFields st;
     entityRelationsHash := h;
     paramIndex := paramIndex st; paramsPrefix := paramsPrefix st |}.

Definition setParamIndex (n : nat) (st : State) : State :=
  {| builder := builder st; selectedFields := selectedFields st;
     entityRelationsHash := entityRelationsHash st;
     paramIndex := n; paramsPrefix := paramsPrefix st |}.

(** [set.add(x)] on a [Set] kept in insertion order. *)
Definition setAdd (x : string) (s : list string) : list string :=
  if bool_decide (x ∈ s) then s else s ++ [x].

Definition selectedFieldsAdd (field : string) (st : State) : State :=
  setSelectedFields (setAdd field (selectedFields st)) st.


(** ** QueryBuilderHelper (query-builder-helper.ts) *)

Section QueryCompiler.

(** [normalizeColumnName] and [isArrayFull] are imported from [../utils],
    which is not among the sources; both are taken as they are declared at
    their call sites.  [normalizeColumnName] receives [relation.path], which
    may be [undefined], and may throw. *)
Variable normalizeColumnName : option string -> string -> Result string.
Variable isArrayFull : option (list string) -> bool.

(** The repository the builders were created for, and [builder.alias] at
    the time the helper was constructed. *)
Variable repo : Repository.
Variable rootAlias : string.

Definition dbType : string := connectionType repo.

(** [initializeEntityColumns] *)
Definition columnKey (prop : ColumnMetadata) : string :=
  if embeddedMetadata prop then propertyPath prop else propertyName prop.

Definition entityColumns : list string :=
  map columnKey (columns (metadata repo)).

Definition entityColumnsHash : gmap string string :=
  fold_left (fun h prop => <[columnKey prop := databasePath prop]> h)
            (columns (metadata repo)) ∅.

(** [initializePrimaryColumns] *)
Definition entityPrimaryColumns : list string :=
  map propertyName (filter (fun prop => isPrimary prop = true)
                           (columns (metadata repo))).

(** [initializeDeleteColumn] *)
Definition entityHasDeleteColumn : bool :=
  (0 <? length (filter (fun prop => isDeleteDate prop = true)
                       (columns (metadata repo))))%nat.

(** [getIdentifierQuote] *)
Definition getIdentifierQuoteChar : ascii :=
  if bool_decide (dbType ∈ ["mysql"; "mariadb"]) then backtick else dquote.

Definition getIdentifierQuote : string :=
  String getIdentifierQuoteChar EmptyString.

(** [cleanFieldName]: [fieldName.replace(new RegExp(quote, 'g'), '')]; the
    quote is a single character without meaning in a regular expression. *)
Definition cleanFieldName (fieldName : string) : string :=
  Str.replaceAll getIdentifierQuoteChar "" fieldName.

(** [getEntityColumns] *)
Definition getEntityColumns (entityMetadata : EntityMetadata)
  : list string * list string :=
  (map propertyPath (columns entityMetadata),
   map propertyPath (primaryColumns entityMetadata)).

Definition findRelation (rels : list RelationMetadata) (name : string)
  : option RelationMetadata :=
  find (fun one => bool_decide (relationPropertyName one = name)) rels.

(** One step of the [fields.reduce(..)] of [getRelationMetadata].  The
    accumulator is [{relations, relationMetadata}]; the callback also
    assigns the variables [name] and [parentPath] of the enclosing
    function, which are threaded along.  [n] is [fields.length]. *)
Definition reduceStep (n : nat)
    (acc : list RelationMetadata * option EntityMetadata * string * string)
    (item : nat * string)
  : list RelationMetadata * option EntityMetadata * string * string :=
  let '(res_relations, _, _, parentPath) := acc in
  let '(i, propertyName_) := item in
  let found :=
    match res_relations with
    | [] => None
    | _ => findRelation res_relations propertyName_
    end in
  let relationMetadata :=
    match found with
    | Some f => inverseEntityMetadata repo f
    | None => None
    end in
  let relations_ :=
    match relationMetadata with
    | Some md => relations md
    | None => []
    end in
  let parentPath' :=
    if bool_decide (i ≠ n - 1)
    then (if Str.isEmpty parentPath then propertyName_
          else parentPath +:+ "." +:+ propertyName_)
    else parentPath in
  (relations_, relationMetadata, propertyName_, parentPath').

Definition mkAllowedRelation (field name : string) (path : option string)
    (nested : bool) (md : EntityMetadata) : AllowedRelation :=
  let '(cols, pcols) := getEntityColumns md in
  {| ar_alias := field; ar_name := name; ar_path := path;
     ar_columns := cols; ar_nested := nested;
     ar_primaryColumns := pcols; ar_allowedColumns := None |}.

(** The relation looked up on a cache miss. *)
Definition resolveRelation (field : string)
    (cache : gmap string AllowedRelation) : option AllowedRelation :=
  let fields := Str.split dot field in
  match fields with
  | [name] =>
      match findRelation (relations (metadata repo)) name with
      | Some found =>
          match inverseEntityMetadata repo found with
          | Some md =>
              Some (mkAllowedRelation field name
                      (Some (rootAlias +:+ "." +:+ name)) false md)
          | None => None
          end
      | None => None
      end
  | _ =>
      let '(_, relationMetadata, name, parentPath) :=
        fold_left (reduceStep (length fields))
                  (combine (seq 0 (length fields)) fields)
                  (relations (metadata repo), None, "", "") in
      match relationMetadata with
      | Some md =>
          let path :=
            if Str.isEmpty parentPath then None
            else
              match cache !! parentPath with
              | Some parentAllowedRelation =>
                  let parentAliasWithUnderscore :=
                    Str.replaceAll dot "_" (ar_alias parentAllowedRelation) in
                  Some (if Str.isEmpty (ar_alias parentAllowedRelation)
                        then field
                        else parentAliasWithUnderscore +:+ "." +:+ name)
              | None => None
              end in
          Some (mkAllowedRelation field name path true md)
      | None => None
      end
  end.

(** [getRelationMetadata]: memoised per field in [entityRelationsHash].
    Nothing in the body throws, so the [try .. catch] is not taken. *)
Definition getRelationMetadata (field : string) (st : State)
  : option AllowedRelation * State :=
  let allowedRelation :=
    match entityRelationsHash st !! field with
    | Some cached => Some cached
    | None => resolveRelation field (entityRelationsHash st)
    end in
  match allowedRelation with
  | Some r =>
      let toSave :=
        {| ar_alias := ar_alias r; ar_name := ar_name r; ar_path := ar_path r;
           ar_columns := ar_columns r; ar_nested := ar_nested r;
           ar_primaryColumns := ar_primaryColumns r;
           ar_allowedColumns := Some (ar_columns r) |} in
      (Some toSave,
       setEntityRelationsHash (<[field := toSave]> (entityRelationsHash st)) st)
  | None => (None, st)
  end.

(** [getFieldWithAlias] *)
Definition getFieldWithAlias (field : string) (useDbField : bool) (st : State)
  : Result (string * State) :=
  let quote := getIdentifierQuote in
  let cols := Str.split dot field in
  match cols with
  | [_] =>
      if useDbField then
        let dbColName :=
          match entityColumnsHash !! field with
          | Some d => if bool_decide (d ≠ field) then d else field
          | None => "undefined"
          end in
        let* r := normalizeColumnName
                    (Some (rootAlias +:+ "." +:+ dbColName)) quote in
        Ok (r, st)
      else
        let* r := normalizeColumnName
                    (Some (rootAlias +:+ "." +:+ field)) quote in
        Ok (r, st)
  | _ =>
      let columnName := List.last cols "" in
      let colAlias := Str.join "_" (removelast cols) in
      let '(relation, st') := getRelationMetadata field st in
      match relation with
      | Some r =>
          let* c := normalizeColumnName (ar_path r) quote in Ok (c, st')
      | None =>
          let* c := normalizeColumnName
                      (Some (colAlias +:+ "." +:+ columnName)) quote in
          Ok (c, st')
      end
  end.

(** The entity a chain of relation names leads to, from the entity whose
    relations are [rels]: every name is looked up among the relations of
    the entity the names before it have reached. *)
Fixpoint walkRelations (rels : list RelationMetadata) (fields : list string)
  : option EntityMetadata :=
  match fields with
  | [] => None
  | name :: rest =>
      match findRelation rels name with
      | Some found =>
          match inverseEntityMetadata repo found with
          | Some md =>
              match rest with
              | [] => Some md
              | _ => walkRelations (relations md) rest
              end
          | None => None
          end
      | None => None
      end
  end.

(** The helper after a run of calls of [getRelationMetadata]. *)
Definition lookups (fields : list string) (st : State) : State :=
  fold_left (fun s field => snd (getRelationMetadata field s)) fields st.

(** Every cached relation of one segment hangs off the root alias; so it is
    in every state reached from a fresh helper. *)
Definition cacheRooted (st : State) : Prop :=
  ∀ p r, entityRelationsHash st !! p = Some r →
         length (Str.split dot p) = 1 →
         ar_path r = Some (rootAlias +:+ "." +:+ p).

(** ** WhereQueryBuilder (where-query-builder.ts) *)

Inductive WhereOperatorEnum : Type :=
| EQ | NOT_EQ | GT | GT_OR_EQ | LT | LT_OR_EQ
| LIKE | NOT_LIKE | ILIKE | NOT_ILIKE
| STARTS_WITH | ENDS_WITH | ISTARTS_WITH | IENDS_WITH
| IN_L | NOT_IN_L | IN | NOT_IN
| CONT_ARR | INTERSECTS_ARR
| IS_NULL | IS_NOT_NULL
| BETWEEN | NOT_BETWEEN
| IS_TRUE | IS_FALSE.

(** The enum is declared in [../types], which is not among the sources.
    The values of the members shared with the request package
    (nest-crud-request/src/lib/query-builder.ts) are those used by the
    tests; the values of the other eight members are a parameter. *)
Variable extraOperatorValue : WhereOperatorEnum -> string.

Definition operatorValue (o : WhereOperatorEnum) : string :=
  match o with
  | EQ => "$eq" | NOT_EQ => "$ne"
  | GT => "$gt" | GT_OR_EQ => "$gte" | LT => "$lt" | LT_OR_EQ => "$lte"
  | IN => "$in" | NOT_IN => "$notIn"
  | LIKE => "$like" | NOT_LIKE => "$notLike"
  | ILIKE => "$iLike" | NOT_ILIKE => "$notIlike"
  | IS_NULL => "$isNull" | IS_NOT_NULL => "$isNotNull"
  | BETWEEN => "$between" | NOT_BETWEEN => "$notBetween"
  | IS_TRUE => "$isTrue" | IS_FALSE => "$isFalse"
  | STARTS_WITH | ENDS_WITH | ISTARTS_WITH | IENDS_WITH
  | IN_L | NOT_IN_L | CONT_ARR | INTERSECTS_ARR => extraOperatorValue o
  end.

(** The [case] labels of the [switch (operator)] in source order; the first
    label equal to the operator string is the one taken. *)
Definition switchCases : list WhereOperatorEnum :=
  [ EQ; NOT_EQ; GT; GT_OR_EQ; LT; LT_OR_EQ;
    LIKE; NOT_LIKE; ILIKE; NOT_ILIKE;
    STARTS_WITH; ENDS_WITH; ISTARTS_WITH; IENDS_WITH;
    IN_L; NOT_IN_L; IN; NOT_IN; CONT_ARR; INTERSECTS_ARR;
    IS_NULL; IS_NOT_NULL; BETWEEN; NOT_BETWEEN; IS_TRUE; IS_FALSE ].

Definition switchOperator (operator : string) : option WhereOperatorEnum :=
  find (fun o => bool_decide (operatorValue o = operator)) switchCases.

(** The enum declares its members with pairwise different values. *)
Definition distinctOperatorValues : Prop :=
  NoDup (map operatorValue switchCases).

(** [convertToText] *)
Definition convertToText (columnName : string) : string :=
  if bool_decide (dbType ∈ ["postgres"; "postgresql"]) then
    columnName +:+ "::text"
  else if bool_decide (dbType ∈ ["sqlite"; "better-sqlite3"]) then
    "CAST(" +:+ columnName +:+ " AS TEXT)"
  else if bool_decide (dbType ∈ ["mysql"; "mariadb"]) then
    "CAST(" +:+ columnName +:+ " AS CHAR)"
  else if bool_decide (dbType = "mssql") then
    "CAST(" +:+ columnName +:+ " AS NVARCHAR(MAX))"
  else if bool_decide (dbType = "oracle") then
    "TO_CHAR(" +:+ columnName +:+ ")"
  else
    "CAST(" +:+ columnName +:+ " AS VARCHAR)".

(** [generateLikeQuery] *)
Definition generateLikeQuery (columnName paramName : string)
    (isNegated isCaseInsensitive : bool) : string :=
  let negation := if isNegated then "NOT " else "" in
  let textColumn := convertToText columnName in
  if isCaseInsensitive then
    "LOWER(" +:+ textColumn +:+ ") " +:+ negation +:+ "LIKE LOWER(:"
      +:+ paramName +:+ ")"
  else
    textColumn +:+ " " +:+ negation +:+ "LIKE :" +:+ paramName.

(** What one compilation returns: [{ query, params }]. *)
Definition Compiled : Type := string * gmap string JsValue.

Definition noCondition : Compiled := ("", ∅).

Definition isPostgres : bool :=
  bool_decide (dbType ∈ ["postgres"; "postgresql"]).

Definition lowered (items : list JsValue) : JsValue :=
  JArr (map (fun v => JStr (Str.toLowerCase (toString v))) items).

(** The body of the [switch], once the parameter name is allocated. *)
Definition emitOperator (columnName : string) (value : JsValue)
    (operator : string) (paramName : string) : Result Compiled :=
  let one (query : string) (v : JsValue) : Result Compiled :=
    Ok (query, {[ paramName := v ]}) in
  let none (query : string) : Result Compiled := Ok (query, ∅) in
  let requiresArray : Result Compiled :=
    Throw (BadRequestException
             ("Operator " +:+ operator +:+ " requires an array value")) in
  let onlyPostgres : Result Compiled :=
    Throw (BadRequestException
             ("Operator " +:+ operator +:+ " is only supported for PostgreSQL")) in
  match switchOperator operator with
  | Some EQ => one (columnName +:+ " = :" +:+ paramName) value
  | Some NOT_EQ => one (columnName +:+ " != :" +:+ paramName) value
  | Some GT => one (columnName +:+ " > :" +:+ paramName) value
  | Some GT_OR_EQ => one (columnName +:+ " >= :" +:+ paramName) value
  | Some LT => one (columnName +:+ " < :" +:+ paramName) value
  | Some LT_OR_EQ => one (columnName +:+ " <= :" +:+ paramName) value
  | Some LIKE => one (generateLikeQuery columnName paramName false false) value
  | Some NOT_LIKE => one (generateLikeQuery columnName paramName true false) value
  | Some ILIKE => one (generateLikeQuery columnName paramName false true) value
  | Some NOT_ILIKE => one (generateLikeQuery columnName paramName true true) value
  | Some STARTS_WITH =>
      one (generateLikeQuery columnName paramName false false)
          (JStr (toString value +:+ "%"))
  | Some ENDS_WITH =>
      one (generateLikeQuery columnName paramName false false)
          (JStr ("%" +:+ toString value))
  | Some ISTARTS_WITH =>
      one (generateLikeQuery columnName paramName false true)
          (JStr (toString value +:+ "%"))
  | Some IENDS_WITH =>
      one (generateLikeQuery columnName paramName false true)
          (JStr ("%" +:+ toString value))
  | Some IN_L =>
      match value with
      | JArr [] => none "1 = 0"
      | JArr items =>
          one ("LOWER(" +:+ convertToText columnName +:+ ") IN (:..."
                 +:+ paramName +:+ ")") (lowered items)
      | _ => requiresArray
      end
  | Some NOT_IN_L =>
      match value with
      | JArr items =>
          one ("LOWER(" +:+ convertToText columnName +:+ ") NOT IN (:..."
                 +:+ paramName +:+ ")") (lowered items)
      | _ => requiresArray
      end
  | Some IN =>
      match value with
      | JArr [] => none "1 = 0"
      | _ => one (columnName +:+ " IN (:..." +:+ paramName +:+ ")") value
      end
  | Some NOT_IN =>
      one (columnName +:+ " NOT IN (:..." +:+ paramName +:+ ")") value
  | Some CONT_ARR =>
      match value with
      | JArr [] => none "1 = 0"
      | JArr _ =>
          if isPostgres then
            one (columnName +:+ " @> ARRAY[:..." +:+ paramName +:+ "]::text[]")
                value
          else onlyPostgres
      | _ => requiresArray
      end
  | Some INTERSECTS_ARR =>
      match value with
      | JArr [] => none "1 = 0"
      | JArr _ =>
          if isPostgres then
            one (columnName +:+ " && ARRAY[:..." +:+ paramName +:+ "]::text[]")
                value
          else onlyPostgres
      | _ => requiresArray
      end
  | Some IS_NULL => none (columnName +:+ " IS NULL")
  | Some IS_NOT_NULL => none (columnName +:+ " IS NOT NULL")
  | Some BETWEEN =>
      let* (start, end_) := destructurePair value in
      Ok (columnName +:+ " BETWEEN :" +:+ paramName +:+ "_0 AND :"
            +:+ paramName +:+ "_1",
          <[ paramName +:+ "_1" := end_ ]>
            ({[ paramName +:+ "_0" := start ]} : gmap string JsValue))
  | Some NOT_BETWEEN =>
      let* (start, end_) := destructurePair value in
      Ok (columnName +:+ " NOT BETWEEN :" +:+ paramName +:+ "_0 AND :"
            +:+ paramName +:+ "_1",
          <[ paramName +:+ "_1" := end_ ]>
            ({[ paramName +:+ "_0" := start ]} : gmap string JsValue))
  | Some IS_TRUE => none (columnName +:+ " IS TRUE")
  | Some IS_FALSE => none (columnName +:+ " IS FALSE")
  | None => Throw (BadRequestException ("Unsupported operator: " +:+ operator))
  end.

(** [parseWhereObjectToQueryAndParams]: the parameter name is taken from
    the counter before anything else happens. *)
Definition parseWhereObjectToQueryAndParams (columnName : string)
    (value : JsValue) (operator : string) (st : State)
  : Result (Compiled * State) :=
  let paramName := paramsPrefix st +:+ pretty (paramIndex st) in
  let st' := setParamIndex (S (paramIndex st)) st in
  let* c := emitOperator columnName value operator paramName in
  Ok (c, st').

Definition isLogicalKey (key : string) : bool :=
  bool_decide (key = "$and") || bool_decide (key = "$or").

(** The connective of a logical group and the text pushed for it:
    parenthesised only when more than one part survived. *)
Definition groupOperator (key : string) : string :=
  if bool_decide (key = "$and") then " AND " else " OR ".

Definition groupedQuery (key : string) (subParts : list string) : string :=
  if (1 <? length subParts)%nat
  then Str.paren (Str.join (groupOperator key) subParts)
  else Str.join (groupOperator key) subParts.

(** [if (query) { queryParts.push(query); Object.assign(params, subParams) }] *)
Definition pushCompiled (c : Compiled) (queryParts : list string)
    (params : gmap string JsValue) : list string * gmap string JsValue :=
  if Str.isEmpty (fst c) then (queryParts, params)
  else (queryParts ++ [fst c], snd c ∪ params).

Section WhereLoops.

(** The recursive call of [buildWhereQueryAndParams]. *)
Variable recur : JsValue -> State -> Result (Compiled * State).

(** [for (const sub of value)] of a logical group. *)
Fixpoint compileSubs (subs : list JsValue) (subParts : list string)
    (params : gmap string JsValue) (st : State)
  : Result (list string * gmap string JsValue * State) :=
  match subs with
  | [] => Ok (subParts, params, st)
  | sub :: rest =>
      let* (c, st1) := recur sub st in
      if Str.isEmpty (fst c) then compileSubs rest subParts params st1
      else compileSubs rest (subParts ++ [Str.paren (fst c)])
                       (snd c ∪ params) st1
  end.

(** [for (const op in value)] of an operator map. *)
Fixpoint compileOperators (key : string) (ops : list (string * JsValue))
    (queryParts : list string) (params : gmap string JsValue) (st : State)
  : Result (list string * gmap string JsValue * State) :=
  match ops with
  | [] => Ok (queryParts, params, st)
  | (op, val) :: rest =>
      let* (column, st1) := getFieldWithAlias key false st in
      let* (c, st2) := parseWhereObjectToQueryAndParams column val op st1 in
      let '(queryParts', params') := pushCompiled c queryParts params in
      compileOperators key rest queryParts' params' st2
  end.

(** [for (const key in condition)] *)
Fixpoint compileEntries (props : list (string * JsValue))
    (queryParts : list string) (params : gmap string JsValue) (st : State)
  : Result (list string * gmap string JsValue * State) :=
  match props with
  | [] => Ok (queryParts, params, st)
  | (key, value) :: rest =>
      if isLogicalKey key then
        match value with
        | JArr (sub :: subs) =>
            let* (r, st1) := compileSubs (sub :: subs) [] params st in
            let '(subParts, params1) := r in
            let queryParts1 :=
              match subParts with
              | [] => queryParts
              | _ => queryParts ++ [groupedQuery key subParts]
              end in
            compileEntries rest queryParts1 params1 st1
        | _ => compileEntries rest queryParts params st
        end
      else
        match value with
        | JObj ops =>
            let* (r, st1) := compileOperators key ops queryParts params st in
            let '(queryParts1, params1) := r in
            compileEntries rest queryParts1 params1 st1
        | _ =>
            let* (column, st1) := getFieldWithAlias key false st in
            let* (c, st2) :=
              parseWhereObjectToQueryAndParams column value (operatorValue EQ) st1 in
            let '(queryParts1, params1) := pushCompiled c queryParts params in
            compileEntries rest queryParts1 params1 st2
        end
  end.

Definition finishCondition (queryParts : list string)
    (params : gmap string JsValue) : Compiled :=
  (match queryParts with
   | [] => ""
   | _ => Str.join " AND " queryParts
   end, params).

End WhereLoops.

(** [buildWhereQueryAndParams].  Only a plain object can hold a [$and] or
    [$or] key; an array or a string enumerates its indices, so its entries
    never reach the recursive call (see [compileEntries_indexed]). *)
Fixpoint buildWhereQueryAndParams (condition : JsValue) (st : State)
    {struct condition} : Result (Compiled * State) :=
  if negb (truthy condition) then Ok (noCondition, st)
  else
    match entries condition with
    | [] => Ok (noCondition, st)
    | _ =>
        let* (r, st') :=
          match condition with
          | JObj props =>
              compileEntries buildWhereQueryAndParams props [] ∅ st
          | _ =>
              compileEntries (fun _ st0 => Ok (noCondition, st0))
                             (entries condition) [] ∅ st
          end in
        let '(queryParts, params) := r in
        Ok (finishCondition queryParts params, st')
    end.

(** The elements of a logical group compiled one after the other, each
    from the state its predecessor left. *)
Fixpoint compileEach (subs : list JsValue) (st : State)
  : Result (list Compiled * State) :=
  match subs with
  | [] => Ok ([], st)
  | sub :: rest =>
      let* (c, st1) := buildWhereQueryAndParams sub st in
      let* (cs, st2) := compileEach rest st1 in
      Ok (c :: cs, st2)
  end.

(** The elements that did not compile to the empty fragment. *)
Definition survivors (cs : list Compiled) : list Compiled :=
  List.filter (fun c => negb (Str.isEmpty (fst c))) cs.

(** [Object.assign(params, subParams)] for each of them in turn. *)
Definition mergeParams (cs : list Compiled) (params : gmap string JsValue)
  : gmap string JsValue :=
  fold_left (fun acc c => snd c ∪ acc) cs params.

Definition compiledQuery (r : Result (Compiled * State)) : option string :=
  match r with
  | Ok (c, _) => Some (fst c)
  | Throw _ => None
  end.

(** The text of a group as section 4.2 of the specification words it: the
    surviving fragments joined with the connective, the result in
    parentheses when there is more than one of them. *)
Definition specGroupQuery (key : string) (fragments : list string) : string :=
  let surviving := List.filter (fun q => negb (Str.isEmpty q)) fragments in
  if (1 <? length surviving)%nat
  then Str.paren (Str.join (groupOperator key) surviving)
  else Str.join (groupOperator key) surviving.

(** ** Leaf comparisons

    A leaf comparison of a filter is one call of
    [parseWhereObjectToQueryAndParams]: an operator string and the value it
    is applied to.  [leaves] lists them in the order the compiler meets
    them. *)

Definition Leaf : Type := string * JsValue.

Definition leavesOfEntry (recur : JsValue -> list Leaf) (kv : string * JsValue)
  : list Leaf :=
  if isLogicalKey (fst kv) then
    match snd kv with
    | JArr subs => List.flat_map recur subs
    | _ => []
    end
  else
    match snd kv with
    | JObj ops => ops
    | value => [(operatorValue EQ, value)]
    end.

Fixpoint leaves (condition : JsValue) : list Leaf :=
  if negb (truthy condition) then []
  else
    match condition with
    | JObj props => List.flat_map (leavesOfEntry leaves) props
    | _ => List.flat_map (leavesOfEntry (fun _ => [])) (entries condition)
    end.

(** The number of parameters a leaf binds: none for the null and boolean
    tests and for the guarded empty list, two for a range, one otherwise. *)
Definition leafParams (leaf : Leaf) : nat :=
  match switchOperator (fst leaf) with
  | Some (IS_NULL | IS_NOT_NULL | IS_TRUE | IS_FALSE) => 0
  | Some (BETWEEN | NOT_BETWEEN) => 2
  | Some (IN | IN_L | CONT_ARR | INTERSECTS_ARR) =>
      match snd leaf with
      | JArr [] => 0
      | _ => 1
      end
  | Some _ => 1
  | None => 0
  end.

(** The count as section 8 of the specification words it: one key for
    every leaf, two for a BETWEEN or NOT BETWEEN leaf. *)
Definition specParams (leaf : Leaf) : nat :=
  match switchOperator (fst leaf) with
  | Some (BETWEEN | NOT_BETWEEN) => 2
  | _ => 1
  end.

(** The keys a leaf that drew the counter value [i] may bind. *)
Definition paramKey (prefix : string) (i : nat) (suffix : string) : string :=
  prefix +:+ pretty i +:+ suffix.

Definition paramSuffixes : list string := [""; "_0"; "_1"].

(** Every key of [params] belongs to a counter value in [lo, hi). *)
Definition keysWithin (prefix : string) (lo hi : nat)
    (params : gmap string JsValue) : Prop :=
  ∀ k, is_Some (params !! k) →
       ∃ i suffix, lo ≤ i < hi ∧ suffix ∈ paramSuffixes
                   ∧ k = paramKey prefix i suffix.

(** What the loops of the compiler maintain, from the parameters [params]
    gathered since the counter stood at [lo] to the parameters [params']
    after the leaves [ls]: the counter has advanced by one per leaf, the
    leaves have added their parameters without a collision, and every leaf
    has added a fragment. *)
Definition gathered (lo : nat) (st : State) (queryParts : list string)
    (params : gmap string JsValue) (ls : list Leaf)
    (st' : State) (queryParts' : list string)
    (params' : gmap string JsValue) : Prop :=
  paramsPrefix st' = paramsPrefix st
  ∧ paramIndex st' = paramIndex st + length ls
  ∧ keysWithin (paramsPrefix st) lo (paramIndex st') params'
  ∧ size params' = size params + sum_list_with leafParams ls
  ∧ (queryParts' = [] → queryParts = [] ∧ ls = [])
  ∧ (Forall (fun q => Str.isEmpty q = false) queryParts →
     Forall (fun q => Str.isEmpty q = false) queryParts').

(** The same for one compilation [recur] whose leaves are [recurLeaves]; it
    starts without parameters. *)
Definition compiles (recur : JsValue -> State -> Result (Compiled * State))
    (recurLeaves : JsValue -> list Leaf) (condition : JsValue) : Prop :=
  ∀ st c st',
    recur condition st = Ok (c, st') →
    paramsPrefix st' = paramsPrefix st
    ∧ paramIndex st' = paramIndex st + length (recurLeaves condition)
    ∧ keysWithin (paramsPrefix st) (paramIndex st) (paramIndex st') (snd c)
    ∧ size (snd c) = sum_list_with leafParams (recurLeaves condition)
    ∧ (Str.isEmpty (fst c) = true → recurLeaves condition = []).

(** Two fragments joined the way sibling fragments are: an empty one
    vanishes. *)
Definition andQueries (q1 q2 : string) : string :=
  if Str.isEmpty q1 then q2
  else if Str.isEmpty q2 then q1
  else q1 +:+ " AND " +:+ q2.

(** What no compilation changes: the query builder, the registered columns
    and the prefix of the parameter names. *)
Definition untouched (st st' : State) : Prop :=
  builder st' = builder st
  ∧ selectedFields st' = selectedFields st
  ∧ paramsPrefix st' = paramsPrefix st.

(** The guard [!condition || !Object.keys(condition).length]: a condition
    that is falsy or has no key. *)
Definition vacuous (condition : JsValue) : bool :=
  negb (truthy condition) || bool_decide (entries condition = []).

(** [WhereQueryBuilder.build] *)
Definition WhereQueryBuilder_build (whereObject : JsValue) (st : State)
  : Result State :=
  if negb (truthy whereObject) then Ok st
  else if isArray whereObject && bool_decide (entries whereObject = []) then Ok st
  else if typeofObject whereObject && bool_decide (entries whereObject = [])
  then Ok st
  else
    let whereObject' :=
      match whereObject with
      | JArr _ => JObj [("$and", whereObject)]
      | _ => whereObject
      end in
    let* (c, st') := buildWhereQueryAndParams whereObject' st in
    let '(query, params) := c in
    if Str.isEmpty query then Ok st'
    else Ok (setBuilder (andWhere query params (builder st')) st').

(** The condition [build] compiles: a root-level array is an AND group. *)
Definition rootCondition (whereObject : JsValue) : JsValue :=
  match whereObject with
  | JArr _ => JObj [("$and", whereObject)]
  | _ => whereObject
  end.

(** ** JoinQueryBuilder (join-query-builder.ts) *)

Inductive JoinType : Type := JoinLeft | JoinInner.   (* 'left' | 'inner' *)

Record RelationObjectValue : Type := {
  rov_select : option (list string);
  rov_where : option JsValue;
  rov_joinType : option JoinType;
}.

(** [RelationObjectValue | boolean] *)
Inductive RelationConfig : Type :=
| RelationFlag (b : bool)
| RelationValue (v : RelationObjectValue).

(** [Record<string, RelationObjectValue | boolean>], in enumeration order *)
Definition RelationObject : Type := list (string * RelationConfig).

(** [string | string[] | RelationObject]; the elements of an array are
    parsed with [parseJoinConfig] again, whatever they are. *)
Inductive RelationOptions : Type :=
| RelationName (name : string)
| RelationList (items : list RelationOptions)
| RelationMap (object : RelationObject).

Definition defaultJoin : RelationObjectValue :=
  {| rov_select := None; rov_where := None; rov_joinType := Some JoinLeft |}.

(** [target[key] = value] on an object: an existing key keeps its place, a
    new one is enumerated last (relation names are no array indices, which
    an engine would enumerate first). *)
Fixpoint objectSet {A} (key : string) (value : A) (target : list (string * A))
  : list (string * A) :=
  match target with
  | [] => [(key, value)]
  | (k, v) :: rest =>
      if bool_decide (k = key) then (k, value) :: rest
      else (k, v) :: objectSet key value rest
  end.

(** [Object.assign(target, source)] *)
Definition objectAssign {A} (target source : list (string * A))
  : list (string * A) :=
  fold_left (fun t kv => objectSet (fst kv) (snd kv) t) source target.

(** [object[key]] *)
Fixpoint objectGet {A} (key : string) (object : list (string * A)) : option A :=
  match object with
  | [] => None
  | (k, v) :: rest => if bool_decide (k = key) then Some v else objectGet key rest
  end.

(** [parseJoinConfig] *)
Fixpoint parseJoinConfig (joinConfig : RelationOptions) : RelationObject :=
  match joinConfig with
  | RelationName name => [(name, RelationFlag true)]
  | RelationList items =>
      fold_left (fun result config => objectAssign result (parseJoinConfig config))
                items []
  | RelationMap object => object
  end.

(** [segments.slice(0, i).join('.')] for [i = 1 .. segments.length] *)
Definition parentPaths (segments : list string) : list string :=
  map (fun i => Str.join "." (take i segments)) (seq 1 (length segments)).

(** The loop of [collectAllNeededRelations] over the keys of the
    configuration, from the set [allRelations] built so far. *)
Definition closureFrom (joinConfig : RelationObject) (allRelations : list string)
  : list string :=
  fold_left
    (fun all kv =>
       fold_left (fun all' currentPath => setAdd currentPath all')
                 (parentPaths (Str.split dot (fst kv))) all)
    joinConfig allRelations.

(** [collectAllNeededRelations]: the [Set] in insertion order. *)
Definition collectAllNeededRelations (joinConfig : RelationObject)
  : list string :=
  closureFrom joinConfig [].

(** [a.split('.').length] *)
Definition depth (relationPath : string) : nat :=
  length (Str.split dot relationPath).

(** [Array.prototype.sort] with the comparator [depthA - depthB]: a stable
    sort by depth. *)
Fixpoint insertByDepth (x : string) (sorted : list string) : list string :=
  match sorted with
  | [] => [x]
  | y :: rest =>
      if (depth x <=? depth y)%nat then x :: y :: rest
      else y :: insertByDepth x rest
  end.

Definition sortByDepth (l : list string) : list string :=
  fold_right insertByDepth [] l.

(** The order the sort establishes. *)
Definition byDepth (a b : string) : Prop := depth a ≤ depth b.

Definition sortedRelations (joinConfig : RelationObject) : list string :=
  sortByDepth (collectAllNeededRelations joinConfig).

Definition relationType (options : RelationObjectValue) : JoinKind :=
  match rov_joinType options with
  | Some JoinInner => InnerJoin
  | _ => LeftJoin
  end.

(** Is [name] a relation of the root entity, with a known target? *)
Definition rootRelationExists (name : string) : bool :=
  match findRelation (relations (metadata repo)) name with
  | Some found => bool_decide (is_Some (inverseEntityMetadata repo found))
  | None => false
  end.

(** What identifies a join call here: its kind and its alias. *)
Definition joinSummary (j : JoinCall) : JoinKind * string :=
  (joinKind j, joinAlias j).

(** [for (const field of select) this.helper.selectedFields.add(field)] *)
Definition addSelected (fields : list string) (st : State) : State :=
  fold_left (fun s field => selectedFieldsAdd field s) fields st.

(** [new Set(list)], in insertion order *)
Definition newSet (l : list string) : list string :=
  fold_left (fun s x => setAdd x s) l [].

Definition qualify (alias_ : string) (cols : list string) : list string :=
  map (fun col => alias_ +:+ "." +:+ col) cols.

Definition isAllowed (allowed : list string) (column : string) : bool :=
  existsb (fun a => bool_decide (a = column)) allowed.

(** [isArrayFull(options.select) && options.select] *)
Definition explicitSelect (options : RelationObjectValue) : option (list string) :=
  match rov_select options with
  | Some sel => if isArrayFull (Some sel) then Some sel else None
  | None => None
  end.

(** [setJoin] *)
Definition setJoin (name : string) (options : RelationObjectValue) (st : State)
  : Result State :=
  let segments := Str.split dot name in
  match segments with
  | [_] =>
      (* Simple relation: profile *)
      let '(allowedRelation, st1) := getRelationMetadata name st in
      match allowedRelation with
      | None => Throw (Error ("Relation '" +:+ name +:+ "' not found"))
      | Some ar =>
          let alias_ := name in
          let* joined :=
            join_ repo (relationType options) (ar_path ar) alias_ (builder st1) in
          let st2 := setBuilder joined st1 in
          let columns_ :=
            match ar_allowedColumns ar with
            | Some allowed =>
                match explicitSelect options with
                | Some sel => List.filter (isAllowed allowed) sel
                | None => allowed
                end
            | None => []
            end in
          let select_ :=
            newSet (qualify alias_ (ar_primaryColumns ar ++ columns_)) in
          Ok (addSelected select_ st2)
      end
  | _ =>
      (* Nested relation: profile.addresses, profile.addresses.country *)
      let relationName := List.last segments "" in
      let parentAlias := Str.join "_" (removelast segments) in
      let currentAlias := Str.replaceAll dot "_" name in
      let joinPath := parentAlias +:+ "." +:+ relationName in
      let* joined :=
        join_ repo (relationType options) (Some joinPath) currentAlias
              (builder st) in
      let st1 := setBuilder joined st in
      let '(allowedRelation, st2) := getRelationMetadata name st1 in
      match allowedRelation with
      | None => Ok st2
      | Some ar =>
          match explicitSelect options with
          | Some sel =>
              let filteredColumns :=
                match ar_allowedColumns ar with
                | Some allowed => List.filter (isAllowed allowed) sel
                | None => sel
                end in
              Ok (addSelected (qualify currentAlias filteredColumns) st2)
          | None =>
              let columns_ :=
                match ar_allowedColumns ar with
                | Some allowed => allowed
                | None => []
                end in
              let select_ :=
                newSet (qualify currentAlias (ar_primaryColumns ar ++ columns_)) in
              Ok (addSelected select_ st2)
          end
      end
  end.

(** [joinConfig[relationPath] || { joinType: 'left' }], then the options
    passed to [setJoin]: [{ joinType: 'left' }] for a boolean,
    [{ joinType: 'left', ...config }] otherwise. *)
Definition joinOptions (joinConfig : RelationObject) (relationPath : string)
  : RelationObjectValue :=
  match objectGet relationPath joinConfig with
  | None | Some (RelationFlag false) => defaultJoin
  | Some (RelationFlag true) => defaultJoin
  | Some (RelationValue v) =>
      {| rov_select := rov_select v; rov_where := rov_where v;
         rov_joinType := match rov_joinType v with
                         | Some t => Some t
                         | None => Some JoinLeft
                         end |}
  end.

Fixpoint setJoins (joinConfig : RelationObject) (paths : list string)
    (st : State) : Result State :=
  match paths with
  | [] => Ok st
  | relationPath :: rest =>
      let* st1 := setJoin relationPath (joinOptions joinConfig relationPath) st in
      setJoins joinConfig rest st1
  end.

(** The cache holds no single-segment path that is not a relation of the
    root entity; so it is in every state reached from a fresh helper. *)
Definition cacheSound (st : State) : Prop :=
  ∀ p, depth p = 1 → rootRelationExists p = false →
       entityRelationsHash st !! p = None.

(** The path a planned path hangs off: the path without its last segment. *)
Definition parentPath (relationPath : string) : string :=
  Str.join "." (take (depth relationPath - 1) (Str.split dot relationPath)).

(** The property a join is made on: a relation of the root alias for a
    path of one segment, and for a longer path its last segment as a
    relation of the alias its parent path is joined under. *)
Definition joinedProperty (relationPath : string) : string :=
  if bool_decide (depth relationPath = 1)
  then rootAlias +:+ "." +:+ relationPath
  else Str.replaceAll dot "_" (parentPath relationPath) +:+ "."
         +:+ List.last (Str.split dot relationPath) "".

(** The join call planned for a path, in full. *)
Definition plannedJoinCall (joinConfig : RelationObject) (relationPath : string)
  : JoinCall :=
  {| joinKind := relationType (joinOptions joinConfig relationPath);
     joinProperty := Some (joinedProperty relationPath);
     joinAlias := Str.replaceAll dot "_" relationPath |}.

(** A relation configuration without its [where]. *)
Definition withoutWhere (entry : string * RelationConfig)
  : string * RelationConfig :=
  match snd entry with
  | RelationFlag _ => entry
  | RelationValue v =>
      (fst entry,
       RelationValue {| rov_select := rov_select v; rov_where := None;
                        rov_joinType := rov_joinType v |})
  end.

(** What [setJoin] reads of its options. *)
Definition sameJoin (a b : RelationObjectValue) : Prop :=
  rov_select a = rov_select b ∧ rov_joinType a = rov_joinType b.

(** *** What a relation specification says, in the words of the
    specification

    The definitions below do not come from the code: they say what the
    caller has specified, to compare with what the planner makes of it. *)

(** An object holds each of its keys once. *)
Fixpoint uniqueKeys (config : RelationOptions) : bool :=
  match config with
  | RelationName _ => true
  | RelationList items => forallb uniqueKeys items
  | RelationMap object => bool_decide (NoDup (map fst object))
  end.

(** The paths the caller has specified. *)
Fixpoint specPaths (config : RelationOptions) : list string :=
  match config with
  | RelationName name => [name]
  | RelationList items => List.flat_map specPaths items
  | RelationMap object => map fst object
  end.

(** The configuration the caller has supplied for a path, if any: a bare
    name switches the relation on, and of the elements of a list the last
    one that configures the path decides. *)
Fixpoint specConfigOf (config : RelationOptions) (path : string)
  : option RelationConfig :=
  match config with
  | RelationName name =>
      if bool_decide (name = path) then Some (RelationFlag true) else None
  | RelationList items =>
      fold_left
        (fun found item =>
           match specConfigOf item path with
           | Some c => Some c
           | None => found
           end)
        items None
  | RelationMap object => objectGet path object
  end.

(** The kind of the join of a path: inner where the caller has asked for
    an inner join of that very path, left everywhere else. *)
Definition specJoinKind (config : RelationOptions) (path : string) : JoinKind :=
  match specConfigOf config path with
  | Some (RelationValue {| rov_joinType := Some JoinInner |}) => InnerJoin
  | _ => LeftJoin
  end.

(** The select list and the filter of a path: those the caller has
    supplied for that very path, none for a path the caller has only
    switched on or has not named. *)
Definition specSelect (config : RelationOptions) (path : string)
  : option (list string) :=
  match specConfigOf config path with
  | Some (RelationValue v) => rov_select v
  | _ => None
  end.

Definition specWhere (config : RelationOptions) (path : string)
  : option JsValue :=
  match specConfigOf config path with
  | Some (RelationValue v) => rov_where v
  | _ => None
  end.

(** The join the specification asks for: its kind and its alias. *)
Definition specJoin (config : RelationOptions) (path : string)
  : JoinKind * string :=
  (specJoinKind config path, Str.replaceAll dot "_" path).

(** *** When the ORM accepts the joins of a plan *)

(** A name without dot or parenthesis, and not empty. *)
Definition plainName (s : string) : bool :=
  negb (Str.isEmpty s) && negb (Str.occurs dot s)
  && negb (Str.occurs "("%char s) && negb (Str.occurs ")"%char s).

Definition plainPath (relationPath : string) : bool :=
  forallb plainName (Str.split dot relationPath).

(** The entity a path leads to from the root entity. *)
Definition targetOf (relationPath : string) : option EntityMetadata :=
  walkRelations (relations (metadata repo)) (Str.split dot relationPath).

(** The first path of a plan that is no chain of relations. *)
Definition firstUnresolved (paths : list string) : option string :=
  find (fun p => negb (bool_decide (is_Some (targetOf p)))) paths.

(** The alias table of a builder on which the paths [processed] have been
    joined, in this order, and nothing else. *)
Definition aliasTable (processed : list string)
  : list (string * option EntityMetadata) :=
  (rootAlias, Some (metadata repo))
    :: map (fun q => (Str.replaceAll dot "_" q, targetOf q)) processed.

(** Every cached relation is the one its path leads to, with the columns
    of that entity, and hangs off the root alias when the path has one
    segment; so it is in every state reached from a fresh helper. *)
Definition cacheFaithful (st : State) : Prop :=
  ∀ p r, entityRelationsHash st !! p = Some r →
    ∃ md, targetOf p = Some md
          ∧ ar_columns r = map propertyPath (columns md)
          ∧ ar_primaryColumns r = map propertyPath (primaryColumns md)
          ∧ ar_allowedColumns r = Some (ar_columns r)
          ∧ (depth p = 1 → ar_path r = Some (rootAlias +:+ "." +:+ p)).

(** A builder fresh from [createQueryBuilder] in a helper with a faithful
    cache: the state [FindQueryBuilder.build] plans in. *)
Definition unjoined (st : State) : Prop :=
  aliases (builder st) = aliasTable [] ∧ cacheFaithful st.

(** The error a plan ends in at a path that is no chain of relations: the
    planner's own for a path of one segment, the ORM's for a longer path,
    whose join is refused. *)
Definition unresolvedError (path : string) : Exception :=
  if bool_decide (depth path = 1)
  then Error ("Relation '" +:+ path +:+ "' not found")
  else TypeORMError ("Relation with property path "
                       +:+ List.last (Str.split dot path) ""
                       +:+ " in entity was not found.").

(** The columns registered for a path, under its alias: the primary key
    and every column of the entity the path leads to, or, where a select
    list is given that [isArrayFull] takes for one, those of its entries
    that are columns of the entity, preceded by the primary key for a path
    of one segment (not for a longer path, see
    [nested_select_drops_primary_key]). *)
Definition registeredFor (select_ : option (list string)) (path : string)
  : list string :=
  match targetOf path with
  | None => []
  | Some md =>
      let cols := map propertyPath (columns md) in
      let keys := map propertyPath (primaryColumns md) in
      let chosen :=
        match select_ with
        | Some sel =>
            if isArrayFull (Some sel)
            then (if bool_decide (depth path = 1) then keys else [])
                   ++ List.filter (fun c => bool_decide (c ∈ cols)) sel
            else keys ++ cols
        | None => keys ++ cols
        end in
      map (fun col => Str.replaceAll dot "_" path +:+ "." +:+ col) chosen
  end.

(** The columns registered for a path of a specification. *)
Definition specRegistered (config : RelationOptions) (path : string)
  : list string :=
  registeredFor (specSelect config path) path.

(** The names the plan brings to the ORM are plain and name one thing
    each. *)
Definition unambiguous (paths : list string) : Prop :=
  plainName rootAlias = true
  ∧ (∀ p, p ∈ paths → plainPath p = true)
  ∧ NoDup (rootAlias :: map (Str.replaceAll dot "_") paths).

(** [JoinQueryBuilder.build] *)
Definition JoinQueryBuilder_build (config : RelationOptions) (st : State)
  : Result State :=
  let joinConfig := parseJoinConfig config in
  setJoins joinConfig (sortedRelations joinConfig) st.

(** ** FindQueryBuilder (find-query-builder.ts) *)

Record IFindManyOptions : Type := {
  opt_relations : option RelationOptions;
  opt_skip : option Z;
  opt_take : option Z;
  opt_order : option (list (string * OrderDirectionEnum));
  opt_where : option JsValue;
  opt_select : option (list string);
  opt_onlyDeleted : option bool;
  opt_withDeleted : option bool;
}.

(** The same options with another [onlyDeleted]. *)
Definition withOnlyDeleted (flag : option bool) (o : IFindManyOptions)
  : IFindManyOptions :=
  {| opt_relations := opt_relations o; opt_skip := opt_skip o;
     opt_take := opt_take o; opt_order := opt_order o;
     opt_where := opt_where o; opt_select := opt_select o;
     opt_onlyDeleted := flag; opt_withDeleted := opt_withDeleted o |}.

(** [if (options.relations)]: only the empty string is falsy. *)
Definition relationsTruthy (r : RelationOptions) : bool :=
  match r with
  | RelationName name => negb (Str.isEmpty name)
  | _ => true
  end.

Definition flagSet (b : option bool) : bool :=
  match b with Some true => true | _ => false end.

(** [buildSelect] *)
Fixpoint fieldsWithAliases (fields : list string) (st : State)
  : Result (list string * State) :=
  match fields with
  | [] => Ok ([], st)
  | field :: rest =>
      let* (fieldWithAlias, st1) := getFieldWithAlias field false st in
      let* (others, st2) := fieldsWithAliases rest st1 in
      Ok (fieldWithAlias :: others, st2)
  end.

Fixpoint selectEntityColumns (cols : list string) (st : State) : Result State :=
  match cols with
  | [] => Ok st
  | col :: rest =>
      let* (field, st1) := getFieldWithAlias col false st in
      selectEntityColumns rest (selectedFieldsAdd field st1)
  end.

Definition buildSelect (select_ : option (list string)) (st : State)
  : Result State :=
  match select_ with
  | None | Some [] => selectEntityColumns entityColumns st
  | Some fields =>
      let* (fs, st1) := fieldsWithAliases fields st in
      Ok (addSelected fs st1)
  end.

(** [buildOrder] *)
Fixpoint buildOrder (order : list (string * OrderDirectionEnum)) (st : State)
  : Result State :=
  match order with
  | [] => Ok st
  | (key, direction) :: rest =>
      let* (field, st1) := getFieldWithAlias key false st in
      let field' := cleanFieldName field in
      buildOrder rest (setBuilder (addOrderBy field' direction (builder st1)) st1)
  end.

(** The soft-delete part of [build]: the find options and, for
    [onlyDeleted] on an entity with a delete-date column, the predicate. *)
Definition applyFindOptions (options : IFindManyOptions) (st : State) : State :=
  let withDeleted1 := if flagSet (opt_withDeleted options) then Some true else None in
  let '(withDeleted2, st1) :=
    match flagSet (opt_onlyDeleted options), deleteDateColumn (metadata repo) with
    | true, Some deleteColumn =>
        (Some true,
         setBuilder
           (andWhere (alias (builder st) +:+ "." +:+ propertyName deleteColumn
                        +:+ " IS NOT NULL") ∅ (builder st)) st)
    | _, _ => (withDeleted1, st)
    end in
  let findOptions_ :=
    {| fo_take := opt_take options; fo_skip := opt_skip options;
       fo_withDeleted := withDeleted2 |} in
  setBuilder (setFindOptions findOptions_ (builder st1)) st1.

Definition applyOptions (options : IFindManyOptions) (st : State)
  : Result State :=
  let st1 := applyFindOptions options st in
  let* st2 := buildSelect (opt_select options) st1 in
  let* st3 :=
    match opt_relations options with
    | Some r => if relationsTruthy r then JoinQueryBuilder_build r st2 else Ok st2
    | None => Ok st2
    end in
  let* st4 :=
    match opt_where options with
    | Some w => if truthy w then WhereQueryBuilder_build w st3 else Ok st3
    | None => Ok st3
    end in
  match opt_order options with
  | Some order => buildOrder order st4
  | None => Ok st4
  end.

(** The predicate that [onlyDeleted] puts on the query: on an entity with a
    delete-date column, that the column is set. *)
Definition onlyDeletedClauses (options : IFindManyOptions) (st : State)
  : list (string * gmap string JsValue) :=
  match flagSet (opt_onlyDeleted options), deleteDateColumn (metadata repo) with
  | true, Some deleteColumn =>
      [(alias (builder st) +:+ "." +:+ propertyName deleteColumn
          +:+ " IS NOT NULL", ∅)]
  | _, _ => []
  end.

(** Do the find options ask for soft-deleted rows? *)
Definition includesDeleted (options : IFindManyOptions) : bool :=
  flagSet (opt_withDeleted options)
  || flagSet (opt_onlyDeleted options)
     && bool_decide (is_Some (deleteDateColumn (metadata repo))).

(** [FindQueryBuilder.build] *)
Definition FindQueryBuilder_build (options : option IFindManyOptions)
    (st : State) : Result State :=
  let* st1 :=
    match options with
    | Some o => applyOptions o st
    | None => Ok st
    end in
  let cleanFields := map cleanFieldName (selectedFields st1) in
  Ok (setBuilder (select cleanFields (builder st1)) st1).

End QueryCompiler.

(** ** RelationBuilder (nest-crud-request, relation-builder.ts)

    The builder a client assembles the [relations] of a request with; its
    state is its field [relations]. *)

(** The property key a relation option is turned into when it is used as
    one: a string is itself, an object is [[object Object]], an array is its
    elements, converted likewise, joined with commas. *)
Fixpoint relationKey (relation : RelationOptions) : string :=
  match relation with
  | RelationName name => name
  | RelationList items => Str.join "," (map relationKey items)
  | RelationMap _ => "[object Object]"
  end.

(** [add]: an array is truthy whatever it holds. *)
Definition RelationBuilder_add (relation : string)
    (select_ : option (list string)) (where_ : option JsValue)
    (relations_ : RelationObject) : RelationObject :=
  let whereGiven := match where_ with Some w => truthy w | None => false end in
  match select_, whereGiven with
  | None, false => objectSet relation (RelationFlag true) relations_
  | _, _ =>
      objectSet relation
        (RelationValue {| rov_select := select_;
                          rov_where := if whereGiven then where_ else None;
                          rov_joinType := None |})
        relations_
  end.

(** [setRelations] *)
Definition RelationBuilder_setRelations (relations_ : RelationOptions)
    (this : RelationObject) : RelationObject :=
  if relationsTruthy relations_ then
    match relations_ with
    | RelationList items =>
        fold_left
          (fun rels relation =>
             RelationBuilder_add (relationKey relation) None None rels)
          items this
    | RelationName name => RelationBuilder_add name None None this
    | RelationMap object => object
    end
  else this.

(** [private relations: RelationObject = {}] of a new builder *)
Definition RelationBuilder_new : RelationObject := [].

Definition RelationBuilder_toObject (this : RelationObject) : RelationObject :=
  this.

(** The state of a freshly constructed [FindQueryBuilder]. *)
Definition newFindQueryBuilder (repo : Repository) : State :=
  {| builder := createQueryBuilder repo (targetName (metadata repo));
     selectedFields := [];
     entityRelationsHash := ∅;
     paramIndex := 0;
     paramsPrefix := "where_param_" |}.

(** ** A concrete connection: the entities of the test suite

    [User] has one [Profile] and many [Post]s; a [Profile] has many
    [ProfileAddress]es, each in a [Country].  The entities sit in the table
    in the order [User; Profile; ProfileAddress; Country; Post]. *)

Module Fixture.

Definition column (name : string) : ColumnMetadata :=
  {| propertyName := name; propertyPath := name; databasePath := name;
     isPrimary := false; isDeleteDate := false; embeddedMetadata := false |}.

Definition primaryColumn (name : string) : ColumnMetadata :=
  {| propertyName := name; propertyPath := name; databasePath := name;
     isPrimary := true; isDeleteDate := false; embeddedMetadata := false |}.

Definition deleteColumn (name : string) : ColumnMetadata :=
  {| propertyName := name; propertyPath := name; databasePath := name;
     isPrimary := false; isDeleteDate := true; embeddedMetadata := false |}.

Definition relation (name : string) (target : nat) : RelationMetadata :=
  {| relationPropertyName := name; inverseEntity := target |}.

Definition User : EntityMetadata :=
  {| targetName := "User";
     columns := [primaryColumn "id"; column "name"; column "email";
                 column "status"; deleteColumn "deletedAt"];
     primaryColumns := [primaryColumn "id"];
     relations := [relation "profile" 1; relation "posts" 4];
     deleteDateColumn := Some (deleteColumn "deletedAt") |}.

Definition Profile : EntityMetadata :=
  {| targetName := "Profile";
     columns := [primaryColumn "id"; column "age"; column "bio";
                 column "verified"];
     primaryColumns := [primaryColumn "id"];
     relations := [relation "user" 0; relation "addresses" 2];
     deleteDateColumn := None |}.

Definition ProfileAddress : EntityMetadata :=
  {| targetName := "ProfileAddress";
     columns := [primaryColumn "id"; column "street"; column "city";
                 column "state"; column "postalCode"];
     primaryColumns := [primaryColumn "id"];
     relations := [relation "profile" 1; relation "country" 3];
     deleteDateColumn := None |}.

Definition Country : EntityMetadata :=
  {| targetName := "Country";
     columns := [primaryColumn "id"; column "name"; column "code"];
     primaryColumns := [primaryColumn "id"];
     relations := [relation "addresses" 2];
     deleteDateColumn := None |}.

Definition Post : EntityMetadata :=
  {| targetName := "Post";
     columns := [primaryColumn "id"; column "title"; column "content"];
     primaryColumns := [primaryColumn "id"];
     relations := [relation "user" 0];
     deleteDateColumn := None |}.

Definition entities : list EntityMetadata :=
  [User; Profile; ProfileAddress; Country; Post].

(** The [User] repository on a connection of the given type. *)
Definition userRepository (type : string) : Repository :=
  {| entityMetadatas := entities; metadata := User; connectionType := type |}.

(** The [Profile] repository: an entity without a delete-date column. *)
Definition profileRepository (type : string) : Repository :=
  {| entityMetadatas := entities; metadata := Profile; connectionType := type |}.

(** Modelled from the spec: [normalizeColumnName] of [../utils] is not among
    the sources.  Section 4.1 has the resolver quote the alias and the final
    column segment with the identifier quote of the dialect, and the tests
    expect ["user"."status"]: every dot-separated segment is wrapped in the
    quote.  An [undefined] name has no segments to split. *)
Definition normalizeColumnName (name : option string) (quote : string)
  : Result string :=
  match name with
  | Some n =>
      Ok (Str.join "." (map (fun seg => quote +:+ seg +:+ quote)
                            (Str.split dot n)))
  | None => Throw TypeError
  end.

(** Modelled from the spec: [isArrayFull] of [../utils] is not among the
    sources.  Section 4.3 distinguishes a configuration that specifies an
    explicit select list from one that gives none: an array with at least
    one element. *)
Definition isArrayFull (val : option (list string)) : bool :=
  match val with
  | Some (_ :: _) => true
  | _ => false
  end.

(** Sample values for the enum members whose values are declared only in
    [../types]; the other members do not use this table. *)
Definition extraOperatorValue (o : WhereOperatorEnum) : string :=
  match o with
  | STARTS_WITH => "$startsWith"
  | ENDS_WITH => "$endsWith"
  | ISTARTS_WITH => "$iStartsWith"
  | IENDS_WITH => "$iEndsWith"
  | IN_L => "$inL"
  | NOT_IN_L => "$notInL"
  | CONT_ARR => "$contArr"
  | INTERSECTS_ARR => "$intersectsArr"
  | _ => ""
  end.

(** The same builder on a MySQL connection, where the identifier quote is the
    backtick. *)
Definition mysqlState : State := newFindQueryBuilder (userRepository "mysql").

(** A fresh builder for [Profile], an entity without a delete-date column. *)
Definition profileState : State := newFindQueryBuilder (profileRepository "mysql").

(** The translators on the test connection. *)
Definition compile : JsValue -> State -> Result (Compiled * State) :=
  buildWhereQueryAndParams normalizeColumnName (userRepository "mysql") "User"
    extraOperatorValue.

Definition plan : RelationOptions -> State -> Result State :=
  JoinQueryBuilder_build isArrayFull (userRepository "mysql") "User".

Definition build : option IFindManyOptions -> State -> Result State :=
  FindQueryBuilder_build normalizeColumnName isArrayFull
    (userRepository "mysql") "User" extraOperatorValue.

Definition noOptions : IFindManyOptions :=
  {| opt_relations := None; opt_skip := None; opt_take := None;
     opt_order := None; opt_where := None; opt_select := None;
     opt_onlyDeleted := None; opt_withDeleted := None |}.

Definition selecting (fields : list string) : RelationConfig :=
  RelationValue {| rov_select := Some fields; rov_where := None;
                   rov_joinType := None |}.

(** Users named like John with their profile, ordered by age. *)
Definition johnsWithProfile : IFindManyOptions :=
  {| opt_relations := Some (RelationList [RelationName "profile"]);
     opt_skip := None; opt_take := Some 5%Z;
     opt_order := Some [("profile.age", ASC)];
     opt_where := Some (JObj [("name", JObj [("$like", JStr "%John%")])]);
     opt_select := Some ["name"; "email"];
     opt_onlyDeleted := None; opt_withDeleted := None |}.

(** A range written as two comparisons on one field, next to a BETWEEN on
    the same field and a null test. *)
Definition ageRanges : JsValue :=
  JObj [("$and",
         JArr [JObj [("age", JObj [("$gte", JNum 18); ("$lte", JNum 65)])];
               JObj [("age", JObj [("$between", JArr [JNum 18; JNum 65])])];
               JObj [("age", JObj [("$gte", JNum 21)])]])].

Definition activeOnly : JsValue := JObj [("status", JStr "active")].

Definition deletedIsNull : JsValue :=
  JObj [("deletedAt", JObj [("$isNull", JBool true)])].

(** The soft-deleted active users, ten at most. *)
Definition deletedActive : IFindManyOptions :=
  {| opt_relations := None; opt_skip := None; opt_take := Some 10%Z;
     opt_order := None; opt_where := Some activeOnly; opt_select := None;
     opt_onlyDeleted := Some true; opt_withDeleted := None |}.

Definition innerSelecting (fields : list string) : RelationConfig :=
  RelationValue {| rov_select := Some fields; rov_where := None;
                   rov_joinType := Some JoinInner |}.

(** The posts by name, and the countries of the addresses of the profile
    by inner joins of [profile] and of the country. *)
Definition postsAndCountries : RelationOptions :=
  RelationList
    [RelationName "posts";
     RelationMap [("profile.addresses.country", innerSelecting ["name"]);
                  ("profile", innerSelecting ["age"; "shoeSize"])]].

End Fixture.

(** * Properties *)

(** ** Strings *)

Lemma append_nil_l (t : string) : "" +:+ t = t.
Proof. reflexivity. Qed.

Lemma append_cons c (s t : string) : String c s +:+ t = String c (s +:+ t).
Proof. reflexivity. Qed.

Lemma append_assoc (s t u : string) : (s +:+ t) +:+ u = s +:+ (t +:+ u).
Proof.
  induction s as [|c s IH]; [done|]. rewrite !append_cons. by rewrite IH.
Qed.

Lemma append_nil_r (s : string) : s +:+ "" = s.
Proof. induction s as [|c s IH]; [done|]. rewrite append_cons. by rewrite IH. Qed.

Lemma split_not_nil sep s : Str.split sep s ≠ [].
Proof.
  destruct s as [|c rest]; simpl; [done|].
  destruct (Str.split sep rest); [done|]. by destruct (Ascii.eqb c sep).
Qed.

Lemma split_segments_clean sep s :
  Forall (fun seg => Str.occurs sep seg = false) (Str.split sep s).
Proof.
  induction s as [|c rest IH]; simpl.
  - by repeat constructor.
  - destruct (Str.split sep rest) as [|seg segs] eqn:E.
    + by destruct (split_not_nil sep rest).
    + apply Forall_cons in IH as [Hseg Hsegs].
      destruct (Ascii.eqb c sep) eqn:Hc.
      * by repeat constructor.
      * constructor; [|done]. simpl. by rewrite Hc.
Qed.

Lemma split_clean sep s :
  Str.occurs sep s = false → Str.split sep s = [s].
Proof.
  induction s as [|c rest IH]; simpl; [done|].
  intros [Hc Hrest]%orb_false_elim. by rewrite (IH Hrest), Hc.
Qed.

Lemma split_clean_app sep seg s :
  Str.occurs sep seg = false →
  Str.split sep (seg +:+ String sep s) = seg :: Str.split sep s.
Proof.
  induction seg as [|c rest IH].
  - intros _. rewrite append_nil_l. simpl.
    destruct (Str.split sep s) eqn:E.
    + by destruct (split_not_nil sep s).
    + by rewrite Ascii.eqb_refl.
  - simpl. intros [Hc Hrest]%orb_false_elim. by rewrite (IH Hrest), Hc.
Qed.

Lemma join_cons2 sep seg seg' rest :
  Str.join sep (seg :: seg' :: rest) = seg +:+ sep +:+ Str.join sep (seg' :: rest).
Proof. reflexivity. Qed.

(** [parts.join(sep).split(sep)] gives the parts back when none of them
    contains the separator. *)
Lemma split_join sep parts :
  parts ≠ [] →
  Forall (fun seg => Str.occurs sep seg = false) parts →
  Str.split sep (Str.join (String sep "") parts) = parts.
Proof.
  induction parts as [|seg rest IH]; [done|]. intros _ Hall.
  apply Forall_cons in Hall as [Hseg Hrest].
  destruct rest as [|seg' rest'].
  - simpl. by apply split_clean.
  - rewrite join_cons2, append_cons, append_nil_l.
    rewrite split_clean_app by done. f_equal. by apply IH.
Qed.

(** [s.split(sep).join(sep)] is [s]. *)
Lemma join_split sep s :
  Str.join (String sep "") (Str.split sep s) = s.
Proof.
  induction s as [|c rest IH]; [done|]. simpl.
  destruct (Str.split sep rest) as [|seg segs] eqn:E.
  - by destruct (split_not_nil sep rest).
  - destruct (Ascii.eqb c sep) eqn:Hc.
    + apply Ascii.eqb_eq in Hc as ->.
      rewrite join_cons2, append_nil_l, append_cons, append_nil_l.
      by rewrite IH.
    + destruct segs as [|seg' segs].
      * simpl in *. by rewrite IH.
      * rewrite join_cons2 in *. rewrite append_cons. by rewrite IH.
Qed.

Lemma replaceAll_removes c s : Str.occurs c (Str.replaceAll c "" s) = false.
Proof.
  induction s as [|x rest IH]; simpl; [done|].
  destruct (Ascii.eqb x c) eqn:E; simpl; [done|]. by rewrite E.
Qed.

Lemma isEmpty_app_r s t : Str.isEmpty t = false → Str.isEmpty (s +:+ t) = false.
Proof. by destruct s, t. Qed.

Lemma isEmpty_app_l s t : Str.isEmpty s = false → Str.isEmpty (s +:+ t) = false.
Proof. by destruct s. Qed.

(** ** The orchestrator and the empty filter *)

Section Properties.

Context (normalizeColumnName : option string -> string -> Result string)
        (isArrayFull : option (list string) -> bool)
        (repo : Repository) (rootAlias : string)
        (extraOperatorValue : WhereOperatorEnum -> string).

Local Notation getFieldWithAlias' :=
  (getFieldWithAlias normalizeColumnName repo rootAlias).
Local Notation parse' :=
  (parseWhereObjectToQueryAndParams repo extraOperatorValue).
Local Notation compile' :=
  (buildWhereQueryAndParams normalizeColumnName repo rootAlias extraOperatorValue).
Local Notation whereBuild' :=
  (WhereQueryBuilder_build normalizeColumnName repo rootAlias extraOperatorValue).
Local Notation setJoin' := (setJoin isArrayFull repo rootAlias).
Local Notation setJoins' := (setJoins isArrayFull repo rootAlias).
Local Notation joinBuild' := (JoinQueryBuilder_build isArrayFull repo rootAlias).
Local Notation findBuild' :=
  (FindQueryBuilder_build normalizeColumnName isArrayFull repo rootAlias
     extraOperatorValue).

Lemma cleanFieldName_unquoted fieldName :
  Str.occurs (getIdentifierQuoteChar repo) (cleanFieldName repo fieldName) = false.
Proof. apply replaceAll_removes. Qed.

(** C10.  Whatever the options, every entry of the column list that [build]
    hands to [select] is free of the identifier quote of the dialect: the
    backtick for MySQL and MariaDB, the double quote for every other
    connection type. *)
Theorem build_selects_unquoted options st st' :
  findBuild' options st = Ok st' →
  Forall (fun field => Str.occurs (getIdentifierQuoteChar repo) field = false)
         (selects (builder st'))
  ∧ (connectionType repo ∈ ["mysql"; "mariadb"] →
     Forall (fun field => Str.occurs backtick field = false)
            (selects (builder st')))
  ∧ (connectionType repo ∉ ["mysql"; "mariadb"] →
     Forall (fun field => Str.occurs dquote field = false)
            (selects (builder st'))).
Proof.
  unfold FindQueryBuilder_build. intros Hbuild.
  destruct (match options with Some o => _ | None => _ end) as [st1|e];
    simpl in Hbuild; [|done].
  injection Hbuild as <-. simpl.
  assert (Forall (fun field => Str.occurs (getIdentifierQuoteChar repo) field = false)
            (map (cleanFieldName repo) (selectedFields st1))) as Hall.
  { apply Forall_map, Forall_forall. intros f _. apply cleanFieldName_unquoted. }
  split; [done|]. unfold getIdentifierQuoteChar, dbType in Hall.
  split; intros Htype; by rewrite ?(bool_decide_eq_true_2 _ Htype),
    ?(bool_decide_eq_false_2 _ Htype) in Hall.
Qed.

(** C9.  On an entity without a delete-date column, [onlyDeleted: true]
    with [withDeleted] absent does nothing: the find options carry no
    [withDeleted], no predicate is appended, and the whole build gives what
    it gives without [onlyDeleted]. *)
Theorem onlyDeleted_without_delete_column options st :
  deleteDateColumn (metadata repo) = None →
  opt_withDeleted options = None →
  let only := withOnlyDeleted (Some true) options in
  let plain := withOnlyDeleted None options in
  (fo_withDeleted <$> findOptions (builder (applyFindOptions repo only st)))
    = Some None
  ∧ wheres (builder (applyFindOptions repo only st)) = wheres (builder st)
  ∧ applyFindOptions repo only st = applyFindOptions repo plain st
  ∧ findBuild' (Some only) st = findBuild' (Some plain) st.
Proof.
  intros Hcol Hwith only plain.
  assert (applyFindOptions repo only st = applyFindOptions repo plain st) as Heq.
  { unfold applyFindOptions. by rewrite Hcol. }
  split_and!; [| |done|].
  - unfold applyFindOptions. rewrite Hcol. simpl. by rewrite Hwith.
  - unfold applyFindOptions. by rewrite Hcol.
  - unfold FindQueryBuilder_build, applyOptions. by rewrite Heq.
Qed.

(** C4.  An absent filter, the empty object and the empty array compile to
    the empty fragment with no parameters, and applying them leaves the
    whole state, the builder's WHERE clauses included, as it was. *)
Theorem empty_filter_identity st :
  Forall (fun filter =>
            buildWhereQueryAndParams normalizeColumnName repo rootAlias
              extraOperatorValue filter st = Ok (noCondition, st)
            ∧ WhereQueryBuilder_build normalizeColumnName repo rootAlias
                extraOperatorValue filter st = Ok st)
         [JUndefined; JObj []; JArr []]
  ∧ noCondition = ("", ∅).
Proof.
  split; [|reflexivity].
  repeat (apply Forall_cons; split; [by split|]). apply Forall_nil_2.
Qed.

(** ** Operators *)

Lemma find_by_value {A} (f : A → string) (l : list A) (o : A) :
  NoDup (map f l) → o ∈ l →
  find (fun x => bool_decide (f x = f o)) l = Some o.
Proof.
  induction l as [|x l IH]; simpl; [by intros _ ?%elem_of_nil|].
  intros [Hx Hl]%NoDup_cons [->|Ho]%elem_of_cons.
  - by rewrite bool_decide_eq_true_2.
  - rewrite bool_decide_eq_false_2; [by apply IH|].
    intros Heq. apply Hx. rewrite Heq. by apply list_elem_of_fmap_2.
Qed.

Lemma switchOperator_value o :
  distinctOperatorValues extraOperatorValue →
  switchOperator extraOperatorValue (operatorValue extraOperatorValue o) = Some o.
Proof.
  intros Hdistinct. apply find_by_value; [done|].
  unfold switchCases. destruct o; set_solver.
Qed.

(** C2.  For a field (any key but the two group markers) whose column
    resolves to [column], [{field: {$in: []}}] compiles to exactly [1 = 0]
    with no parameters, while [{field: {$notIn: []}}] compiles to
    [column NOT IN (:...p)] with the empty array bound to [p]. *)
Theorem empty_in_and_empty_notIn field column st st1 :
  distinctOperatorValues extraOperatorValue →
  isLogicalKey field = false →
  getFieldWithAlias' field false st = Ok (column, st1) →
  let p := paramsPrefix st1 +:+ pretty (paramIndex st1) in
  let st2 := setParamIndex (S (paramIndex st1)) st1 in
  compile' (JObj [(field, JObj [("$in", JArr [])])]) st
    = Ok (("1 = 0", ∅), st2)
  ∧ compile' (JObj [(field, JObj [("$notIn", JArr [])])]) st
    = Ok ((column +:+ " NOT IN (:..." +:+ p +:+ ")", {[ p := JArr [] ]}), st2).
Proof.
  intros Hdistinct Hkey Hcol p st2.
  pose proof (switchOperator_value IN Hdistinct) as Hin.
  pose proof (switchOperator_value NOT_IN Hdistinct) as Hnotin.
  simpl in Hin, Hnotin.
  split; simpl; rewrite Hkey; simpl; rewrite Hcol; simpl;
    unfold parseWhereObjectToQueryAndParams, emitOperator;
    rewrite ?Hin, ?Hnotin; simpl.
  - done.
  - unfold pushCompiled. simpl.
    rewrite isEmpty_app_r by done. simpl.
    by rewrite (right_id_L ∅ (∪)).
Qed.

(** C7.  The array operators.  On a connection that is not PostgreSQL,
    array-contains and array-intersects with a non-empty array raise a
    [BadRequestException]; the case-insensitive [IN], array-contains and
    array-intersects raise one for a value that is no array; and the empty
    array makes array-contains and array-intersects compile to [1 = 0]
    without parameters, on every connection. *)
Theorem array_operators_guarded columnName st :
  distinctOperatorValues extraOperatorValue →
  let value_of := operatorValue extraOperatorValue in
  (∀ o x items,
      o ∈ [CONT_ARR; INTERSECTS_ARR] →
      connectionType repo ∉ ["postgres"; "postgresql"] →
      parse' columnName (JArr (x :: items)) (value_of o) st
      = Throw (BadRequestException
                 ("Operator " +:+ value_of o +:+ " is only supported for PostgreSQL")))
  ∧ (∀ o value,
      o ∈ [IN_L; CONT_ARR; INTERSECTS_ARR] →
      isArray value = false →
      parse' columnName value (value_of o) st
      = Throw (BadRequestException
                 ("Operator " +:+ value_of o +:+ " requires an array value")))
  ∧ (∀ o,
      o ∈ [CONT_ARR; INTERSECTS_ARR] →
      parse' columnName (JArr []) (value_of o) st
      = Ok (("1 = 0", ∅), setParamIndex (S (paramIndex st)) st)).
Proof.
  intros Hdistinct value_of. split_and!.
  - intros o x items Ho Hdb.
    assert (isPostgres repo = false) as Hpg.
    { unfold isPostgres, dbType. by apply bool_decide_eq_false_2. }
    unfold parseWhereObjectToQueryAndParams, emitOperator, value_of.
    rewrite switchOperator_value by done.
    apply elem_of_cons in Ho as [->|Ho]; [by rewrite Hpg|].
    apply list_elem_of_singleton in Ho as ->. by rewrite Hpg.
  - intros o value Ho Hval.
    unfold parseWhereObjectToQueryAndParams, emitOperator, value_of.
    rewrite switchOperator_value by done.
    repeat (apply elem_of_cons in Ho as [->|Ho]); [..|by apply elem_of_nil in Ho];
      by destruct value.
  - intros o Ho.
    unfold parseWhereObjectToQueryAndParams, emitOperator, value_of.
    rewrite switchOperator_value by done.
    repeat (apply elem_of_cons in Ho as [->|Ho]); [..|by apply elem_of_nil in Ho];
      done.
Qed.

(** ** Logical groups *)

Lemma compileSubs_each subs subParts params st :
  compileSubs compile' subs subParts params st
  = (let* (cs, st') := compileEach normalizeColumnName repo rootAlias
                         extraOperatorValue subs st in
     Ok (subParts ++ map (fun c => Str.paren (fst c)) (survivors cs),
         mergeParams (survivors cs) params, st')).
Proof.
  revert subParts params st.
  induction subs as [|sub rest IH]; intros subParts params st; simpl.
  - by rewrite app_nil_r.
  - destruct (compile' sub st) as [[c st1]|e]; simpl; [|done].
    destruct (Str.isEmpty (fst c)) eqn:Hempty; rewrite IH;
      destruct (compileEach _ _ _ _ rest st1) as [[cs st2]|e]; simpl; try done;
      unfold survivors; simpl; rewrite Hempty; simpl; [done|].
    by rewrite <-app_assoc.
Qed.

(** C8, as the code has it.  In an AND- or OR-group the elements that
    compile to the empty fragment are dropped together with their
    parameters; every surviving fragment is put in parentheses of its own,
    the parenthesised fragments are joined with the connective of the group,
    [ AND ] for an [$and] group and [ OR ] for an [$or] group, and the joined
    text gets one more pair of parentheses only when more than one fragment
    survived.  A single survivor [q] therefore comes out as [(q)], and a
    group without survivors as the empty fragment. *)
Theorem group_parenthesisation sub subs cs st st' :
  compileEach normalizeColumnName repo rootAlias extraOperatorValue
    (sub :: subs) st = Ok (cs, st') →
  let parts := map (fun c => "(" +:+ fst c +:+ ")") (survivors cs) in
  buildWhereQueryAndParams normalizeColumnName repo rootAlias extraOperatorValue
    (JObj [("$and", JArr (sub :: subs))]) st
  = Ok ((match parts with
         | [] => ""
         | [part] => part
         | _ => "(" +:+ Str.join " AND " parts +:+ ")"
         end,
         mergeParams (survivors cs) ∅), st')
  ∧ buildWhereQueryAndParams normalizeColumnName repo rootAlias
      extraOperatorValue (JObj [("$or", JArr (sub :: subs))]) st
    = Ok ((match parts with
           | [] => ""
           | [part] => part
           | _ => "(" +:+ Str.join " OR " parts +:+ ")"
           end,
           mergeParams (survivors cs) ∅), st').
Proof.
  intros Heach parts.
  split;
    cbn [buildWhereQueryAndParams truthy negb entries compileEntries];
    match goal with
    | |- context [isLogicalKey ?key] =>
        change (isLogicalKey key) with true; cbn iota
    end;
    rewrite compileSubs_each, Heach; cbn [bindR app];
    change (map (fun c => Str.paren (fst c)) (survivors cs)) with parts;
    by destruct parts as [|part [|part' parts']].
Qed.

(** ** The closure of relation paths and its order *)

Lemma setAdd_elem x y s : x ∈ setAdd y s ↔ x ∈ s ∨ x = y.
Proof.
  unfold setAdd. case_bool_decide.
  - split; [by left|]. by intros [?| ->].
  - rewrite elem_of_app, list_elem_of_singleton. tauto.
Qed.

Lemma setAdd_NoDup y s : NoDup s → NoDup (setAdd y s).
Proof.
  unfold setAdd. case_bool_decide; [done|]. intros Hs.
  apply NoDup_app. split_and!; [done| |apply NoDup_singleton].
  intros x Hx ->%list_elem_of_singleton. done.
Qed.

Lemma fold_setAdd_elem x l s :
  x ∈ fold_left (fun all p => setAdd p all) l s ↔ x ∈ s ∨ x ∈ l.
Proof.
  revert s. induction l as [|y l IH]; intros s; simpl.
  - rewrite elem_of_nil. tauto.
  - rewrite IH, setAdd_elem, elem_of_cons. tauto.
Qed.

Lemma fold_setAdd_NoDup l s :
  NoDup s → NoDup (fold_left (fun all p => setAdd p all) l s).
Proof.
  revert s. induction l as [|y l IH]; intros s Hs; simpl; [done|].
  by apply IH, setAdd_NoDup.
Qed.

Lemma parentPaths_elem p segments :
  p ∈ parentPaths segments ↔
  ∃ i, 1 ≤ i ≤ length segments ∧ p = Str.join "." (take i segments).
Proof.
  unfold parentPaths. rewrite list_elem_of_fmap. split.
  - intros (i & -> & Hi). exists i. split; [|done].
    apply elem_of_seq in Hi. lia.
  - intros (i & Hi & ->). exists i. split; [done|]. apply elem_of_seq. lia.
Qed.

Lemma closureFrom_elem p joinConfig init :
  p ∈ closureFrom joinConfig init ↔
  p ∈ init ∨ ∃ key, key ∈ map fst joinConfig
                    ∧ p ∈ parentPaths (Str.split dot key).
Proof.
  revert init. induction joinConfig as [|kv rest IH]; intros init; simpl.
  - split; [by left|]. intros [?|(key & Hkey & _)]; [done|].
    by apply elem_of_nil in Hkey.
  - rewrite IH, fold_setAdd_elem. split.
    + intros [[?|?]|(key & Hkey & Hp)]; [by left| |].
      * right. exists (fst kv). split; [by left|done].
      * right. exists key. split; [by right|done].
    + intros [?|(key & [->|Hkey]%elem_of_cons & Hp)]; [by left; left| |].
      * by left; right.
      * right. by exists key.
Qed.

Lemma closureFrom_NoDup joinConfig init :
  NoDup init → NoDup (closureFrom joinConfig init).
Proof.
  revert init. induction joinConfig as [|kv rest IH]; intros init Hinit; simpl;
    [done|]. by apply IH, fold_setAdd_NoDup.
Qed.

Lemma collectAllNeededRelations_elem p joinConfig :
  p ∈ collectAllNeededRelations joinConfig ↔
  ∃ key i, key ∈ map fst joinConfig ∧ 1 ≤ i ≤ depth key
           ∧ p = Str.join "." (take i (Str.split dot key)).
Proof.
  unfold collectAllNeededRelations. rewrite closureFrom_elem. split.
  - intros [Hnil|(key & Hkey & Hp)]; [by apply elem_of_nil in Hnil|].
    apply parentPaths_elem in Hp as (i & Hi & ->). by exists key, i.
  - intros (key & i & Hkey & Hi & ->). right. exists key. split; [done|].
    apply parentPaths_elem. by exists i.
Qed.

Lemma insertByDepth_Permutation x l : insertByDepth x l ≡ₚ x :: l.
Proof.
  induction l as [|y l IH]; simpl; [done|].
  destruct (depth x <=? depth y)%nat; [done|].
  rewrite IH. apply Permutation_swap.
Qed.

Lemma sortByDepth_Permutation l : sortByDepth l ≡ₚ l.
Proof.
  induction l as [|x l IH]; simpl; [done|].
  by rewrite insertByDepth_Permutation, IH.
Qed.

Lemma insertByDepth_sorted x l :
  StronglySorted byDepth l → StronglySorted byDepth (insertByDepth x l).
Proof.
  induction l as [|y l IH]; simpl; intros Hl.
  - by repeat constructor.
  - apply StronglySorted_inv in Hl as [Hl Hy].
    destruct (depth x <=? depth y)%nat eqn:Hxy.
    + apply Nat.leb_le in Hxy. constructor; [by constructor|].
      constructor; [done|]. eapply Forall_impl; [exact Hy|].
      unfold byDepth. intros z Hz. simpl in Hz. lia.
    + apply Nat.leb_gt in Hxy. constructor; [by apply IH|].
      rewrite insertByDepth_Permutation. constructor; [|done].
      unfold byDepth. lia.
Qed.

Lemma sortByDepth_sorted l : StronglySorted byDepth (sortByDepth l).
Proof.
  induction l as [|x l IH]; simpl; [constructor|]. by apply insertByDepth_sorted.
Qed.

(** In a list sorted by depth, a shallower path stands before a deeper one. *)
Lemma sorted_before (l : list string) a b :
  StronglySorted byDepth l → a ∈ l → b ∈ l → depth a < depth b →
  ∃ l1 l2 l3, l = l1 ++ a :: l2 ++ b :: l3.
Proof.
  induction l as [|x l IH]; [by intros _ ?%elem_of_nil|].
  intros [Hl Hx]%StronglySorted_inv Ha Hb Hdepth.
  apply elem_of_cons in Ha as [->|Ha].
  - apply elem_of_cons in Hb as [->|Hb]; [lia|].
    apply list_elem_of_split in Hb as (l2 & l3 & ->). by exists [], l2, l3.
  - apply elem_of_cons in Hb as [->|Hb].
    + rewrite Forall_forall in Hx. specialize (Hx a Ha). unfold byDepth in Hx. lia.
    + destruct (IH Hl Ha Hb Hdepth) as (l1 & l2 & l3 & ->).
      by exists (x :: l1), l2, l3.
Qed.

(** The depth of the [i]-th ancestor of a path is [i]. *)
Lemma depth_parentPath key i :
  1 ≤ i ≤ depth key →
  Str.split dot (Str.join "." (take i (Str.split dot key)))
  = take i (Str.split dot key).
Proof.
  intros Hi. apply (split_join dot).
  - unfold depth in Hi. destruct (Str.split dot key), i; simpl in *; [lia..|done].
  - apply Forall_take, split_segments_clean.
Qed.

(** ** The resolver's cache and the joins *)

Lemma single_segment name seg :
  Str.split dot name = [seg] → seg = name ∧ Str.occurs dot name = false.
Proof.
  intros Hsplit. pose proof (join_split dot name) as Hjoin.
  pose proof (split_segments_clean dot name) as Hclean.
  rewrite Hsplit in Hjoin, Hclean. simpl in Hjoin. subst seg.
  by apply Forall_cons in Hclean as [? _].
Qed.

Lemma replaceAll_clean c by_ s :
  Str.occurs c s = false → Str.replaceAll c by_ s = s.
Proof.
  induction s as [|x rest IH]; simpl; [done|].
  intros [Hx Hrest]%orb_false_elim. by rewrite Hx, IH.
Qed.

Lemma depth_one name :
  depth name = 1 ↔ ∃ seg, Str.split dot name = [seg].
Proof.
  unfold depth. split.
  - destruct (Str.split dot name) as [|seg [|??]]; simpl; try done. by exists seg.
  - by intros (seg & ->).
Qed.

Lemma getRelationMetadata_frame field st :
  let st' := snd (getRelationMetadata repo rootAlias field st) in
  builder st' = builder st
  ∧ selectedFields st' = selectedFields st
  ∧ paramIndex st' = paramIndex st
  ∧ paramsPrefix st' = paramsPrefix st
  ∧ (∀ k, k ≠ field → entityRelationsHash st' !! k = entityRelationsHash st !! k).
Proof.
  unfold getRelationMetadata.
  destruct (match entityRelationsHash st !! field with
            | Some cached => Some cached
            | None => resolveRelation repo rootAlias field (entityRelationsHash st)
            end); simpl; [|done].
  split_and!; try done. intros k Hk. by rewrite lookup_insert_ne.
Qed.

Lemma getRelationMetadata_root_some name seg st :
  Str.split dot name = [seg] → rootRelationExists repo name = true →
  is_Some (fst (getRelationMetadata repo rootAlias name st)).
Proof.
  intros Hsplit Hroot. destruct (single_segment _ _ Hsplit) as [-> _].
  unfold getRelationMetadata, resolveRelation, rootRelationExists in *.
  destruct (entityRelationsHash st !! name); [by eexists|].
  rewrite Hsplit.
  destruct (findRelation _ name) as [found|]; [|done].
  apply bool_decide_eq_true in Hroot as [md ->]. by eexists.
Qed.

Lemma getRelationMetadata_root_none name seg st :
  Str.split dot name = [seg] → rootRelationExists repo name = false →
  entityRelationsHash st !! name = None →
  getRelationMetadata repo rootAlias name st = (None, st).
Proof.
  intros Hsplit Hroot Hcache. destruct (single_segment _ _ Hsplit) as [-> _].
  unfold getRelationMetadata, resolveRelation, rootRelationExists in *.
  rewrite Hcache, Hsplit.
  destruct (findRelation _ name) as [found|]; [|done].
  apply bool_decide_eq_false in Hroot.
  destruct (inverseEntityMetadata repo found) as [md|]; [|done].
  destruct Hroot. by eexists.
Qed.

Lemma addSelected_frame fields st :
  builder (addSelected fields st) = builder st
  ∧ entityRelationsHash (addSelected fields st) = entityRelationsHash st
  ∧ paramIndex (addSelected fields st) = paramIndex st
  ∧ paramsPrefix (addSelected fields st) = paramsPrefix st.
Proof.
  revert st. induction fields as [|f fields IH]; intros st; simpl; [done|].
  destruct (IH (selectedFieldsAdd f st)) as (-> & -> & -> & ->). done.
Qed.

(** A join that is accepted appends its call and its alias, and touches
    nothing else of the builder. *)
Lemma join_ok k property alias_ b b' :
  join_ repo k property alias_ b = Ok b' →
  alias b' = alias b ∧ wheres b' = wheres b
  ∧ findOptions b' = findOptions b ∧ selects b' = selects b
  ∧ orderBys b' = orderBys b
  ∧ joins b' = joins b ++ [ {| joinKind := k; joinProperty := property;
                               joinAlias := alias_ |} ]
  ∧ ∃ md, aliases b' = aliases b ++ [(alias_, md)].
Proof.
  unfold join_. destruct property as [entityOrProperty|]; [|done].
  destruct (isAliasProperty entityOrProperty).
  - destruct (findAliasByName _ _) as [[owner|]|]; [|done..].
    destruct (findRelationWithPropertyPath _ _) as [relation|]; [|done].
    destruct (inverseEntityMetadata repo relation) as [md|]; [|done].
    intros [= <-]. simpl. split_and!; try done. by eexists.
  - intros [= <-]. simpl. split_and!; try done. by eexists.
Qed.

(** One call of [setJoin] that returns has appended exactly one join, and
    has touched the cache at most at its own path. *)
Lemma setJoin_ok name options st st' :
  setJoin' name options st = Ok st' →
  (∃ property,
      joins (builder st')
      = joins (builder st)
        ++ [ {| joinKind := relationType options; joinProperty := property;
                joinAlias := Str.replaceAll dot "_" name |} ])
  ∧ (∀ k, k ≠ name → entityRelationsHash st' !! k = entityRelationsHash st !! k).
Proof.
  unfold setJoin.
  destruct (Str.split dot name) as [|seg [|seg' segs]] eqn:Hsplit.
  - by destruct (split_not_nil dot name).
  - pose proof (getRelationMetadata_frame name st) as (Hb & _ & _ & _ & Hc).
    destruct (getRelationMetadata repo rootAlias name st) as [[ar|] st1];
      simpl in *; [|done].
    destruct (join_ repo _ _ name (builder st1)) as [joined|] eqn:Hjoin;
      simpl; [|done].
    intros [= <-].
    match goal with
    | |- context [addSelected ?fields ?s] =>
        destruct (addSelected_frame fields s) as (-> & -> & _)
    end.
    apply join_ok in Hjoin as (_ & _ & _ & _ & _ & Hjoins & _).
    simpl. rewrite Hjoins, Hb. split; [|done]. exists (ar_path ar).
    destruct (single_segment _ _ Hsplit) as [_ Hclean].
    by rewrite (replaceAll_clean _ _ _ Hclean).
  - destruct (join_ repo _ _ _ (builder st)) as [joined|] eqn:Hjoin;
      simpl; [|done].
    apply join_ok in Hjoin as (_ & _ & _ & _ & _ & Hjoins & _).
    set (st1 := setBuilder joined st).
    pose proof (getRelationMetadata_frame name st1) as (Hb & _ & _ & _ & Hc).
    destruct (getRelationMetadata repo rootAlias name st1) as [[ar|] st2];
      simpl in *.
    + destruct (explicitSelect isArrayFull options) as [sel|]; intros [= <-];
        match goal with
        | |- context [addSelected ?fields ?s] =>
            destruct (addSelected_frame fields s) as (-> & -> & _)
        end;
        rewrite Hb, Hjoins; (split; [by eexists|done]).
    + intros [= <-]. rewrite Hb, Hjoins. split; [by eexists|done].
Qed.

Lemma setJoin_throws name options st :
  depth name = 1 → rootRelationExists repo name = false →
  entityRelationsHash st !! name = None →
  setJoin' name options st
  = Throw (Error ("Relation '" +:+ name +:+ "' not found")).
Proof.
  intros [seg Hsplit]%depth_one Hroot Hcache. unfold setJoin.
  by rewrite Hsplit, (getRelationMetadata_root_none name seg st).
Qed.

Lemma setJoin_cacheSound name options st st' :
  cacheSound repo st → setJoin' name options st = Ok st' → cacheSound repo st'.
Proof.
  intros Hsound Hjoin p Hdepth Hroot.
  destruct (decide (p = name)) as [->|Hne].
  - by rewrite (setJoin_throws name options st Hdepth Hroot (Hsound _ Hdepth Hroot))
      in Hjoin.
  - apply setJoin_ok in Hjoin as [_ Hcache]. rewrite Hcache by done.
    by apply Hsound.
Qed.

(** The states in which the orchestrator calls the planner are sound: a
    fresh helper has an empty cache, and resolving fields keeps it sound. *)
Lemma getRelationMetadata_cacheSound field st :
  cacheSound repo st →
  cacheSound repo (snd (getRelationMetadata repo rootAlias field st)).
Proof.
  intros Hsound p Hdepth Hroot.
  destruct (decide (p = field)) as [->|Hne].
  - pose proof Hdepth as [seg Hsplit]%depth_one.
    rewrite (getRelationMetadata_root_none field seg st); auto.
  - destruct (getRelationMetadata_frame field st) as (_ & _ & _ & _ & Hcache).
    rewrite Hcache by done. by apply Hsound.
Qed.

Lemma getFieldWithAlias_cacheSound field useDbField st column st1 :
  getFieldWithAlias' field useDbField st = Ok (column, st1) →
  cacheSound repo st → cacheSound repo st1.
Proof.
  unfold getFieldWithAlias. intros Hfield Hsound.
  pose proof (getRelationMetadata_cacheSound field st Hsound) as Hsound'.
  destruct (Str.split dot field) as [|seg [|seg' segs]].
  - destruct (getRelationMetadata repo rootAlias field st) as [[r|] st'];
      simpl in *; destruct (normalizeColumnName _ _); simpl in Hfield;
      try done; by injection Hfield as <- <-.
  - destruct useDbField; destruct (normalizeColumnName _ _); simpl in Hfield;
      try done; by injection Hfield as <- <-.
  - destruct (getRelationMetadata repo rootAlias field st) as [[r|] st'];
      simpl in *; destruct (normalizeColumnName _ _); simpl in Hfield;
      try done; by injection Hfield as <- <-.
Qed.

Lemma addSelected_cacheSound fields st :
  cacheSound repo st → cacheSound repo (addSelected fields st).
Proof.
  intros Hsound p Hdepth Hroot.
  destruct (addSelected_frame fields st) as (_ & -> & _). by apply Hsound.
Qed.

Lemma buildSelect_cacheSound select_ st st' :
  buildSelect normalizeColumnName repo rootAlias select_ st = Ok st' →
  cacheSound repo st → cacheSound repo st'.
Proof.
  assert (∀ cols st0 st0',
             selectEntityColumns normalizeColumnName repo rootAlias cols st0
             = Ok st0' → cacheSound repo st0 → cacheSound repo st0') as Hcols.
  { induction cols as [|col cols IH]; intros st0 st0' Hrun Hsound; simpl in Hrun.
    - by injection Hrun as <-.
    - destruct (getFieldWithAlias' col false st0) as [[field st1]|] eqn:Hfield;
        simpl in Hrun; [|done].
      apply (IH _ _ Hrun). apply (addSelected_cacheSound [field]).
      by eapply getFieldWithAlias_cacheSound. }
  assert (∀ fields st0 fs st0',
             fieldsWithAliases normalizeColumnName repo rootAlias fields st0
             = Ok (fs, st0') → cacheSound repo st0 → cacheSound repo st0')
    as Hfields.
  { induction fields as [|f fields IH]; intros st0 fs st0' Hrun Hsound;
      simpl in Hrun.
    - by injection Hrun as <- <-.
    - destruct (getFieldWithAlias' f false st0) as [[field st1]|] eqn:Hfield;
        simpl in Hrun; [|done].
      destruct (fieldsWithAliases _ _ _ fields st1) as [[others st2]|] eqn:Hrest;
        simpl in Hrun; [|done].
      injection Hrun as <- <-. apply (IH _ _ _ Hrest).
      by eapply getFieldWithAlias_cacheSound. }
  unfold buildSelect. destruct select_ as [[|f fields]|]; eauto.
  intros Hrun Hsound.
  destruct (fieldsWithAliases _ _ _ (f :: fields) st) as [[fs st1]|] eqn:Hfs;
    simpl in Hrun; [|done].
  injection Hrun as <-. apply addSelected_cacheSound. eauto.
Qed.

Lemma fresh_cache_sound : cacheSound repo (newFindQueryBuilder repo).
Proof. intros p _ _. apply lookup_empty. Qed.

(** [build] calls the planner after [buildSelect], from a fresh builder:
    in a sound state. *)
Lemma planner_state_sound options st2 :
  buildSelect normalizeColumnName repo rootAlias (opt_select options)
    (applyFindOptions repo options (newFindQueryBuilder repo)) = Ok st2 →
  cacheSound repo st2.
Proof.
  intros Hselect. apply (buildSelect_cacheSound _ _ _ Hselect).
  intros p Hdepth Hroot. unfold applyFindOptions.
  destruct (flagSet (opt_onlyDeleted options)),
    (deleteDateColumn (metadata repo)); apply lookup_empty.
Qed.

Lemma sortedRelations_elem p joinConfig :
  p ∈ sortedRelations joinConfig ↔
  ∃ key i, key ∈ map fst joinConfig ∧ 1 ≤ i ≤ depth key
           ∧ p = Str.join "." (take i (Str.split dot key)).
Proof.
  unfold sortedRelations. rewrite sortByDepth_Permutation.
  apply collectAllNeededRelations_elem.
Qed.

Lemma sortedRelations_NoDup joinConfig : NoDup (sortedRelations joinConfig).
Proof.
  unfold sortedRelations. rewrite sortByDepth_Permutation.
  apply closureFrom_NoDup, NoDup_nil_2.
Qed.

(** Every ancestor of a planned path is planned, and stands before it. *)
Lemma sortedRelations_parent_first joinConfig child i :
  child ∈ sortedRelations joinConfig → 1 ≤ i < depth child →
  ∃ l1 l2 l3,
    sortedRelations joinConfig
    = l1 ++ Str.join "." (take i (Str.split dot child)) :: l2 ++ child :: l3.
Proof.
  intros Hchild Hi.
  pose proof Hchild as (key & j & Hkey & Hj & Heq)%sortedRelations_elem.
  assert (Str.split dot child = take j (Str.split dot key)) as Hsplit.
  { rewrite Heq. by apply depth_parentPath. }
  assert (depth child = j) as Hdepth.
  { unfold depth in *. rewrite Hsplit, length_take. lia. }
  set (parent := Str.join "." (take i (Str.split dot child))).
  assert (parent = Str.join "." (take i (Str.split dot key))) as Hparent.
  { unfold parent. rewrite Hsplit, take_take. f_equal. f_equal. lia. }
  apply sorted_before; [apply sortByDepth_sorted| |done|].
  - apply sortedRelations_elem. exists key, i. split_and!; [done|lia|lia|done].
  - rewrite Hparent. unfold depth at 1. rewrite depth_parentPath by lia.
    rewrite length_take. unfold depth in *. lia.
Qed.

(** ** Parameter names *)

(** A decimal numeral holds digits only. *)
Lemma pretty_N_go_clean c x s :
  (∀ d, Ascii.eqb (pretty_N_char d) c = false) →
  Str.occurs c s = false →
  Str.occurs c (pretty_N_go x s) = false.
Proof.
  intros Hc. revert s. induction (N.lt_wf_0 x) as [x _ IH]; intros s Hs.
  destruct (decide (x = 0)%N) as [->|Hx].
  - by rewrite pretty_N_go_0.
  - rewrite pretty_N_go_step by lia. apply IH.
    + apply N.div_lt; lia.
    + simpl. by rewrite Hs, Hc.
Qed.

Lemma pretty_nat_clean c (n : nat) :
  (∀ d, Ascii.eqb (pretty_N_char d) c = false) →
  Str.occurs c (pretty n) = false.
Proof.
  intros Hc. unfold pretty, pretty_nat, pretty, pretty_N. case_decide.
  - simpl. specialize (Hc 0%N). simpl in Hc. by rewrite Hc.
  - by apply pretty_N_go_clean.
Qed.

Lemma underscore_no_digit d : Ascii.eqb (pretty_N_char d) underscore = false.
Proof. unfold pretty_N_char. by repeat case_match. Qed.

Lemma dollar_no_digit d : Ascii.eqb (pretty_N_char d) "$"%char = false.
Proof. unfold pretty_N_char. by repeat case_match. Qed.

(** An index is never a group marker. *)
Lemma index_not_logical (i : nat) : isLogicalKey (pretty i) = false.
Proof.
  pose proof (pretty_nat_clean "$"%char i dollar_no_digit) as Hclean.
  unfold isLogicalKey. apply orb_false_intro; apply bool_decide_eq_false_2;
    intros Heq; by rewrite Heq in Hclean.
Qed.

(** The entries of an array or of a string never reach the recursive call
    of the compiler. *)
Lemma compileEntries_indexed recur1 recur2 i items queryParts params st :
  compileEntries normalizeColumnName repo rootAlias extraOperatorValue recur1
    (indexedFrom i items) queryParts params st
  = compileEntries normalizeColumnName repo rootAlias extraOperatorValue recur2
      (indexedFrom i items) queryParts params st.
Proof.
  revert i queryParts params st.
  induction items as [|x items IH]; intros i queryParts params st; [done|].
  cbn [indexedFrom compileEntries]. rewrite index_not_logical.
  destruct x; try (destruct (getFieldWithAlias' _ _ _) as [[column st1]|];
                   cbn [bindR]; [|done];
                   destruct (parse' _ _ _ _) as [[c st2]|]; cbn [bindR]; [|done];
                   destruct (pushCompiled _ _ _); apply IH).
  destruct (compileOperators _ _ _ _ _ _ _ _ _) as [[[qp ps] st1]|];
    cbn [bindR]; [|done]. apply IH.
Qed.

(** A string without the character [c], followed by nothing or by
    something that starts with [c], determines both parts. *)
Lemma clean_prefix_unique c a b s t :
  Str.occurs c a = false → Str.occurs c b = false →
  (s = "" ∨ ∃ s', s = String c s') → (t = "" ∨ ∃ t', t = String c t') →
  a +:+ s = b +:+ t → a = b ∧ s = t.
Proof.
  revert b. induction a as [|x a IH]; intros b Ha Hb Hs Ht Heq.
  - destruct b as [|y b]; [done|]. rewrite append_nil_l, append_cons in Heq.
    simpl in Hb. apply orb_false_elim in Hb as [Hy _].
    destruct Hs as [->|(s' & ->)]; [done|].
    injection Heq as <- _. by rewrite Ascii.eqb_refl in Hy.
  - simpl in Ha. apply orb_false_elim in Ha as [Hx Ha].
    destruct b as [|y b].
    + rewrite append_nil_l, append_cons in Heq.
      destruct Ht as [->|(t' & ->)]; [done|].
      injection Heq as -> _. by rewrite Ascii.eqb_refl in Hx.
    + rewrite !append_cons in Heq. injection Heq as -> Heq.
      simpl in Hb. apply orb_false_elim in Hb as [_ Hb].
      destruct (IH b Ha Hb Hs Ht Heq) as [-> ->]. done.
Qed.

Lemma paramSuffix_shape suffix :
  suffix ∈ paramSuffixes → suffix = "" ∨ ∃ s', suffix = String underscore s'.
Proof.
  unfold paramSuffixes. rewrite !elem_of_cons, elem_of_nil.
  intros [->|[->|[->|[]]]]; [by left|right; by eexists..].
Qed.

(** Different counter values, or different suffixes, give different keys. *)
Lemma paramKey_inj prefix i j s t :
  s ∈ paramSuffixes → t ∈ paramSuffixes →
  paramKey prefix i s = paramKey prefix j t → i = j ∧ s = t.
Proof.
  intros Hs Ht Heq. unfold paramKey in Heq.
  apply (inj (String.append prefix)) in Heq.
  apply (clean_prefix_unique underscore) in Heq as [Hij ->];
    auto using pretty_nat_clean, underscore_no_digit, paramSuffix_shape.
  split; [|done]. by apply (inj pretty).
Qed.

Lemma keysWithin_empty prefix lo hi : keysWithin prefix lo hi ∅.
Proof. intros k [v Hv]. by rewrite lookup_empty in Hv. Qed.

Lemma keysWithin_weaken prefix lo hi lo' hi' params :
  lo' ≤ lo → hi ≤ hi' →
  keysWithin prefix lo hi params → keysWithin prefix lo' hi' params.
Proof.
  intros Hlo Hhi Hkeys k Hk.
  destruct (Hkeys k Hk) as (i & suffix & Hi & Hsuffix & ->).
  exists i, suffix. split_and!; [lia|lia|done|done].
Qed.

Lemma keysWithin_union prefix lo hi (m1 m2 : gmap string JsValue) :
  keysWithin prefix lo hi m1 → keysWithin prefix lo hi m2 →
  keysWithin prefix lo hi (m1 ∪ m2).
Proof.
  intros H1 H2 k [v Hv]. apply lookup_union_Some_raw in Hv as [Hv|[_ Hv]]; eauto.
Qed.

(** Parameters of disjoint counter ranges do not collide. *)
Lemma keysWithin_disjoint prefix lo mid hi (m1 m2 : gmap string JsValue) :
  keysWithin prefix lo mid m1 → keysWithin prefix mid hi m2 → m2 ##ₘ m1.
Proof.
  intros H1 H2. apply map_disjoint_spec. intros k v2 v1 Hv2 Hv1.
  destruct (H1 k (mk_is_Some _ _ Hv1)) as (i & s & Hi & Hs & ->).
  destruct (H2 _ (mk_is_Some _ _ Hv2)) as (j & t & Hj & Ht & Heq).
  apply paramKey_inj in Heq as [-> _]; [lia|done..].
Qed.

Lemma size_union_fresh prefix lo mid hi (m1 m2 : gmap string JsValue) :
  keysWithin prefix lo mid m1 → keysWithin prefix mid hi m2 →
  size (m2 ∪ m1) = size m2 + size m1.
Proof.
  intros H1 H2. apply map_size_disj_union. by eapply keysWithin_disjoint.
Qed.

Ltac nonempty :=
  repeat first [ reflexivity
               | apply isEmpty_app_l; reflexivity
               | apply isEmpty_app_r ].

Lemma generateLikeQuery_nonempty columnName paramName isNegated isCaseInsensitive :
  Str.isEmpty (generateLikeQuery repo columnName paramName isNegated
                 isCaseInsensitive) = false.
Proof. unfold generateLikeQuery. destruct isCaseInsensitive; nonempty. Qed.

Lemma singleton_keys (p : string) (v : JsValue) k :
  is_Some (({[ p := v ]} : gmap string JsValue) !! k) →
  ∃ suffix, suffix ∈ paramSuffixes ∧ k = p +:+ suffix.
Proof.
  intros [w Hw]. apply lookup_singleton_Some in Hw as [<- _].
  exists "". split; [by left|]. by rewrite append_nil_r.
Qed.

Lemma pair_keys (p : string) (v w : JsValue) k :
  is_Some ((<[ p +:+ "_1" := w ]> ({[ p +:+ "_0" := v ]} : gmap string JsValue)) !! k) →
  ∃ suffix, suffix ∈ paramSuffixes ∧ k = p +:+ suffix.
Proof.
  intros [u Hu]. apply lookup_insert_Some in Hu as [[<- _]|[_ Hu]].
  - exists "_1". split; [|done]. by right; right; left.
  - apply lookup_singleton_Some in Hu as [<- _].
    exists "_0". split; [|done]. by right; left.
Qed.

Lemma pair_size (p : string) (v w : JsValue) :
  size (<[ p +:+ "_1" := w ]> ({[ p +:+ "_0" := v ]} : gmap string JsValue)) = 2.
Proof.
  rewrite map_size_insert_None, map_size_singleton; [done|].
  apply lookup_singleton_None. intros Heq.
  by apply (inj (String.append p)) in Heq.
Qed.

(** What one leaf emits: a fragment that is not empty, and as many
    parameters as [leafParams] says, all named after the leaf's own
    parameter name. *)
Lemma emitOperator_spec columnName value operator paramName q ps :
  emitOperator repo extraOperatorValue columnName value operator paramName
  = Ok (q, ps) →
  Str.isEmpty q = false
  ∧ size ps = leafParams extraOperatorValue (operator, value)
  ∧ (∀ k, is_Some (ps !! k) →
          ∃ suffix, suffix ∈ paramSuffixes ∧ k = paramName +:+ suffix).
Proof.
  unfold emitOperator, leafParams. simpl.
  destruct (switchOperator extraOperatorValue operator) as [o|]; [|done].
  destruct o; simpl;
    try (intros [= <- <-]; split_and!;
         [ first [apply generateLikeQuery_nonempty | nonempty]
         | first [apply map_size_singleton | apply map_size_empty]
         | first [apply singleton_keys
                 | intros k [v Hv]; by rewrite lookup_empty in Hv] ]).
  - (* IN_L *)
    destruct value as [| | | | |[|x items]|]; try done; intros [= <- <-];
      split_and!; try nonempty;
      first [apply map_size_singleton | apply map_size_empty | idtac];
      first [apply singleton_keys
            | intros k [v Hv]; by rewrite lookup_empty in Hv].
  - (* NOT_IN_L *)
    destruct value as [| | | | |items|]; try done; intros [= <- <-];
      split_and!; [nonempty|apply map_size_singleton|apply singleton_keys].
  - (* IN *)
    destruct value as [| | | | |[|x items]|]; intros [= <- <-];
      split_and!; try nonempty;
      first [apply map_size_singleton | apply map_size_empty | idtac];
      first [apply singleton_keys
            | intros k [v Hv]; by rewrite lookup_empty in Hv].
  - (* CONT_ARR *)
    destruct value as [| | | | |[|x items]|]; try done;
      [|destruct (isPostgres repo); [|done]]; intros [= <- <-];
      split_and!; try nonempty;
      first [apply map_size_singleton | apply map_size_empty | idtac];
      first [apply singleton_keys
            | intros k [v Hv]; by rewrite lookup_empty in Hv].
  - (* INTERSECTS_ARR *)
    destruct value as [| | | | |[|x items]|]; try done;
      [|destruct (isPostgres repo); [|done]]; intros [= <- <-];
      split_and!; try nonempty;
      first [apply map_size_singleton | apply map_size_empty | idtac];
      first [apply singleton_keys
            | intros k [v Hv]; by rewrite lookup_empty in Hv].
  - (* BETWEEN *)
    destruct (destructurePair value) as [[start end_]|]; simpl; [|done].
    intros [= <- <-]. split_and!; [nonempty|apply pair_size|apply pair_keys].
  - (* NOT_BETWEEN *)
    destruct (destructurePair value) as [[start end_]|]; simpl; [|done].
    intros [= <- <-]. split_and!; [nonempty|apply pair_size|apply pair_keys].
Qed.

Lemma getFieldWithAlias_frame field useDbField st column st1 :
  getFieldWithAlias' field useDbField st = Ok (column, st1) →
  paramIndex st1 = paramIndex st ∧ paramsPrefix st1 = paramsPrefix st
  ∧ builder st1 = builder st ∧ selectedFields st1 = selectedFields st.
Proof.
  unfold getFieldWithAlias.
  destruct (Str.split dot field) as [|seg [|seg' segs]].
  - pose proof (getRelationMetadata_frame field st) as (Hb & Hs & Hi & Hp & _).
    destruct (getRelationMetadata repo rootAlias field st) as [[r|] st'];
      simpl in *; destruct (normalizeColumnName _ _); simpl; intros [= <- <-];
      done.
  - destruct useDbField; destruct (normalizeColumnName _ _); simpl;
      by intros [= <- <-].
  - pose proof (getRelationMetadata_frame field st) as (Hb & Hs & Hi & Hp & _).
    destruct (getRelationMetadata repo rootAlias field st) as [[r|] st'];
      simpl in *; destruct (normalizeColumnName _ _); simpl; intros [= <- <-];
      done.
Qed.

(** One leaf: the counter advances by one, and what is bound is named after
    the counter value the leaf drew. *)
Lemma parse_spec columnName value operator st c st' :
  parse' columnName value operator st = Ok (c, st') →
  paramsPrefix st' = paramsPrefix st
  ∧ paramIndex st' = S (paramIndex st)
  ∧ Str.isEmpty (fst c) = false
  ∧ size (snd c) = leafParams extraOperatorValue (operator, value)
  ∧ keysWithin (paramsPrefix st) (paramIndex st) (S (paramIndex st)) (snd c).
Proof.
  unfold parseWhereObjectToQueryAndParams.
  destruct (emitOperator _ _ _ _ _ _) as [[q ps]|] eqn:Hemit; simpl; [|done].
  intros [= <- <-]. apply emitOperator_spec in Hemit as (Hq & Hsize & Hkeys).
  split_and!; try done. intros k Hk.
  destruct (Hkeys k Hk) as (suffix & Hsuffix & ->).
  exists (paramIndex st), suffix. split_and!; [lia|lia|done|].
  unfold paramKey. by rewrite append_assoc.
Qed.

Local Notation gathered' := (gathered extraOperatorValue).
Local Notation compiles' := (compiles extraOperatorValue).

Lemma pushCompiled_spec lo st columnName value operator st' c queryParts params :
  parse' columnName value operator st = Ok (c, st') →
  lo ≤ paramIndex st →
  keysWithin (paramsPrefix st) lo (paramIndex st) params →
  let r := pushCompiled c queryParts params in
  gathered' lo st queryParts params [(operator, value)] st' (fst r) (snd r).
Proof.
  intros (Hprefix & Hindex & Hq & Hsize & Hkeys)%parse_spec Hlo Hparams.
  unfold pushCompiled. rewrite Hq. simpl. unfold gathered. simpl.
  rewrite Hindex. split_and!; [done|lia| | | |].
  - apply keysWithin_union.
    + eapply keysWithin_weaken; [| |exact Hkeys]; lia.
    + eapply keysWithin_weaken; [| |exact Hparams]; lia.
  - rewrite (size_union_fresh _ _ _ _ _ _ Hparams Hkeys). lia.
  - by intros [_ [=]]%app_eq_nil.
  - intros Hall. apply Forall_app. split; [done|]. by repeat constructor.
Qed.

Lemma gathered_trans lo st qp params ls1 st1 qp1 params1 ls2 st2 qp2 params2 :
  gathered' lo st qp params ls1 st1 qp1 params1 →
  gathered' lo st1 qp1 params1 ls2 st2 qp2 params2 →
  gathered' lo st qp params (ls1 ++ ls2) st2 qp2 params2.
Proof.
  intros (Hp1 & Hi1 & Hk1 & Hs1 & He1 & Hn1) (Hp2 & Hi2 & Hk2 & Hs2 & He2 & Hn2).
  unfold gathered. rewrite length_app, sum_list_with_app.
  rewrite Hp1 in *. split_and!; [congruence|lia|done|lia| |auto].
  intros Hnil. destruct (He2 Hnil) as [Hqp1 ->].
  destruct (He1 Hqp1) as [-> ->]. done.
Qed.

Lemma gathered_refl lo st qp params :
  keysWithin (paramsPrefix st) lo (paramIndex st) params →
  gathered' lo st qp params [] st qp params.
Proof. intros Hkeys. unfold gathered. simpl. split_and!; try done; lia. Qed.

(** Only the counter and the prefix of the starting state matter. *)
Lemma gathered_rebase lo st0 st qp params ls st' qp' params' :
  paramIndex st = paramIndex st0 → paramsPrefix st = paramsPrefix st0 →
  gathered' lo st qp params ls st' qp' params' →
  gathered' lo st0 qp params ls st' qp' params'.
Proof. unfold gathered. by intros -> ->. Qed.

Lemma groupedQuery_nonempty key subParts :
  subParts ≠ [] → Forall (fun q => Str.isEmpty q = false) subParts →
  Str.isEmpty (groupedQuery key subParts) = false.
Proof.
  intros Hne Hall. unfold groupedQuery.
  destruct subParts as [|part [|part' rest]]; [done| |done].
  simpl. by apply Forall_cons in Hall as [? _].
Qed.

Lemma compileSubs_spec recur recurLeaves subs :
  (∀ sub, sub ∈ subs → compiles' recur recurLeaves sub) →
  ∀ lo subParts params st subParts' params' st',
    compileSubs recur subs subParts params st = Ok (subParts', params', st') →
    lo ≤ paramIndex st →
    keysWithin (paramsPrefix st) lo (paramIndex st) params →
    gathered' lo st subParts params (List.flat_map recurLeaves subs)
              st' subParts' params'.
Proof.
  induction subs as [|sub rest IH]; intros Hall lo subParts params st
    subParts' params' st' Hrun Hlo Hparams; simpl in Hrun.
  - injection Hrun as <- <- <-. by apply gathered_refl.
  - destruct (recur sub st) as [[c st1]|] eqn:Hrec; simpl in Hrun; [|done].
    destruct (Hall sub (list_elem_of_here _ _) _ _ _ Hrec)
      as (Hp & Hi & Hk & Hs & He).
    assert (∀ sub', sub' ∈ rest → compiles' recur recurLeaves sub') as Hrest.
    { intros sub' Hsub'. apply Hall. by right. }
    simpl. destruct (Str.isEmpty (fst c)) eqn:Hempty.
    + rewrite (He eq_refl) in *. simpl in *.
      eapply gathered_rebase; [| |eapply (IH Hrest lo); [exact Hrun|..]].
      * lia.
      * done.
      * lia.
      * rewrite Hp. replace (paramIndex st1) with (paramIndex st) by lia. done.
    + eapply gathered_trans; [|eapply (IH Hrest lo); [exact Hrun|..]].
      * unfold gathered. split_and!; [done|lia| | | |].
        -- apply keysWithin_union.
           ++ eapply keysWithin_weaken; [| |exact Hk]; lia.
           ++ eapply keysWithin_weaken; [| |exact Hparams]; lia.
        -- rewrite (size_union_fresh _ _ _ _ _ _ Hparams Hk). lia.
        -- by intros [_ [=]]%app_eq_nil.
        -- intros Hne. apply Forall_app. split; [done|]. by repeat constructor.
      * lia.
      * rewrite Hp. apply keysWithin_union.
        -- eapply keysWithin_weaken; [| |exact Hk]; lia.
        -- eapply keysWithin_weaken; [| |exact Hparams]; lia.
Qed.

Lemma compileOperators_spec key ops :
  ∀ lo queryParts params st queryParts' params' st',
    compileOperators normalizeColumnName repo rootAlias extraOperatorValue
      key ops queryParts params st = Ok (queryParts', params', st') →
    lo ≤ paramIndex st →
    keysWithin (paramsPrefix st) lo (paramIndex st) params →
    gathered' lo st queryParts params ops st' queryParts' params'.
Proof.
  induction ops as [|[op val] rest IH]; intros lo queryParts params st
    queryParts' params' st' Hrun Hlo Hparams; simpl in Hrun.
  - injection Hrun as <- <- <-. by apply gathered_refl.
  - destruct (getFieldWithAlias' key false st) as [[column st1]|] eqn:Hcol;
      simpl in Hrun; [|done].
    apply getFieldWithAlias_frame in Hcol as (Hi1 & Hp1 & _).
    destruct (parse' column val op st1) as [[c st2]|] eqn:Hparse;
      simpl in Hrun; [|done].
    pose proof (pushCompiled_spec lo st1 column val op st2 c queryParts params
                  Hparse) as Hpush.
    rewrite Hi1, Hp1 in Hpush. specialize (Hpush Hlo Hparams). simpl in Hpush.
    destruct (pushCompiled c queryParts params) as [queryParts1 params1].
    simpl in Hpush.
    change ((op, val) :: rest) with ([(op, val)] ++ rest).
    pose proof Hpush as Hpush'. unfold gathered in Hpush'.
    destruct Hpush' as (Hp2 & Hi2 & Hk2 & _).
    eapply gathered_trans.
    + eapply gathered_rebase; [exact Hi1|exact Hp1|exact Hpush].
    + eapply (IH lo); [exact Hrun|lia|]. by rewrite Hp2.
Qed.

Lemma compileEntries_spec recur recurLeaves props :
  (∀ key subs sub, (key, JArr subs) ∈ props → sub ∈ subs →
                   compiles' recur recurLeaves sub) →
  ∀ lo queryParts params st queryParts' params' st',
    compileEntries normalizeColumnName repo rootAlias extraOperatorValue recur
      props queryParts params st = Ok (queryParts', params', st') →
    lo ≤ paramIndex st →
    keysWithin (paramsPrefix st) lo (paramIndex st) params →
    gathered' lo st queryParts params
              (List.flat_map (leavesOfEntry extraOperatorValue recurLeaves) props)
              st' queryParts' params'.
Proof.
  induction props as [|[key value] rest IH]; intros Hall lo queryParts params st
    queryParts' params' st' Hrun Hlo Hparams; cbn [compileEntries] in Hrun.
  - injection Hrun as <- <- <-. by apply gathered_refl.
  - assert (∀ key' subs sub, (key', JArr subs) ∈ rest → sub ∈ subs →
                             compiles' recur recurLeaves sub) as Hrest.
    { intros key' subs sub Hin. apply (Hall key' subs sub). by right. }
    specialize (IH Hrest lo).
    cbn [List.flat_map]. unfold leavesOfEntry at 1. cbn [fst snd].
    destruct (isLogicalKey key) eqn:Hkey.
    + destruct value as [| | | | |[|sub subs]|];
        try (simpl; by eapply IH).
      cbn [bindR] in Hrun.
      destruct (compileSubs recur (sub :: subs) [] params st)
        as [[[subParts params1] st1]|] eqn:Hsubs; cbn [bindR] in Hrun; [|done].
      eapply compileSubs_spec in Hsubs; [|..|exact Hlo|exact Hparams].
      2:{ intros sub' Hsub'. apply (Hall key (sub :: subs) sub'); [by left|done]. }
      pose proof Hsubs as Hsubs'. unfold gathered in Hsubs'.
      destruct Hsubs' as (Hp1 & Hi1 & Hk1 & Hs1 & He1 & Hn1).
      eapply gathered_trans; [|eapply IH; [exact Hrun|lia|by rewrite Hp1]].
      unfold gathered. split_and!; [done|done|done|done| |].
      * destruct subParts as [|part parts].
        -- intros ->. by destruct (He1 eq_refl) as [_ ->].
        -- by intros [_ [=]]%app_eq_nil.
      * intros Hne. destruct subParts as [|part parts]; [done|].
        apply Forall_app. split; [done|]. constructor; [|done].
        apply groupedQuery_nonempty; [done|]. apply Hn1. constructor.
    + destruct value as [| | | | | |ops].
      7:{ destruct (compileOperators _ _ _ _ key ops queryParts params st)
            as [[[queryParts1 params1] st1]|] eqn:Hops; cbn [bindR] in Hrun;
            [|done].
          eapply compileOperators_spec in Hops; [|exact Hlo|exact Hparams].
          pose proof Hops as Hops'. unfold gathered in Hops'.
          destruct Hops' as (Hp1 & Hi1 & Hk1 & _).
          eapply gathered_trans; [exact Hops|].
          eapply IH; [exact Hrun|lia|by rewrite Hp1]. }
      all: destruct (getFieldWithAlias' key false st) as [[column st1]|] eqn:Hcol;
        cbn [bindR] in Hrun; [|done];
        apply getFieldWithAlias_frame in Hcol as (Hi1 & Hp1 & _);
        match type of Hrun with
        | context [parse' column ?v ?o st1] =>
            destruct (parse' column v o st1) as [[c st2]|] eqn:Hparse;
            cbn [bindR] in Hrun; [|done];
            pose proof (pushCompiled_spec lo st1 column v o st2 c queryParts
                          params Hparse) as Hpush
        end;
        rewrite Hi1, Hp1 in Hpush; specialize (Hpush Hlo Hparams);
        simpl in Hpush;
        destruct (pushCompiled c queryParts params) as [queryParts1 params1];
        simpl in Hpush;
        pose proof Hpush as Hpush'; unfold gathered in Hpush';
        destruct Hpush' as (Hp2 & Hi2 & Hk2 & _);
        (eapply gathered_trans;
         [eapply gathered_rebase; [exact Hi1|exact Hp1|exact Hpush]
         |eapply IH; [exact Hrun|lia|by rewrite Hp2]]).
Qed.

(** ** Induction on filters *)

Lemma JsValue_nested_ind (P : JsValue → Prop) :
  P JUndefined → P JNull → (∀ b, P (JBool b)) → (∀ z, P (JNum z)) →
  (∀ s, P (JStr s)) →
  (∀ items, Forall P items → P (JArr items)) →
  (∀ props, Forall (fun kv => P (snd kv)) props → P (JObj props)) →
  ∀ v, P v.
Proof.
  intros Hundef Hnull Hbool Hnum Hstr Harr Hobj.
  fix IH 1. intros [| |b|z|s|items|props].
  - exact Hundef.
  - exact Hnull.
  - apply Hbool.
  - apply Hnum.
  - apply Hstr.
  - apply Harr. induction items as [|x items IHitems]; constructor.
    + apply IH.
    + exact IHitems.
  - apply Hobj. induction props as [|[k x] props IHprops]; constructor.
    + apply IH.
    + exact IHprops.
Qed.

(** To prove a property of a filter one may assume it of the elements of
    the groups the filter holds. *)
Lemma JsValue_group_ind (P : JsValue → Prop) :
  (∀ v, (∀ props key subs sub,
            v = JObj props → (key, JArr subs) ∈ props → sub ∈ subs → P sub) →
        P v) →
  ∀ v, P v.
Proof.
  intros Hstep.
  cut (∀ v, P v ∧ ∀ subs, v = JArr subs → Forall P subs); [intros H v; apply H|].
  induction v as [| |b|z|s|items IH|props IH] using JsValue_nested_ind;
    (split; [apply Hstep; intros props' key subs sub Heq; try done|
             intros subs Heq; try done]).
  - injection Heq as <-. eapply Forall_impl; [exact IH|]. by intros x [? _].
  - injection Heq as <-. intros Hin Hsub.
    rewrite Forall_forall in IH. destruct (IH _ Hin) as [_ Hsubs].
    specialize (Hsubs subs eq_refl). rewrite Forall_forall in Hsubs. auto.
Qed.

Lemma finishCondition_empty queryParts params :
  Forall (fun q => Str.isEmpty q = false) queryParts →
  Str.isEmpty (fst (finishCondition queryParts params)) = true →
  queryParts = [].
Proof.
  destruct queryParts as [|q [|q' rest]]; [done| |];
    unfold finishCondition; cbn [fst].
  - intros [Hq _]%Forall_cons. simpl. by rewrite Hq.
  - intros [Hq _]%Forall_cons. rewrite join_cons2.
    by rewrite isEmpty_app_l.
Qed.

(** The compiler advances the counter once per leaf and binds the
    parameters of its leaves without a collision. *)
Lemma buildWhereQueryAndParams_compiles condition :
  compiles' compile' (leaves extraOperatorValue) condition.
Proof.
  induction condition as [condition IH] using JsValue_group_ind.
  intros st c st' Hrun.
  assert (∀ recur recurLeaves props,
             (∀ key subs sub, (key, JArr subs) ∈ props → sub ∈ subs →
                              compiles' recur recurLeaves sub) →
             (let* (r, st1) :=
                compileEntries normalizeColumnName repo rootAlias
                  extraOperatorValue recur props [] ∅ st in
              let '(queryParts, params) := r in
              Ok (finishCondition queryParts params, st1)) = Ok (c, st') →
             let ls := List.flat_map
                         (leavesOfEntry extraOperatorValue recurLeaves) props in
             paramsPrefix st' = paramsPrefix st
             ∧ paramIndex st' = paramIndex st + length ls
             ∧ keysWithin (paramsPrefix st) (paramIndex st) (paramIndex st') (snd c)
             ∧ size (snd c) = sum_list_with (leafParams extraOperatorValue) ls
             ∧ (Str.isEmpty (fst c) = true → ls = [])) as Hloop.
  { intros recur recurLeaves props Hsubs Hloop ls.
    destruct (compileEntries _ _ _ _ recur props [] ∅ st)
      as [[[queryParts params] st1]|] eqn:Hentries; cbn [bindR] in Hloop; [|done].
    injection Hloop as <- <-.
    eapply (compileEntries_spec recur recurLeaves props Hsubs (paramIndex st))
      in Hentries; [|lia|apply keysWithin_empty].
    destruct Hentries as (Hp & Hi & Hk & Hs & He & Hn).
    rewrite map_size_empty in Hs. split_and!; try done.
    intros Hempty. apply finishCondition_empty in Hempty; [|by apply Hn].
    by destruct (He Hempty). }
  destruct condition as [| |b|z|s|items|props].
  1-4: simpl in Hrun |- *; try destruct b; try destruct (Z.eqb z 0);
       simpl in Hrun |- *; injection Hrun as <- <-; simpl;
       (split_and!; [done|lia|apply keysWithin_empty|done|done]).
  - (* a string enumerates its characters *)
    destruct s as [|a s].
    { simpl in Hrun. injection Hrun as <- <-. simpl.
      split_and!; [done|lia|apply keysWithin_empty|done|done]. }
    apply (Hloop (fun _ st0 => Ok (noCondition, st0)) (fun _ => [])
                 (entries (JStr (String a s)))); [|exact Hrun].
    intros key subs sub _ _ st0 c0 st0' [= <- <-]. simpl.
    split_and!; [done|lia|apply keysWithin_empty|done|done].
  - (* an array enumerates its elements *)
    destruct items as [|x items].
    { simpl in Hrun. injection Hrun as <- <-. simpl.
      split_and!; [done|lia|apply keysWithin_empty|done|done]. }
    apply (Hloop (fun _ st0 => Ok (noCondition, st0)) (fun _ => [])
                 (entries (JArr (x :: items)))); [|exact Hrun].
    intros key subs sub _ _ st0 c0 st0' [= <- <-]. simpl.
    split_and!; [done|lia|apply keysWithin_empty|done|done].
  - destruct props as [|kv props].
    { simpl in Hrun. injection Hrun as <- <-. simpl.
      split_and!; [done|lia|apply keysWithin_empty|done|done]. }
    apply (Hloop compile' (leaves extraOperatorValue) (kv :: props));
      [|exact Hrun].
    intros key subs sub Hin Hsub. by eapply IH.
Qed.

Lemma sum_list_with_const {A} (f : A → nat) (k : nat) (l : list A) :
  Forall (fun x => f x = k) l → sum_list_with f l = k * length l.
Proof.
  induction 1 as [|x l Hx _ IH]; simpl; [lia|]. rewrite Hx, IH. lia.
Qed.

(** C5, as the code has it.  Within one compilation every leaf comparison
    draws its own value of the counter, which advances by one per leaf, and
    binds only keys made of the prefix, that value and one of the suffixes
    (none), [_0], [_1]; such keys differ as soon as the counter values or
    the suffixes differ.  So the parameter map has exactly as many keys as
    its leaves bind, whatever fields and operators repeat: none for a null
    or boolean test and for a guarded empty list, two for a BETWEEN or NOT
    BETWEEN, one for any other leaf.  It has [N] keys when each of the [N]
    leaves binds one parameter and [2N] when all of them are ranges. *)
Theorem parameters_do_not_collide condition st c st' :
  compile' condition st = Ok (c, st') →
  let ls := leaves extraOperatorValue condition in
  paramIndex st' = paramIndex st + length ls
  ∧ keysWithin (paramsPrefix st) (paramIndex st) (paramIndex st') (snd c)
  ∧ (∀ i j s t, s ∈ paramSuffixes → t ∈ paramSuffixes →
        paramKey (paramsPrefix st) i s = paramKey (paramsPrefix st) j t →
        i = j ∧ s = t)
  ∧ size (snd c) = sum_list_with (leafParams extraOperatorValue) ls
  ∧ (Forall (fun leaf => leafParams extraOperatorValue leaf = 1) ls →
     size (snd c) = length ls)
  ∧ (Forall (fun leaf => leafParams extraOperatorValue leaf = 2) ls →
     size (snd c) = 2 * length ls).
Proof.
  intros Hrun ls.
  destruct (buildWhereQueryAndParams_compiles condition st c st' Hrun)
    as (_ & Hindex & Hkeys & Hsize & _).
  fold ls in Hindex, Hsize. split_and!; try done.
  - intros i j s t. apply paramKey_inj.
  - intros Hall. rewrite Hsize, (sum_list_with_const _ 1) by done. lia.
  - intros Hall. by rewrite Hsize, (sum_list_with_const _ 2).
Qed.

(** ** More on the predicate compiler *)

Lemma untouched_refl st : untouched st st.
Proof. by repeat split. Qed.

Lemma untouched_trans st1 st2 st3 :
  untouched st1 st2 → untouched st2 st3 → untouched st1 st3.
Proof.
  intros (Hb1 & Hs1 & Hp1) (Hb2 & Hs2 & Hp2). repeat split; congruence.
Qed.

Lemma getFieldWithAlias_untouched field useDbField st column st1 :
  getFieldWithAlias' field useDbField st = Ok (column, st1) → untouched st st1.
Proof.
  intros (_ & Hp & Hb & Hs)%getFieldWithAlias_frame. by repeat split.
Qed.

Lemma parse_untouched columnName value operator st c st' :
  parse' columnName value operator st = Ok (c, st') → untouched st st'.
Proof.
  unfold parseWhereObjectToQueryAndParams.
  destruct (emitOperator _ _ _ _ _ _); simpl; [|done].
  intros [= _ <-]. by repeat split.
Qed.

Lemma compileSubs_untouched recur subs :
  (∀ sub st c st', sub ∈ subs → recur sub st = Ok (c, st') → untouched st st') →
  ∀ subParts params st r st',
    compileSubs recur subs subParts params st = Ok (r, st') → untouched st st'.
Proof.
  induction subs as [|sub rest IH]; intros Hall subParts params st r st' Hrun;
    simpl in Hrun.
  - injection Hrun as _ <-. apply untouched_refl.
  - destruct (recur sub st) as [[c st1]|] eqn:Hrec; simpl in Hrun; [|done].
    eapply untouched_trans; [eapply Hall; [by left|exact Hrec]|].
    assert (∀ sub' st0 c0 st0', sub' ∈ rest → recur sub' st0 = Ok (c0, st0') →
                                untouched st0 st0') as Hrest.
    { intros sub' st0 c0 st0' Hin. apply Hall. by right. }
    destruct (Str.isEmpty (fst c)); eapply IH; eauto.
Qed.

Lemma compileOperators_untouched key ops :
  ∀ queryParts params st r st',
    compileOperators normalizeColumnName repo rootAlias extraOperatorValue
      key ops queryParts params st = Ok (r, st') → untouched st st'.
Proof.
  induction ops as [|[op val] rest IH]; intros queryParts params st r st' Hrun;
    simpl in Hrun.
  - injection Hrun as _ <-. apply untouched_refl.
  - destruct (getFieldWithAlias' key false st) as [[column st1]|] eqn:Hcol;
      simpl in Hrun; [|done].
    destruct (parse' column val op st1) as [[c st2]|] eqn:Hparse;
      simpl in Hrun; [|done].
    destruct (pushCompiled c queryParts params) as [queryParts1 params1].
    eapply untouched_trans; [by eapply getFieldWithAlias_untouched|].
    eapply untouched_trans; [by eapply parse_untouched|]. by eapply IH.
Qed.

Lemma compileEntries_untouched recur props :
  (∀ key subs sub st c st', (key, JArr subs) ∈ props → sub ∈ subs →
                            recur sub st = Ok (c, st') → untouched st st') →
  ∀ queryParts params st r st',
    compileEntries normalizeColumnName repo rootAlias extraOperatorValue recur
      props queryParts params st = Ok (r, st') → untouched st st'.
Proof.
  induction props as [|[key value] rest IH]; intros Hall queryParts params st
    r st' Hrun; cbn [compileEntries] in Hrun.
  - injection Hrun as _ <-. apply untouched_refl.
  - assert (∀ key' subs sub st0 c0 st0', (key', JArr subs) ∈ rest → sub ∈ subs →
               recur sub st0 = Ok (c0, st0') → untouched st0 st0') as Hrest.
    { intros key' subs sub st0 c0 st0' Hin. apply (Hall key' subs sub). by right. }
    specialize (IH Hrest).
    destruct (isLogicalKey key).
    + destruct value as [| | | | |[|sub subs]|]; try by eapply IH.
      destruct (compileSubs recur (sub :: subs) [] params st)
        as [[[subParts params1] st1]|] eqn:Hsubs; cbn [bindR] in Hrun; [|done].
      eapply untouched_trans; [|by eapply IH].
      eapply compileSubs_untouched; [|exact Hsubs].
      intros sub' st0 c0 st0' Hin. by apply (Hall key (sub :: subs) sub'); [left|].
    + destruct value as [| | | | | |ops].
      7:{ destruct (compileOperators _ _ _ _ key ops queryParts params st)
            as [[[queryParts1 params1] st1]|] eqn:Hops; cbn [bindR] in Hrun;
            [|done].
          eapply untouched_trans; [by eapply compileOperators_untouched|].
          by eapply IH. }
      all: destruct (getFieldWithAlias' key false st) as [[column st1]|] eqn:Hcol;
        cbn [bindR] in Hrun; [|done];
        match type of Hrun with
        | context [parse' column ?v ?o st1] =>
            destruct (parse' column v o st1) as [[c st2]|] eqn:Hparse;
            cbn [bindR] in Hrun; [|done]
        end;
        destruct (pushCompiled c queryParts params) as [queryParts1 params1];
        (eapply untouched_trans; [by eapply getFieldWithAlias_untouched|]);
        (eapply untouched_trans; [by eapply parse_untouched|]); by eapply IH.
Qed.

Lemma buildWhereQueryAndParams_untouched condition st c st' :
  compile' condition st = Ok (c, st') → untouched st st'.
Proof.
  revert st c st'.
  induction condition as [condition IH] using JsValue_group_ind.
  intros st c st' Hrun.
  assert (∀ recur props,
             (∀ key subs sub st0 c0 st0', (key, JArr subs) ∈ props → sub ∈ subs →
                 recur sub st0 = Ok (c0, st0') → untouched st0 st0') →
             (let* (r, st1) :=
                compileEntries normalizeColumnName repo rootAlias
                  extraOperatorValue recur props [] ∅ st in
              let '(queryParts, params) := r in
              Ok (finishCondition queryParts params, st1)) = Ok (c, st') →
             untouched st st') as Hloop.
  { intros recur props Hsubs Hloop.
    destruct (compileEntries _ _ _ _ recur props [] ∅ st)
      as [[[queryParts params] st1]|] eqn:Hentries; cbn [bindR] in Hloop; [|done].
    injection Hloop as _ <-. by eapply compileEntries_untouched. }
  destruct condition as [| |b|z|s|items|props].
  1-4: simpl in Hrun; try destruct b; try destruct (Z.eqb z 0);
       simpl in Hrun; injection Hrun as _ <-; apply untouched_refl.
  - destruct s as [|a s]; [injection Hrun as _ <-; apply untouched_refl|].
    apply (Hloop (fun _ st0 => Ok (noCondition, st0))
                 (entries (JStr (String a s)))); [|exact Hrun].
    intros key subs sub st0 c0 st0' _ _ [= _ <-]. apply untouched_refl.
  - destruct items as [|x items]; [injection Hrun as _ <-; apply untouched_refl|].
    apply (Hloop (fun _ st0 => Ok (noCondition, st0))
                 (entries (JArr (x :: items)))); [|exact Hrun].
    intros key subs sub st0 c0 st0' _ _ [= _ <-]. apply untouched_refl.
  - destruct props as [|kv props]; [injection Hrun as _ <-; apply untouched_refl|].
    apply (Hloop compile' (kv :: props)); [|exact Hrun].
    intros key subs sub st0 c0 st0' Hin Hsub. by eapply IH.
Qed.

(** X1.  Applying a filter changes nothing of the query but its WHERE
    clauses.  What it appends is what the compiler returns for the filter,
    a root-level array taken as an AND group: nothing when the compiled
    fragment is empty, and otherwise exactly one clause, the compiled
    fragment with its parameters, all named after counter values drawn
    during this call.  The joins, the aliases, the select list, the order,
    the find options and the registered columns stay as they were, and the
    counter and the cache are left as the compilation left them. *)
Theorem where_build_appends_one_clause whereObject st st' :
  WhereQueryBuilder_build normalizeColumnName repo rootAlias extraOperatorValue
    whereObject st = Ok st' →
  selectedFields st' = selectedFields st
  ∧ alias (builder st') = alias (builder st)
  ∧ aliases (builder st') = aliases (builder st)
  ∧ joins (builder st') = joins (builder st)
  ∧ findOptions (builder st') = findOptions (builder st)
  ∧ selects (builder st') = selects (builder st)
  ∧ orderBys (builder st') = orderBys (builder st)
  ∧ ∃ query params st1,
      buildWhereQueryAndParams normalizeColumnName repo rootAlias
        extraOperatorValue (rootCondition whereObject) st
      = Ok ((query, params), st1)
      ∧ paramIndex st' = paramIndex st1
      ∧ entityRelationsHash st' = entityRelationsHash st1
      ∧ keysWithin (paramsPrefix st) (paramIndex st) (paramIndex st') params
      ∧ wheres (builder st')
        = wheres (builder st)
          ++ (if Str.isEmpty query then [] else [(query, params)]).
Proof.
  assert (∀ condition,
             compile' condition st = Ok (noCondition, st) →
             selectedFields st = selectedFields st
             ∧ alias (builder st) = alias (builder st)
             ∧ aliases (builder st) = aliases (builder st)
             ∧ joins (builder st) = joins (builder st)
             ∧ findOptions (builder st) = findOptions (builder st)
             ∧ selects (builder st) = selects (builder st)
             ∧ orderBys (builder st) = orderBys (builder st)
             ∧ ∃ query params st1,
                 compile' condition st = Ok ((query, params), st1)
                 ∧ paramIndex st = paramIndex st1
                 ∧ entityRelationsHash st = entityRelationsHash st1
                 ∧ keysWithin (paramsPrefix st) (paramIndex st) (paramIndex st)
                     params
                 ∧ wheres (builder st)
                   = wheres (builder st)
                     ++ (if Str.isEmpty query then [] else [(query, params)]))
    as Hnothing.
  { intros condition Hrun. split_and!; try done.
    exists "", ∅, st. split_and!; try done.
    - apply keysWithin_empty.
    - by rewrite app_nil_r. }
  unfold WhereQueryBuilder_build.
  destruct (negb (truthy whereObject)) eqn:Hfalsy.
  { intros [= <-]. apply Hnothing.
    destruct whereObject as [| |[]|z|[]| |]; try done.
    all: simpl in Hfalsy |- *; by destruct (Z.eqb z 0). }
  destruct (isArray whereObject && bool_decide (entries whereObject = []))
    eqn:Harray.
  { intros [= <-]. apply Hnothing.
    apply andb_true_iff in Harray as [Harray Hempty%bool_decide_eq_true].
    destruct whereObject as [| | | | |[|item items]|]; done. }
  destruct (typeofObject whereObject && bool_decide (entries whereObject = []))
    eqn:Hobject.
  { intros [= <-]. apply Hnothing.
    apply andb_true_iff in Hobject as [Hobject Hempty%bool_decide_eq_true].
    destruct whereObject as [| | | | |[|item items]|[|kv props]]; done. }
  fold (rootCondition whereObject).
  destruct (compile' _ st) as [[[query params] st1]|] eqn:Hrun; simpl; [|done].
  pose proof (buildWhereQueryAndParams_untouched _ _ _ _ Hrun) as (Hb & Hs & Hp).
  pose proof (buildWhereQueryAndParams_compiles _ _ _ _ Hrun)
    as (_ & _ & Hkeys & _).
  destruct (Str.isEmpty query) eqn:Hquery; intros [= <-]; simpl; rewrite Hb.
  - split_and!; try done. exists query, params, st1.
    rewrite Hquery, app_nil_r. by split_and!.
  - split_and!; try done. exists query, params, st1.
    rewrite Hquery. by split_and!.
Qed.

Lemma compileSubs_acc recur subs subParts params st :
  compileSubs recur subs subParts params st
  = (let* (r, st') := compileSubs recur subs [] ∅ st in
     Ok (subParts ++ fst r, snd r ∪ params, st')).
Proof.
  revert subParts params st.
  assert (∀ subs sp0 ps0 subParts params st,
             (let* (r, st') := compileSubs recur subs sp0 ps0 st in
              Ok (subParts ++ fst r, snd r ∪ params, st'))
             = compileSubs recur subs (subParts ++ sp0) (ps0 ∪ params) st) as Hgen.
  { clear subs. induction subs as [|sub rest IH];
      intros sp0 ps0 subParts params st; simpl; [done|].
    destruct (recur sub st) as [[c st1]|]; simpl; [|done].
    destruct (Str.isEmpty (fst c)); rewrite IH; [done|].
    by rewrite <-app_assoc, (assoc_L (∪)). }
  intros subParts params st. rewrite Hgen.
  by rewrite app_nil_r, (left_id_L ∅ (∪)).
Qed.

Lemma pushCompiled_acc c queryParts params :
  pushCompiled c queryParts params
  = (queryParts ++ fst (pushCompiled c [] ∅),
     snd (pushCompiled c [] ∅) ∪ params).
Proof.
  unfold pushCompiled. destruct (Str.isEmpty (fst c)); simpl.
  - by rewrite app_nil_r, (left_id_L ∅ (∪)).
  - by rewrite (right_id_L ∅ (∪)).
Qed.

Lemma compileOperators_acc key ops queryParts params st :
  compileOperators normalizeColumnName repo rootAlias extraOperatorValue
    key ops queryParts params st
  = (let* (r, st') :=
       compileOperators normalizeColumnName repo rootAlias extraOperatorValue
         key ops [] ∅ st in
     Ok (queryParts ++ fst r, snd r ∪ params, st')).
Proof.
  assert (∀ ops qp0 ps0 queryParts params st,
             (let* (r, st') :=
                compileOperators normalizeColumnName repo rootAlias
                  extraOperatorValue key ops qp0 ps0 st in
              Ok (queryParts ++ fst r, snd r ∪ params, st'))
             = compileOperators normalizeColumnName repo rootAlias
                 extraOperatorValue key ops (queryParts ++ qp0) (ps0 ∪ params) st)
    as Hgen.
  { clear ops queryParts params st.
    induction ops as [|[op val] rest IH]; intros qp0 ps0 queryParts params st;
      simpl; [done|].
    destruct (getFieldWithAlias' key false st) as [[column st1]|]; simpl; [|done].
    destruct (parse' column val op st1) as [[c st2]|]; simpl; [|done].
    rewrite (pushCompiled_acc c qp0 ps0),
      (pushCompiled_acc c (queryParts ++ qp0) (ps0 ∪ params)).
    rewrite IH. by rewrite <-app_assoc, (assoc_L (∪)). }
  rewrite Hgen. by rewrite app_nil_r, (left_id_L ∅ (∪)).
Qed.

Lemma compileEntries_app recur props1 props2 queryParts params st :
  compileEntries normalizeColumnName repo rootAlias extraOperatorValue recur
    (props1 ++ props2) queryParts params st
  = (let* (r, st1) :=
       compileEntries normalizeColumnName repo rootAlias extraOperatorValue
         recur props1 queryParts params st in
     compileEntries normalizeColumnName repo rootAlias extraOperatorValue
       recur props2 (fst r) (snd r) st1).
Proof.
  revert queryParts params st.
  induction props1 as [|[key value] rest IH]; intros queryParts params st;
    [done|].
  cbn [app compileEntries].
  destruct (isLogicalKey key).
  - destruct value as [| | | | |[|sub subs]|]; try apply IH.
    destruct (compileSubs recur (sub :: subs) [] params st)
      as [[[subParts params1] st1]|]; cbn [bindR]; [|done]. apply IH.
  - destruct value as [| | | | | |ops].
    7:{ destruct (compileOperators _ _ _ _ key ops queryParts params st)
          as [[[queryParts1 params1] st1]|]; cbn [bindR]; [|done]. apply IH. }
    all: destruct (getFieldWithAlias' key false st) as [[column st1]|];
      cbn [bindR]; [|done];
      match goal with
      | |- context [parse' column ?v ?o st1] =>
          destruct (parse' column v o st1) as [[c st2]|]; cbn [bindR]; [|done]
      end;
      destruct (pushCompiled c queryParts params); apply IH.
Qed.

Lemma compileEntries_acc recur props queryParts params st :
  compileEntries normalizeColumnName repo rootAlias extraOperatorValue recur
    props queryParts params st
  = (let* (r, st') :=
       compileEntries normalizeColumnName repo rootAlias extraOperatorValue
         recur props [] ∅ st in
     Ok (queryParts ++ fst r, snd r ∪ params, st')).
Proof.
  assert (∀ props qp0 ps0 queryParts params st,
             (let* (r, st') :=
                compileEntries normalizeColumnName repo rootAlias
                  extraOperatorValue recur props qp0 ps0 st in
              Ok (queryParts ++ fst r, snd r ∪ params, st'))
             = compileEntries normalizeColumnName repo rootAlias
                 extraOperatorValue recur props (queryParts ++ qp0)
                 (ps0 ∪ params) st) as Hgen.
  { clear props queryParts params st.
    induction props as [|[key value] rest IH]; intros qp0 ps0 queryParts params st;
      [done|].
    cbn [compileEntries].
    destruct (isLogicalKey key).
    - destruct value as [| | | | |[|sub subs]|]; try apply IH.
      rewrite (compileSubs_acc recur (sub :: subs) [] ps0 st),
        (compileSubs_acc recur (sub :: subs) [] (ps0 ∪ params) st).
      destruct (compileSubs recur (sub :: subs) [] ∅ st)
        as [[[subParts params1] st1]|]; cbn [bindR fst snd app]; [|done].
      rewrite (assoc_L (∪)). destruct subParts; [apply IH|].
      rewrite <-app_assoc. apply IH.
    - destruct value as [| | | | | |ops].
      7:{ rewrite (compileOperators_acc key ops qp0 ps0 st),
            (compileOperators_acc key ops (queryParts ++ qp0) (ps0 ∪ params) st).
          destruct (compileOperators _ _ _ _ key ops [] ∅ st)
            as [[[queryParts1 params1] st1]|]; cbn [bindR fst snd]; [|done].
          rewrite IH. by rewrite <-app_assoc, (assoc_L (∪)). }
      all: destruct (getFieldWithAlias' key false st) as [[column st1]|];
        cbn [bindR]; [|done];
        match goal with
        | |- context [parse' column ?v ?o st1] =>
            destruct (parse' column v o st1) as [[c st2]|]; cbn [bindR]; [|done]
        end;
        rewrite (pushCompiled_acc c qp0 ps0),
          (pushCompiled_acc c (queryParts ++ qp0) (ps0 ∪ params));
        rewrite IH; by rewrite <-app_assoc, (assoc_L (∪)). }
  rewrite Hgen. by rewrite app_nil_r, (left_id_L ∅ (∪)).
Qed.

Lemma compile_object props st :
  compile' (JObj props) st
  = (let* (r, st') :=
       compileEntries normalizeColumnName repo rootAlias extraOperatorValue
         compile' props [] ∅ st in
     Ok (finishCondition (fst r) (snd r), st')).
Proof.
  destruct props as [|kv props]; [done|].
  cbn [buildWhereQueryAndParams truthy negb entries].
  by destruct (compileEntries _ _ _ _ _ _ _ _ _) as [[[??]?]|].
Qed.

Lemma compileEntries_parts_nonempty props st queryParts params st' :
  compileEntries normalizeColumnName repo rootAlias extraOperatorValue
    compile' props [] ∅ st = Ok (queryParts, params, st') →
  Forall (fun q => Str.isEmpty q = false) queryParts.
Proof.
  intros Hrun.
  eapply (compileEntries_spec compile' (leaves extraOperatorValue) props)
    in Hrun as (_ & _ & _ & _ & _ & Hne); [by apply Hne| |reflexivity|].
  - intros key subs sub _ _. apply buildWhereQueryAndParams_compiles.
  - apply keysWithin_empty.
Qed.

Lemma join_app sep l1 l2 :
  l1 ≠ [] → l2 ≠ [] →
  Str.join sep (l1 ++ l2) = Str.join sep l1 +:+ sep +:+ Str.join sep l2.
Proof.
  intros Hl1 Hl2. induction l1 as [|x [|y l1] IH]; [done| |].
  - destruct l2; [done|]. apply join_cons2.
  - change ((x :: y :: l1) ++ l2) with (x :: y :: (l1 ++ l2)).
    rewrite !join_cons2, !append_assoc. do 2 f_equal.
    change (y :: l1 ++ l2) with ((y :: l1) ++ l2). by apply IH.
Qed.

Lemma finishCondition_nonempty queryParts params :
  queryParts ≠ [] →
  Forall (fun q => Str.isEmpty q = false) queryParts →
  Str.isEmpty (fst (finishCondition queryParts params)) = false.
Proof.
  intros Hne Hall.
  destruct (Str.isEmpty (fst (finishCondition queryParts params))) eqn:Hempty;
    [|done].
  by apply finishCondition_empty in Hempty.
Qed.

Lemma finishCondition_app l1 l2 ps ps1 ps2 :
  Forall (fun q => Str.isEmpty q = false) l1 →
  Forall (fun q => Str.isEmpty q = false) l2 →
  fst (finishCondition (l1 ++ l2) ps)
  = andQueries (fst (finishCondition l1 ps1)) (fst (finishCondition l2 ps2)).
Proof.
  intros H1 H2. unfold andQueries.
  destruct l1 as [|x l1]; [done|].
  rewrite (finishCondition_nonempty (x :: l1) ps1) by done.
  destruct l2 as [|y l2]; [by rewrite app_nil_r|].
  rewrite (finishCondition_nonempty (y :: l2) ps2) by done.
  unfold finishCondition. cbn [fst app].
  change (x :: l1 ++ y :: l2) with ((x :: l1) ++ y :: l2).
  by rewrite join_app.
Qed.

(** X2.  Sibling entries of a filter are ANDed.  If the first entries of an
    object compile to [q1] and the remaining ones, from the state the first
    left, to [q2], the whole object compiles to [q1 AND q2] (to the other
    fragment when one of them is empty), with the parameters of both, the
    later ones winning on a common key, and ends in the same state. *)
Theorem siblings_are_anded props1 props2 st q1 ps1 st1 q2 ps2 st2 :
  buildWhereQueryAndParams normalizeColumnName repo rootAlias extraOperatorValue
    (JObj props1) st = Ok ((q1, ps1), st1) →
  buildWhereQueryAndParams normalizeColumnName repo rootAlias extraOperatorValue
    (JObj props2) st1 = Ok ((q2, ps2), st2) →
  buildWhereQueryAndParams normalizeColumnName repo rootAlias extraOperatorValue
    (JObj (props1 ++ props2)) st
  = Ok ((andQueries q1 q2, ps2 ∪ ps1), st2).
Proof.
  rewrite !compile_object, compileEntries_app.
  destruct (compileEntries _ _ _ _ _ props1 [] ∅ st)
    as [[[qp1 params1] st1']|] eqn:Hrun1; cbn [bindR fst snd]; [|done].
  intros [= <- <- <-].
  rewrite (compileEntries_acc _ props2 qp1 params1 st1').
  destruct (compileEntries _ _ _ _ _ props2 [] ∅ st1')
    as [[[qp2 params2] st2']|] eqn:Hrun2; cbn [bindR fst snd]; [|done].
  intros [= <- <- <-]. do 2 f_equal.
  unfold finishCondition at 1. f_equal.
  apply (finishCondition_app qp1 qp2 ∅ params1 params2).
  - by eapply compileEntries_parts_nonempty.
  - by eapply compileEntries_parts_nonempty.
Qed.

Lemma vacuous_compiles condition st :
  vacuous condition = true → compile' condition st = Ok (noCondition, st).
Proof.
  unfold vacuous. intros [Hfalsy|Hkeys%bool_decide_eq_true]%orb_true_iff.
  - destruct condition; simpl in *; try done; by rewrite Hfalsy.
  - destruct condition as [| |b|z|s|items|props]; simpl in *; try done.
    + by destruct b.
    + by destruct (Z.eqb z 0).
    + by destruct s.
    + by rewrite Hkeys.
    + by rewrite Hkeys.
Qed.

Lemma compileEntries_replace recur e1 e2 props1 props2 :
  (∀ queryParts params st,
      compileEntries normalizeColumnName repo rootAlias extraOperatorValue recur
        [e1] queryParts params st
      = compileEntries normalizeColumnName repo rootAlias extraOperatorValue
          recur [e2] queryParts params st) →
  ∀ queryParts params st,
    compileEntries normalizeColumnName repo rootAlias extraOperatorValue recur
      (props1 ++ e1 :: props2) queryParts params st
    = compileEntries normalizeColumnName repo rootAlias extraOperatorValue recur
        (props1 ++ e2 :: props2) queryParts params st.
Proof.
  intros Hentry queryParts params st.
  change (e1 :: props2) with ([e1] ++ props2).
  change (e2 :: props2) with ([e2] ++ props2).
  rewrite !compileEntries_app.
  destruct (compileEntries _ _ _ _ recur props1 queryParts params st)
    as [[[qp1 ps1] st1]|]; cbn [bindR fst snd]; [|done].
  by rewrite !compileEntries_app, Hentry.
Qed.

Lemma compileSubs_skip recur e subs1 subs2 subParts params st :
  (∀ st0, recur e st0 = Ok (noCondition, st0)) →
  compileSubs recur (subs1 ++ e :: subs2) subParts params st
  = compileSubs recur (subs1 ++ subs2) subParts params st.
Proof.
  intros He. revert subParts params st.
  induction subs1 as [|sub rest IH]; intros subParts params st; simpl.
  - by rewrite He.
  - destruct (recur sub st) as [[c st1]|]; simpl; [|done].
    destruct (Str.isEmpty (fst c)); apply IH.
Qed.

(** X3.  The empty filter is neutral inside a group as well.  Wherever a
    filter holds an AND- or OR-group, adding to the group an element that
    is falsy or has no key ([{}], [[]], [null], ...) changes nothing: the
    fragment, the parameters and the final state are the same. *)
Theorem vacuous_element_is_neutral key element subs1 subs2 props1 props2 st :
  isLogicalKey key = true →
  vacuous element = true →
  buildWhereQueryAndParams normalizeColumnName repo rootAlias extraOperatorValue
    (JObj (props1 ++ (key, JArr (subs1 ++ element :: subs2)) :: props2)) st
  = buildWhereQueryAndParams normalizeColumnName repo rootAlias
      extraOperatorValue
      (JObj (props1 ++ (key, JArr (subs1 ++ subs2)) :: props2)) st.
Proof.
  intros Hkey Hvacuous. rewrite !compile_object.
  rewrite (compileEntries_replace compile'
             (key, JArr (subs1 ++ element :: subs2))
             (key, JArr (subs1 ++ subs2))); [done|].
  intros queryParts params st0. cbn [compileEntries]. rewrite Hkey.
  pose proof (compileSubs_skip compile' element subs1 subs2 [] params st0
                (fun st1 => vacuous_compiles element st1 Hvacuous)) as Hskip.
  destruct subs1 as [|sub1 subs1]; [destruct subs2 as [|sub2 subs2]|].
  - simpl. by rewrite vacuous_compiles.
  - cbn [app] in *. by rewrite Hskip.
  - cbn [app] in *. by rewrite Hskip.
Qed.

(** X4.  A bare value is an implicit equality.  Wherever a filter gives a
    field a value that is no plain object, the filter compiles as if the
    value were wrapped as [{$eq: value}]: same fragment, same parameters,
    same state, same exception. *)
Theorem bare_value_is_equality field value props1 props2 st :
  isLogicalKey field = false →
  (∀ ops, value ≠ JObj ops) →
  buildWhereQueryAndParams normalizeColumnName repo rootAlias extraOperatorValue
    (JObj (props1 ++ (field, value) :: props2)) st
  = buildWhereQueryAndParams normalizeColumnName repo rootAlias
      extraOperatorValue
      (JObj (props1 ++ (field, JObj [("$eq", value)]) :: props2)) st.
Proof.
  intros Hfield Hvalue. rewrite !compile_object.
  rewrite (compileEntries_replace compile' (field, value)
             (field, JObj [("$eq", value)])); [done|].
  intros queryParts params st0. cbn [compileEntries compileOperators].
  rewrite Hfield.
  change (operatorValue extraOperatorValue EQ) with "$eq".
  destruct value as [| | | | | |ops]; [..|by destruct (Hvalue ops)];
    (destruct (getFieldWithAlias' field false st0) as [[column st1]|];
     cbn [bindR]; [|done];
     match goal with
     | |- context [parse' column ?v ?o st1] =>
         destruct (parse' column v o st1) as [[c st2]|]; cbn [bindR]; [|done]
     end;
     by destruct (pushCompiled c queryParts params)).
Qed.

Lemma switchOperator_unknown operator :
  operator ∉ map (operatorValue extraOperatorValue) switchCases →
  switchOperator extraOperatorValue operator = None.
Proof.
  unfold switchOperator. generalize switchCases.
  induction l as [|o l IH]; simpl; [done|].
  intros Hnot. rewrite not_elem_of_cons in Hnot. destruct Hnot as [Hne Hnot].
  rewrite bool_decide_eq_false_2 by done. by apply IH.
Qed.

(** X5.  An operator key that is none of the values of the operator enum is
    refused with the client error [Unsupported operator: <key>]; the
    comparison is exact, so a key that differs from a value in case only is
    refused too.  The error aborts the compilation of the filter that holds
    the key, whatever follows it. *)
Theorem unsupported_operator_is_refused operator :
  operator ∉ map (operatorValue extraOperatorValue) switchCases →
  (∀ columnName value st,
      parseWhereObjectToQueryAndParams repo extraOperatorValue columnName value
        operator st
      = Throw (BadRequestException ("Unsupported operator: " +:+ operator)))
  ∧ (∀ field value ops props column st st1,
        isLogicalKey field = false →
        getFieldWithAlias normalizeColumnName repo rootAlias field false st
        = Ok (column, st1) →
        buildWhereQueryAndParams normalizeColumnName repo rootAlias
          extraOperatorValue
          (JObj ((field, JObj ((operator, value) :: ops)) :: props)) st
        = Throw (BadRequestException ("Unsupported operator: " +:+ operator))).
Proof.
  intros Hunknown%switchOperator_unknown.
  assert (∀ columnName value st,
             parse' columnName value operator st
             = Throw (BadRequestException ("Unsupported operator: " +:+ operator)))
    as Hparse.
  { intros columnName value st.
    unfold parseWhereObjectToQueryAndParams, emitOperator. by rewrite Hunknown. }
  split; [exact Hparse|].
  intros field value ops props column st st1 Hfield Hcolumn.
  cbn [buildWhereQueryAndParams truthy negb entries compileEntries
         compileOperators].
  by rewrite Hfield, Hcolumn; cbn [bindR]; rewrite Hparse.
Qed.

(** X6.  The operands of a range.  BETWEEN and NOT BETWEEN take the first
    two elements of an array as their bounds and bind them to [<p>_0] and
    [<p>_1]; a bound the array does not have is bound as [undefined], no
    error is raised for it.  A value that is neither an array nor a string
    cannot be destructured: the compilation ends in a [TypeError], which is
    no client error. *)
Theorem range_operands columnName st :
  distinctOperatorValues extraOperatorValue →
  let p := paramsPrefix st +:+ pretty (paramIndex st) in
  let st' := setParamIndex (S (paramIndex st)) st in
  let bounds (items : list JsValue) : gmap string JsValue :=
    <[ p +:+ "_1" := nth 1 items JUndefined ]>
      {[ p +:+ "_0" := nth 0 items JUndefined ]} in
  (∀ items,
      parseWhereObjectToQueryAndParams repo extraOperatorValue columnName
        (JArr items) "$between" st
      = Ok ((columnName +:+ " BETWEEN :" +:+ p +:+ "_0 AND :" +:+ p +:+ "_1",
             bounds items), st')
      ∧ parseWhereObjectToQueryAndParams repo extraOperatorValue columnName
          (JArr items) "$notBetween" st
        = Ok ((columnName +:+ " NOT BETWEEN :" +:+ p +:+ "_0 AND :" +:+ p
                 +:+ "_1", bounds items), st'))
  ∧ (∀ value operator,
        operator ∈ ["$between"; "$notBetween"] →
        isArray value = false → (∀ s, value ≠ JStr s) →
        parseWhereObjectToQueryAndParams repo extraOperatorValue columnName
          value operator st = Throw TypeError).
Proof.
  intros Hdistinct p st' bounds.
  pose proof (switchOperator_value BETWEEN Hdistinct) as Hbetween.
  pose proof (switchOperator_value NOT_BETWEEN Hdistinct) as Hnot.
  simpl in Hbetween, Hnot. split.
  - intros items. unfold parseWhereObjectToQueryAndParams, emitOperator.
    by rewrite Hbetween, Hnot.
  - intros value operator Hop Harray Hstring.
    unfold parseWhereObjectToQueryAndParams, emitOperator.
    repeat (apply elem_of_cons in Hop as [->|Hop]);
      [..|by apply elem_of_nil in Hop]; rewrite ?Hbetween, ?Hnot;
      destruct value as [| | | |s| |]; try done; by destruct (Hstring s).
Qed.

(** X7.  The counter of a where builder is never reset: the parameters of
    two compilations run one after the other on the same builder have no
    key in common, so their union holds them all. *)
Theorem successive_compilations_do_not_collide
    condition1 condition2 st q1 ps1 st1 q2 ps2 st2 :
  buildWhereQueryAndParams normalizeColumnName repo rootAlias extraOperatorValue
    condition1 st = Ok ((q1, ps1), st1) →
  buildWhereQueryAndParams normalizeColumnName repo rootAlias extraOperatorValue
    condition2 st1 = Ok ((q2, ps2), st2) →
  ps2 ##ₘ ps1
  ∧ size (ps2 ∪ ps1) = size ps2 + size ps1
  ∧ paramIndex st2
    = paramIndex st + length (leaves extraOperatorValue condition1)
      + length (leaves extraOperatorValue condition2).
Proof.
  intros (Hp1 & Hi1 & Hk1 & _)%buildWhereQueryAndParams_compiles
         (Hp2 & Hi2 & Hk2 & _)%buildWhereQueryAndParams_compiles.
  simpl in *. rewrite Hp1 in Hk2. split_and!.
  - by eapply keysWithin_disjoint.
  - by eapply size_union_fresh.
  - lia.
Qed.

(** ** The relation resolver *)

Lemma getRelationMetadata_hit field r st :
  entityRelationsHash st !! field = Some r →
  ar_allowedColumns r = Some (ar_columns r) →
  getRelationMetadata repo rootAlias field st = (Some r, st).
Proof.
  intros Hcache Hallowed. unfold getRelationMetadata. rewrite Hcache.
  destruct r as [a n p c nd pc ac]. simpl in *. subst ac.
  rewrite insert_id by done. by destruct st.
Qed.

Lemma getRelationMetadata_saved field st r st1 :
  getRelationMetadata repo rootAlias field st = (Some r, st1) →
  ar_allowedColumns r = Some (ar_columns r)
  ∧ entityRelationsHash st1 !! field = Some r.
Proof.
  unfold getRelationMetadata.
  destruct (match entityRelationsHash st !! field with
            | Some cached => Some cached
            | None => resolveRelation repo rootAlias field (entityRelationsHash st)
            end) as [r0|]; [|done].
  intros [= <- <-]. simpl. by rewrite lookup_insert_eq.
Qed.

Lemma getRelationMetadata_none field st st1 :
  getRelationMetadata repo rootAlias field st = (None, st1) → st1 = st.
Proof.
  unfold getRelationMetadata.
  destruct (match entityRelationsHash st !! field with
            | Some cached => Some cached
            | None => resolveRelation repo rootAlias field (entityRelationsHash st)
            end) as [r0|]; [done|]. by intros [= <-].
Qed.

(** X8.  The resolver memoises.  A relation that has been resolved is
    answered from the cache from then on: whatever other paths are looked up
    in between, the same path gets the same answer again and the lookup
    changes nothing any more.  A path that does not resolve leaves the
    helper as it was, so nothing is cached for it. *)
Theorem memoised_relation_is_stable field st :
  match getRelationMetadata repo rootAlias field st with
  | (Some r, st1) =>
      ∀ others,
        getRelationMetadata repo rootAlias field
          (lookups repo rootAlias others st1)
        = (Some r, lookups repo rootAlias others st1)
  | (None, st1) => st1 = st
  end.
Proof.
  destruct (getRelationMetadata repo rootAlias field st) as [[r|] st1] eqn:Hget;
    [|by eapply getRelationMetadata_none].
  apply getRelationMetadata_saved in Hget as [Hallowed Hcache].
  intros others. apply getRelationMetadata_hit; [|done].
  revert st1 Hcache. induction others as [|other others IH]; intros st1 Hcache;
    [done|].
  simpl. apply IH. destruct (decide (other = field)) as [->|Hne].
  - by rewrite (getRelationMetadata_hit field r st1).
  - destruct (getRelationMetadata_frame other st1) as (_ & _ & _ & _ & Hframe).
    by rewrite Hframe.
Qed.

(** The [reduce] of the resolver ends with the entity the chain leads to
    and with the last name of the chain. *)
Lemma reduce_walks n fields :
  fields ≠ [] →
  ∀ i rels md0 name0 parentPath0,
    ∃ rels' parentPath',
      fold_left (reduceStep repo n) (combine (seq i (length fields)) fields)
                (rels, md0, name0, parentPath0)
      = (rels', walkRelations repo rels fields, List.last fields "", parentPath').
Proof.
  induction fields as [|f rest IH]; [done|]. intros _ i rels md0 name0 pp0.
  cbn [length seq combine fold_left].
  assert (match rels with
          | [] => None
          | _ => findRelation rels f
          end = findRelation rels f) as Hfound by by destruct rels.
  unfold reduceStep at 2. rewrite Hfound.
  destruct rest as [|f' rest'].
  - cbn [length seq combine fold_left walkRelations List.last].
    destruct (findRelation rels f) as [found|]; [|by eexists _, _].
    destruct (inverseEntityMetadata repo found); by eexists _, _.
  - set (pp := if bool_decide (i ≠ n - 1) then _ else _).
    assert (f' :: rest' ≠ []) as Hne by done.
    destruct (findRelation rels f) as [found|] eqn:Hf.
    + destruct (inverseEntityMetadata repo found) as [md|] eqn:Hmd.
      * destruct (IH Hne (S i) (relations md) (Some md) f pp)
          as (rels' & pp' & ->).
        exists rels', pp'. cbn [walkRelations]. by rewrite Hf, Hmd.
      * destruct (IH Hne (S i) [] None f pp) as (rels' & pp' & ->).
        exists rels', pp'. cbn [walkRelations]. by rewrite Hf, Hmd.
    + destruct (IH Hne (S i) [] None f pp) as (rels' & pp' & ->).
      exists rels', pp'. cbn [walkRelations]. by rewrite Hf.
Qed.

Lemma resolveRelation_walks field cache :
  match walkRelations repo (relations (metadata repo)) (Str.split dot field) with
  | Some md =>
      ∃ path,
        resolveRelation repo rootAlias field cache
        = Some (mkAllowedRelation field (List.last (Str.split dot field) "")
                  path (bool_decide (1 < depth field)) md)
  | None => resolveRelation repo rootAlias field cache = None
  end.
Proof.
  unfold resolveRelation, depth.
  destruct (Str.split dot field) as [|seg [|seg' segs]] eqn:Hsplit.
  - by destruct (split_not_nil dot field).
  - cbn [walkRelations List.last].
    destruct (findRelation _ seg) as [found|]; [|done].
    destruct (inverseEntityMetadata repo found) as [md|]; [|done].
    by eexists.
  - assert (seg :: seg' :: segs ≠ []) as Hne by done.
    destruct (reduce_walks (length (seg :: seg' :: segs)) _ Hne 0
                (relations (metadata repo)) None "" "")
      as (rels' & pp' & ->).
    destruct (walkRelations _ _ _) as [md|]; [|done]. by eexists.
Qed.

(** X9.  What a path resolves to.  A path that is not cached resolves
    exactly when its segments form a chain of relations from the root
    entity, each segment a relation of the entity the segments before it
    lead to.  The relation then registered under the path carries the last
    segment as its name and the columns and primary columns of the entity
    the chain ends in, with every column allowed; the rest of the helper is
    unchanged.  A path whose chain breaks anywhere resolves to nothing and
    leaves the helper untouched. *)
Theorem resolution_walks_the_relation_chain field st :
  entityRelationsHash st !! field = None →
  match walkRelations repo (relations (metadata repo)) (Str.split dot field) with
  | Some md =>
      ∃ r st',
        getRelationMetadata repo rootAlias field st = (Some r, st')
        ∧ ar_alias r = field
        ∧ ar_name r = List.last (Str.split dot field) ""
        ∧ ar_nested r = bool_decide (1 < depth field)
        ∧ ar_columns r = map propertyPath (columns md)
        ∧ ar_primaryColumns r = map propertyPath (primaryColumns md)
        ∧ ar_allowedColumns r = Some (ar_columns r)
        ∧ entityRelationsHash st' = <[field := r]> (entityRelationsHash st)
        ∧ builder st' = builder st ∧ selectedFields st' = selectedFields st
        ∧ paramIndex st' = paramIndex st
  | None => getRelationMetadata repo rootAlias field st = (None, st)
  end.
Proof.
  intros Hmiss. pose proof (resolveRelation_walks field (entityRelationsHash st))
    as Hresolve.
  unfold getRelationMetadata. rewrite Hmiss.
  destruct (walkRelations _ _ _) as [md|].
  - destruct Hresolve as (path & ->). unfold mkAllowedRelation. simpl.
    eexists _, _. split; [done|]. by split_and!.
  - by rewrite Hresolve.
Qed.

(** ** Values that are not read, and arrays as conditions *)

Lemma compileOperators_replace key op v1 v2 ops1 ops2 :
  (∀ column st, parse' column v1 op st = parse' column v2 op st) →
  ∀ queryParts params st,
    compileOperators normalizeColumnName repo rootAlias extraOperatorValue
      key (ops1 ++ (op, v1) :: ops2) queryParts params st
    = compileOperators normalizeColumnName repo rootAlias extraOperatorValue
        key (ops1 ++ (op, v2) :: ops2) queryParts params st.
Proof.
  intros Hparse. induction ops1 as [|[op' v'] ops1 IH];
    intros queryParts params st; cbn [app compileOperators].
  - destruct (getFieldWithAlias' key false st) as [[column st1]|];
      cbn [bindR]; [|done].
    by rewrite Hparse.
  - destruct (getFieldWithAlias' key false st) as [[column st1]|];
      cbn [bindR]; [|done].
    destruct (parse' column v' op' st1) as [[c st2]|]; cbn [bindR]; [|done].
    destruct (pushCompiled c queryParts params). apply IH.
Qed.

(** X17.  The null tests and the boolean tests do not read their value:
    [$isNull], [$isNotNull], [$isTrue] and [$isFalse] compile to the same
    test whatever value the filter gives them, so [{$isNull: false}] is
    still the test [IS NULL].  Exchanging the value of such an operator
    anywhere in a filter changes nothing of what the filter compiles to. *)
Theorem null_and_boolean_tests_ignore_their_value
    o field v1 v2 ops1 ops2 props1 props2 st :
  distinctOperatorValues extraOperatorValue →
  o ∈ [IS_NULL; IS_NOT_NULL; IS_TRUE; IS_FALSE] →
  isLogicalKey field = false →
  buildWhereQueryAndParams normalizeColumnName repo rootAlias extraOperatorValue
    (JObj (props1
             ++ (field, JObj (ops1 ++ (operatorValue extraOperatorValue o, v1)
                                :: ops2)) :: props2)) st
  = buildWhereQueryAndParams normalizeColumnName repo rootAlias
      extraOperatorValue
      (JObj (props1
               ++ (field, JObj (ops1 ++ (operatorValue extraOperatorValue o, v2)
                                  :: ops2)) :: props2)) st.
Proof.
  intros Hdistinct Ho Hfield. rewrite !compile_object.
  rewrite (compileEntries_replace compile'
             (field, JObj (ops1 ++ (operatorValue extraOperatorValue o, v1)
                             :: ops2))
             (field, JObj (ops1 ++ (operatorValue extraOperatorValue o, v2)
                             :: ops2))); [done|].
  intros queryParts params st0. cbn [compileEntries]. rewrite Hfield.
  rewrite (compileOperators_replace field
             (operatorValue extraOperatorValue o) v1 v2); [done|].
  intros column st1. unfold parseWhereObjectToQueryAndParams, emitOperator.
  rewrite (switchOperator_value o Hdistinct).
  repeat (apply elem_of_cons in Ho as [->|Ho]); try done.
  by apply elem_of_nil in Ho.
Qed.

(** X18.  Arrays as filters.  At the root, [build] takes an array for the
    AND group of its elements.  Anywhere below the root an array is no
    group: the compiler enumerates it like any object, so it compiles as
    the object that has the indices of the array for field names and the
    elements for their values. *)
Theorem arrays_as_filters items st :
  WhereQueryBuilder_build normalizeColumnName repo rootAlias extraOperatorValue
    (JArr items) st
  = WhereQueryBuilder_build normalizeColumnName repo rootAlias
      extraOperatorValue (JObj [("$and", JArr items)]) st
  ∧ buildWhereQueryAndParams normalizeColumnName repo rootAlias
      extraOperatorValue (JArr items) st
    = buildWhereQueryAndParams normalizeColumnName repo rootAlias
        extraOperatorValue (JObj (entries (JArr items))) st.
Proof.
  split.
  - destruct items as [|item items]; [done|].
    unfold WhereQueryBuilder_build. by cbn [truthy negb isArray entries].
  - destruct items as [|item items]; [done|].
    rewrite compile_object.
    cbn [buildWhereQueryAndParams truthy negb entries indexedFrom].
    rewrite (compileEntries_indexed _ compile' 0 (item :: items)).
    cbn [indexedFrom].
    by destruct (compileEntries _ _ _ _ _ _ _ _ _) as [[[??]?]|].
Qed.

(** ** Aliases *)

(** Turning the dots of a path into underscores is joining its segments
    with underscores. *)
Lemma replaceAll_join s :
  Str.replaceAll dot "_" s = Str.join "_" (Str.split dot s).
Proof.
  induction s as [|c rest IH]; [done|]. simpl.
  destruct (Str.split dot rest) as [|seg segs] eqn:E.
  - by destruct (split_not_nil dot rest).
  - destruct (Ascii.eqb c dot).
    + rewrite IH. by rewrite join_cons2, append_nil_l.
    + rewrite IH. by destruct segs.
Qed.

Lemma split_app_last path column :
  Str.occurs dot column = false →
  Str.split dot (path +:+ "." +:+ column) = Str.split dot path ++ [column].
Proof.
  intros Hclean. induction path as [|c rest IH].
  - rewrite append_nil_l, append_cons, append_nil_l. simpl.
    by rewrite (split_clean _ _ Hclean).
  - rewrite append_cons. simpl. rewrite IH.
    destruct (Str.split dot rest) as [|seg segs] eqn:E.
    + by destruct (split_not_nil dot rest).
    + simpl. by destruct (Ascii.eqb c dot).
Qed.

Lemma last_snoc (l : list string) x d : List.last (l ++ [x]) d = x.
Proof. induction l as [|y l IH]; [done|]. simpl. rewrite IH. by destruct l. Qed.

Lemma removelast_snoc (l : list string) x : removelast (l ++ [x]) = l.
Proof.
  induction l as [|y l IH]; [done|]. simpl. rewrite IH. by destruct l.
Qed.

Lemma removelast_take (l : list string) : removelast l = take (length l - 1) l.
Proof.
  induction l as [|y l IH]; [done|]. simpl. rewrite IH.
  destruct l as [|z l]; [done|]. simpl. by rewrite Nat.sub_0_r.
Qed.

(** X10.  Filters and joins agree on aliases.  The planner joins a path
    under the alias that has an underscore for every dot of the path; a
    field made of that path and a column name, unless the whole field is
    itself a chain of relations, is resolved to that same alias followed by
    the column, and resolving it leaves the helper as it was. *)
Theorem filter_column_uses_join_alias path column useDbField st :
  Str.occurs dot column = false →
  fst (getRelationMetadata repo rootAlias (path +:+ "." +:+ column) st) = None →
  (∀ options st0 st0',
      setJoin isArrayFull repo rootAlias path options st0 = Ok st0' →
      ∃ j, joins (builder st0') = joins (builder st0) ++ [j]
           ∧ joinAlias j = Str.replaceAll dot "_" path)
  ∧ getFieldWithAlias normalizeColumnName repo rootAlias
      (path +:+ "." +:+ column) useDbField st
    = let* c := normalizeColumnName
                  (Some (Str.replaceAll dot "_" path +:+ "." +:+ column))
                  (getIdentifierQuote repo) in
      Ok (c, st).
Proof.
  intros Hclean Hnone. split.
  - intros options st0 st0' [(property & ->) _]%setJoin_ok. by eexists.
  - unfold getFieldWithAlias. rewrite (split_app_last _ _ Hclean).
    destruct (Str.split dot path) as [|seg segs] eqn:Hsplit.
    { by destruct (split_not_nil dot path). }
    rewrite replaceAll_join, Hsplit.
    change ((seg :: segs) ++ [column]) with (seg :: (segs ++ [column])).
    destruct (segs ++ [column]) as [|seg' segs'] eqn:Happ.
    { by destruct segs. }
    rewrite <-Happ.
    change (seg :: (segs ++ [column])) with ((seg :: segs) ++ [column]).
    rewrite last_snoc, removelast_snoc.
    destruct (getRelationMetadata repo rootAlias _ st) as [[r|] st1] eqn:Hget;
      [done|].
    by rewrite (getRelationMetadata_none _ _ _ Hget).
Qed.

(** ** The joins in full *)

Lemma cacheRooted_ext st st' :
  entityRelationsHash st' = entityRelationsHash st →
  cacheRooted rootAlias st → cacheRooted rootAlias st'.
Proof. intros Heq Hrooted p r. rewrite Heq. apply Hrooted. Qed.

Lemma getRelationMetadata_cacheRooted field st :
  cacheRooted rootAlias st →
  cacheRooted rootAlias (snd (getRelationMetadata repo rootAlias field st)).
Proof.
  intros Hrooted p r Hp Hdepth.
  destruct (decide (p = field)) as [->|Hne].
  - revert Hp. unfold getRelationMetadata, resolveRelation.
    destruct (entityRelationsHash st !! field) as [cached|] eqn:Hcache.
    + simpl. rewrite lookup_insert_eq. intros [= <-]. simpl. by eapply Hrooted.
    + destruct (Str.split dot field) as [|seg [|seg' segs]] eqn:Hsplit;
        [done| |done].
      destruct (single_segment _ _ Hsplit) as [-> _].
      destruct (findRelation _ field) as [found|];
        [|simpl; by rewrite Hcache].
      destruct (inverseEntityMetadata repo found) as [md|];
        [|simpl; by rewrite Hcache].
      simpl. rewrite lookup_insert_eq. by intros [= <-].
  - destruct (getRelationMetadata_frame field st) as (_ & _ & _ & _ & Hframe).
    rewrite Hframe in Hp by done. by eapply Hrooted.
Qed.

Lemma parentAlias_join name seg seg' segs :
  Str.split dot name = seg :: seg' :: segs →
  Str.join "_" (removelast (Str.split dot name))
  = Str.replaceAll dot "_" (parentPath name).
Proof.
  intros Hsplit. unfold parentPath, depth.
  rewrite replaceAll_join, <-removelast_take.
  rewrite (split_join dot); [done| |].
  - by rewrite Hsplit.
  - pose proof (split_segments_clean dot name) as Hclean.
    rewrite removelast_take. by apply Forall_take.
Qed.

Lemma fresh_cache_rooted : cacheRooted rootAlias (newFindQueryBuilder repo).
Proof.
  intros p r Hp. simpl in Hp. by rewrite lookup_empty in Hp.
Qed.

(** *** Plain names and alias properties *)

Lemma occurs_app c s t :
  Str.occurs c (s +:+ t) = Str.occurs c s || Str.occurs c t.
Proof.
  induction s as [|x s IH]; [done|]. rewrite append_cons. simpl.
  by rewrite IH, orb_assoc.
Qed.

Lemma occurs_join c sep parts :
  Str.occurs c sep = false →
  Forall (fun seg => Str.occurs c seg = false) parts →
  Str.occurs c (Str.join sep parts) = false.
Proof.
  intros Hsep. induction 1 as [|seg rest Hseg Hrest IH]; [done|].
  destruct rest as [|seg' rest']; [done|].
  rewrite join_cons2, !occurs_app, Hseg, Hsep. by rewrite IH.
Qed.

Lemma plainName_spec s :
  plainName s = true ↔
  Str.isEmpty s = false ∧ Str.occurs dot s = false
  ∧ Str.occurs "("%char s = false ∧ Str.occurs ")"%char s = false.
Proof.
  unfold plainName. rewrite !andb_true_iff, !negb_true_iff. tauto.
Qed.

Lemma plainName_join segs :
  segs ≠ [] → Forall (fun seg => plainName seg = true) segs →
  plainName (Str.join "_" segs) = true.
Proof.
  intros Hne Hall. apply plainName_spec. split_and!.
  - destruct segs as [|seg rest]; [done|].
    apply Forall_cons in Hall as [(Hseg & _)%plainName_spec _].
    destruct rest; [done|]. rewrite join_cons2. by apply isEmpty_app_l.
  - apply occurs_join; [done|].
    eapply Forall_impl; [exact Hall|]. by intros ? (_ & ? & _)%plainName_spec.
  - apply occurs_join; [done|].
    eapply Forall_impl; [exact Hall|]. by intros ? (_ & _ & ? & _)%plainName_spec.
  - apply occurs_join; [done|].
    eapply Forall_impl; [exact Hall|]. by intros ? (_ & _ & _ & ?)%plainName_spec.
Qed.

Lemma plainPath_segments p :
  plainPath p = true → Forall (fun seg => plainName seg = true) (Str.split dot p).
Proof.
  unfold plainPath. rewrite forallb_forall, Forall_forall.
  intros Hall seg Hseg. apply Hall. by apply list_elem_of_In.
Qed.

(** The property [<alias>.<relation>] of two plain names is an alias
    property, and the ORM reads the two names back from it. *)
Lemma aliasProperty_plain a r :
  plainName a = true → plainName r = true →
  isAliasProperty (a +:+ "." +:+ r) = true
  ∧ parentAliasOf (a +:+ "." +:+ r) = a
  ∧ relationPropertyPathOf (a +:+ "." +:+ r) = r.
Proof.
  intros (Ha & Hadot & Hal & Har)%plainName_spec
         (Hr & Hrdot & Hrl & Hrr)%plainName_spec.
  assert (Str.split dot (a +:+ "." +:+ r) = [a; r]) as Hsplit.
  { rewrite (split_app_last _ _ Hrdot). by rewrite (split_clean _ _ Hadot). }
  unfold isAliasProperty, parentAliasOf, relationPropertyPathOf.
  rewrite Hsplit, !occurs_app, Ha, Hr, Hal, Har, Hrl, Hrr. simpl.
  by rewrite orb_true_r.
Qed.

Lemma findAliasByName_unique a v (table : list (string * option EntityMetadata)) :
  NoDup (map fst table) → (a, v) ∈ table → findAliasByName a table = Some v.
Proof.
  unfold findAliasByName.
  induction table as [|[a' v'] table IH]; simpl.
  - by intros _ ?%elem_of_nil.
  - intros [Hhead Htail]%NoDup_cons [[= <- <-]|Hin]%elem_of_cons.
    + by rewrite bool_decide_eq_true_2.
    + rewrite bool_decide_eq_false_2; [by apply IH|].
      intros ->. apply Hhead. apply list_elem_of_fmap. by exists (a, v).
Qed.

(** The last step of a chain of relations. *)
Lemma walkRelations_snoc rels init name :
  init ≠ [] →
  walkRelations repo rels (init ++ [name])
  = match walkRelations repo rels init with
    | Some md => walkRelations repo (relations md) [name]
    | None => None
    end.
Proof.
  revert rels. induction init as [|x init IH]; [done|]. intros rels _.
  destruct init as [|y init].
  - simpl. destruct (findRelation rels x) as [found|]; [|done].
    by destruct (inverseEntityMetadata repo found).
  - change ((x :: y :: init) ++ [name]) with (x :: (y :: init) ++ [name]).
    cbn [walkRelations app].
    destruct (findRelation rels x) as [found|]; [|done].
    destruct (inverseEntityMetadata repo found) as [md|]; [|done].
    by apply (IH (relations md)).
Qed.

(** The ORM accepts the join of a relation of the entity its parent alias
    stands for, and refuses what is no relation of that entity. *)
Lemma join_accepts k a r alias_ b owner :
  plainName a = true → plainName r = true →
  findAliasByName a (aliases b) = Some (Some owner) →
  join_ repo k (Some (a +:+ "." +:+ r)) alias_ b
  = match walkRelations repo (relations owner) [r] with
    | Some md =>
        Ok {| alias := alias b;
              aliases := aliases b ++ [(alias_, Some md)];
              joins := joins b
                       ++ [ {| joinKind := k;
                               joinProperty := Some (a +:+ "." +:+ r);
                               joinAlias := alias_ |} ];
              wheres := wheres b; findOptions := findOptions b;
              selects := selects b; orderBys := orderBys b |}
    | None =>
        Throw (TypeORMError ("Relation with property path " +:+ r
                               +:+ " in entity was not found."))
    end.
Proof.
  intros Ha Hr Halias.
  destruct (aliasProperty_plain a r Ha Hr) as (Hprop & Hparent & Hpath).
  unfold join_. rewrite Hprop, Hparent, Hpath, Halias.
  unfold findRelationWithPropertyPath. cbn [walkRelations].
  unfold findRelation.
  destruct (find _ (relations owner)) as [relation|]; [|done].
  by destruct (inverseEntityMetadata repo relation).
Qed.

(** *** A faithful cache *)

Lemma root_target p :
  depth p = 1 →
  rootRelationExists repo p = bool_decide (is_Some (targetOf repo p)).
Proof.
  intros [seg Hsplit]%depth_one. destruct (single_segment _ _ Hsplit) as [-> _].
  unfold rootRelationExists, targetOf. rewrite Hsplit. cbn [walkRelations].
  destruct (findRelation _ p) as [found|].
  - destruct (inverseEntityMetadata repo found) as [md|].
    + by rewrite !bool_decide_eq_true_2.
    + rewrite !bool_decide_eq_false_2; [done|by intros [? [=]]..].
  - rewrite bool_decide_eq_false_2; [done|by intros [? [=]]].
Qed.

Lemma cacheFaithful_rooted st :
  cacheFaithful repo rootAlias st → cacheRooted rootAlias st.
Proof.
  intros Hfaithful p r Hp Hdepth.
  destruct (Hfaithful p r Hp) as (md & _ & _ & _ & _ & Hpath). by apply Hpath.
Qed.

Lemma cacheFaithful_sound st :
  cacheFaithful repo rootAlias st → cacheSound repo st.
Proof.
  intros Hfaithful p Hdepth Hroot.
  destruct (entityRelationsHash st !! p) as [r|] eqn:Hp; [|done].
  destruct (Hfaithful p r Hp) as (md & Htarget & _).
  rewrite (root_target p Hdepth), Htarget in Hroot.
  by rewrite bool_decide_eq_true_2 in Hroot.
Qed.

Lemma cacheFaithful_ext st st' :
  entityRelationsHash st' = entityRelationsHash st →
  cacheFaithful repo rootAlias st → cacheFaithful repo rootAlias st'.
Proof. intros Heq Hfaithful p r. rewrite Heq. apply Hfaithful. Qed.

Lemma fresh_cache_faithful : cacheFaithful repo rootAlias (newFindQueryBuilder repo).
Proof. intros p r Hp. simpl in Hp. by rewrite lookup_empty in Hp. Qed.

(** A lookup keeps the cache faithful, and says of a path that leads to an
    entity what that entity is. *)
Lemma getRelationMetadata_faithful field st :
  cacheFaithful repo rootAlias st →
  let '(found, st1) := getRelationMetadata repo rootAlias field st in
  cacheFaithful repo rootAlias st1
  ∧ builder st1 = builder st ∧ selectedFields st1 = selectedFields st
  ∧ match targetOf repo field with
    | Some md =>
        ∃ r, found = Some r
             ∧ ar_columns r = map propertyPath (columns md)
             ∧ ar_primaryColumns r = map propertyPath (primaryColumns md)
             ∧ ar_allowedColumns r = Some (ar_columns r)
             ∧ (depth field = 1 → ar_path r = Some (rootAlias +:+ "." +:+ field))
    | None => found = None
    end.
Proof.
  intros Hfaithful.
  pose proof (getRelationMetadata_frame field st) as (Hb & Hs & _ & _ & Hframe).
  pose proof (getRelationMetadata_cacheRooted field st
                (cacheFaithful_rooted st Hfaithful)) as Hrooted.
  pose proof (resolveRelation_walks field (entityRelationsHash st)) as Hwalk.
  fold (targetOf repo field) in Hwalk.
  destruct (getRelationMetadata repo rootAlias field st) as [found st1] eqn:Hget.
  simpl in Hb, Hs, Hframe, Hrooted.
  assert (match targetOf repo field with
          | Some md =>
              ∃ r, found = Some r
                   ∧ ar_columns r = map propertyPath (columns md)
                   ∧ ar_primaryColumns r = map propertyPath (primaryColumns md)
                   ∧ ar_allowedColumns r = Some (ar_columns r)
                   ∧ (depth field = 1 →
                      ar_path r = Some (rootAlias +:+ "." +:+ field))
          | None => found = None
          end) as Hfound.
  { revert Hget. unfold getRelationMetadata.
    destruct (entityRelationsHash st !! field) as [cached|] eqn:Hcache.
    - destruct (Hfaithful field cached Hcache)
        as (md & -> & Hcols & Hkeys & Hallowed & Hpath).
      intros [= <- <-]. eexists. split; [done|]. simpl. by split_and!.
    - destruct (targetOf repo field) as [md|].
      + destruct Hwalk as (path & ->). unfold mkAllowedRelation. simpl.
        intros [= <- <-]. eexists. split; [done|]. split_and!; try done.
        intros Hdepth. apply (Hrooted field); [|done]. simpl.
        by rewrite lookup_insert_eq.
      + rewrite Hwalk. by intros [= <- <-]. }
  split_and!; try done.
  intros p r Hp. destruct (decide (p = field)) as [->|Hne].
  - destruct (targetOf repo field) as [md|] eqn:Htarget.
    + destruct Hfound as (r' & -> & Hcols & Hkeys & Hallowed & Hpath).
      apply getRelationMetadata_saved in Hget as [_ Hsaved].
      rewrite Hsaved in Hp. injection Hp as <-. exists md. by split_and!.
    + subst found. apply getRelationMetadata_none in Hget as ->.
      destruct (Hfaithful field r Hp) as (md & Htarget' & _). congruence.
  - rewrite Hframe in Hp by done. by apply Hfaithful.
Qed.

(** *** One accepted join *)

Lemma addSelected_selected fields st :
  selectedFields (addSelected fields st)
  = fold_left (fun s f => setAdd f s) fields (selectedFields st).
Proof.
  revert st. induction fields as [|f fields IH]; intros st; [done|].
  simpl. by rewrite IH.
Qed.

Lemma setAdd_old x (s : list string) : x ∈ s → setAdd x s = s.
Proof. intros Hin. unfold setAdd. by rewrite bool_decide_eq_true_2. Qed.

Lemma setAdd_new x (s : list string) : x ∉ s → setAdd x s = s ++ [x].
Proof. intros Hnot. unfold setAdd. by rewrite bool_decide_eq_false_2. Qed.

Lemma fold_setAdd_nested l acc s :
  fold_left (fun s f => setAdd f s)
            (fold_left (fun s f => setAdd f s) l acc) s
  = fold_left (fun s f => setAdd f s) l
              (fold_left (fun s f => setAdd f s) acc s).
Proof.
  revert acc. induction l as [|x l IH]; intros acc; [done|].
  simpl. rewrite IH. f_equal.
  destruct (decide (x ∈ acc)) as [Hin|Hnot].
  - rewrite (setAdd_old x acc Hin). symmetry. apply setAdd_old.
    apply fold_setAdd_elem. by right.
  - by rewrite (setAdd_new x acc Hnot), fold_left_app.
Qed.

(** Registering a list through a [Set] of it registers the list. *)
Lemma addSelected_newSet l st :
  selectedFields (addSelected (newSet l) st)
  = fold_left (fun s f => setAdd f s) l (selectedFields st).
Proof. rewrite addSelected_selected. apply fold_setAdd_nested. Qed.

Lemma filter_isAllowed allowed sel :
  List.filter (isAllowed allowed) sel
  = List.filter (fun c => bool_decide (c ∈ allowed)) sel.
Proof.
  apply List.filter_ext. intros c. unfold isAllowed.
  induction allowed as [|a allowed IH]; cbn [existsb].
  - rewrite bool_decide_eq_false_2; [done|]. apply not_elem_of_nil.
  - rewrite IH. destruct (decide (a = c)) as [->|Hne].
    + rewrite (bool_decide_eq_true_2 (c = c)) by done.
      rewrite (bool_decide_eq_true_2 (c ∈ c :: allowed)) by by left. done.
    + rewrite (bool_decide_eq_false_2 (a = c)) by done. cbn [orb].
      apply bool_decide_ext. rewrite elem_of_cons.
      split; [by right|]. by intros [->|?].
Qed.

Lemma aliasTable_snoc processed p :
  aliasTable repo rootAlias (processed ++ [p])
  = aliasTable repo rootAlias processed
    ++ [(Str.replaceAll dot "_" p, targetOf repo p)].
Proof. unfold aliasTable. by rewrite map_app. Qed.

Lemma aliasTable_names processed :
  map fst (aliasTable repo rootAlias processed)
  = rootAlias :: map (Str.replaceAll dot "_") processed.
Proof. unfold aliasTable. simpl. by rewrite map_map. Qed.

Ltac builder_after :=
  match goal with
  | |- context [builder (addSelected ?fields ?s)] =>
      destruct (addSelected_frame fields s) as (-> & _)
  end.

Ltac faithful_after st H :=
  match goal with
  | |- cacheFaithful _ _ (addSelected ?fields ?s) =>
      apply (cacheFaithful_ext st);
      [by destruct (addSelected_frame fields s) as (_ & ? & _)|exact H]
  end.

(** One call of [setJoin] at a path that leads to an entity, on a builder
    on which the parent of the path has been joined: the join is accepted,
    the alias stands for the entity, and the columns are registered. *)
Lemma setJoin_run p options processed st md :
  aliases (builder st) = aliasTable repo rootAlias processed →
  cacheFaithful repo rootAlias st →
  plainName rootAlias = true → plainPath p = true →
  NoDup (rootAlias :: map (Str.replaceAll dot "_") processed) →
  (1 < depth p → parentPath p ∈ processed) →
  targetOf repo p = Some md →
  ∃ st',
    setJoin' p options st = Ok st'
    ∧ joins (builder st')
      = joins (builder st)
        ++ [ {| joinKind := relationType options;
                joinProperty := Some (joinedProperty rootAlias p);
                joinAlias := Str.replaceAll dot "_" p |} ]
    ∧ aliases (builder st') = aliasTable repo rootAlias (processed ++ [p])
    ∧ selectedFields st'
      = fold_left (fun s f => setAdd f s)
                  (registeredFor isArrayFull repo (rov_select options) p)
                  (selectedFields st)
    ∧ cacheFaithful repo rootAlias st'.
Proof.
  intros Htable Hfaithful Hroot Hplain Hnodup Hparent Htarget.
  pose proof (plainPath_segments p Hplain) as Hsegs.
  unfold setJoin, joinedProperty, registeredFor, explicitSelect.
  rewrite Htarget, aliasTable_snoc, Htarget.
  destruct (Str.split dot p) as [|seg [|seg' segs]] eqn:Hsplit.
  - by destruct (split_not_nil dot p).
  - assert (depth p = 1) as Hdepth by (unfold depth; by rewrite Hsplit).
    destruct (single_segment _ _ Hsplit) as [-> Hclean].
    apply Forall_cons in Hsegs as [Hp _].
    rewrite !bool_decide_eq_true_2 by done.
    rewrite (replaceAll_clean _ _ _ Hclean).
    pose proof (getRelationMetadata_faithful p st Hfaithful) as Hget.
    rewrite Htarget in Hget.
    destruct (getRelationMetadata repo rootAlias p st) as [found st1].
    destruct Hget as (Hf1 & Hb1 & Hs1 & r & -> & Hcols & Hkeys & Hallowed & Hpath).
    rewrite (Hpath Hdepth), Hb1.
    rewrite (join_accepts _ rootAlias p p (builder st) (metadata repo) Hroot Hp).
    2:{ rewrite Htable. unfold findAliasByName, aliasTable. simpl.
        by rewrite bool_decide_eq_true_2. }
    assert (walkRelations repo (relations (metadata repo)) [p] = Some md) as ->.
    { unfold targetOf in Htarget. by rewrite Hsplit in Htarget. }
    cbn [bindR]. eexists. split; [done|]. split_and!.
    + by builder_after.
    + builder_after. simpl. by rewrite Htable.
    + rewrite addSelected_newSet. simpl.
      rewrite Hs1, Hallowed, Hkeys, Hcols. unfold qualify.
      destruct (rov_select options) as [sel|]; [|done].
      destruct (isArrayFull (Some sel)); [|done].
      by rewrite filter_isAllowed.
    + faithful_after st1 Hf1.
  - assert (depth p ≠ 1) as Hdepth by (unfold depth; by rewrite Hsplit).
    assert (1 < depth p) as Hdeep by (unfold depth; rewrite Hsplit; simpl; lia).
    rewrite !bool_decide_eq_false_2 by done.
    rewrite <-Hsplit, (parentAlias_join p seg seg' segs Hsplit).
    rewrite <-Hsplit in Hsegs.
    (* the parent alias stands for the entity the parent path leads to *)
    assert (Str.split dot (parentPath p) = removelast (Str.split dot p))
      as Hparentsplit.
    { unfold parentPath. rewrite removelast_take. apply depth_parentPath.
      unfold depth in Hdeep |- *. lia. }
    assert (Str.split dot p
            = removelast (Str.split dot p) ++ [List.last (Str.split dot p) ""])
      as Hsnoc.
    { apply app_removelast_last. by rewrite Hsplit. }
    assert (removelast (Str.split dot p) ≠ []) as Hinit by by rewrite Hsplit.
    assert (∃ owner,
               targetOf repo (parentPath p) = Some owner
               ∧ walkRelations repo (relations owner)
                   [List.last (Str.split dot p) ""] = Some md)
      as (owner & Howner & Hlast).
    { unfold targetOf in *. rewrite Hparentsplit.
      rewrite Hsnoc, (walkRelations_snoc _ _ _ Hinit) in Htarget.
      destruct (walkRelations _ _ (removelast _)) as [owner|]; [|done].
      by exists owner. }
    assert (plainName (Str.replaceAll dot "_" (parentPath p)) = true) as Hpa.
    { rewrite replaceAll_join, Hparentsplit. apply plainName_join; [done|].
      rewrite removelast_take. by apply Forall_take. }
    assert (plainName (List.last (Str.split dot p) "") = true) as Hpl.
    { rewrite Forall_forall in Hsegs. apply Hsegs.
      rewrite Hsnoc at 2. apply elem_of_app. right. by left. }
    rewrite (join_accepts _ _ _ _ (builder st) owner Hpa Hpl).
    2:{ rewrite Htable. apply findAliasByName_unique.
        - by rewrite aliasTable_names.
        - right. apply list_elem_of_fmap. exists (parentPath p).
          split; [by rewrite Howner|by apply Hparent]. }
    rewrite Hlast. cbn [bindR].
    set (st1 := setBuilder _ st).
    pose proof (getRelationMetadata_faithful p st1
                  (cacheFaithful_ext st st1 eq_refl Hfaithful)) as Hget.
    rewrite Htarget in Hget.
    destruct (getRelationMetadata repo rootAlias p st1) as [found st2].
    destruct Hget as (Hf2 & Hb2 & Hs2 & r & -> & Hcols & Hkeys & Hallowed & Hpath).
    rewrite Hallowed, Hkeys, Hcols. unfold qualify.
    destruct (rov_select options) as [sel|].
    + destruct (isArrayFull (Some sel)); eexists; (split; [done|]); split_and!.
      * builder_after. by rewrite Hb2.
      * builder_after. rewrite Hb2. simpl. by rewrite Htable.
      * by rewrite addSelected_selected, Hs2, filter_isAllowed.
      * faithful_after st2 Hf2.
      * builder_after. by rewrite Hb2.
      * builder_after. rewrite Hb2. simpl. by rewrite Htable.
      * by rewrite addSelected_newSet, Hs2.
      * faithful_after st2 Hf2.
    + eexists. split; [done|]. split_and!.
      * builder_after. by rewrite Hb2.
      * builder_after. rewrite Hb2. simpl. by rewrite Htable.
      * by rewrite addSelected_newSet, Hs2.
      * faithful_after st2 Hf2.
Qed.

(** One call of [setJoin] at a path that leads nowhere, its parent joined:
    the planner throws for a path of one segment, the ORM refuses the join
    of a longer one. *)
Lemma setJoin_unresolved p options processed st :
  aliases (builder st) = aliasTable repo rootAlias processed →
  cacheFaithful repo rootAlias st →
  plainName rootAlias = true → plainPath p = true →
  NoDup (rootAlias :: map (Str.replaceAll dot "_") processed) →
  (1 < depth p →
   parentPath p ∈ processed ∧ is_Some (targetOf repo (parentPath p))) →
  targetOf repo p = None →
  setJoin' p options st = Throw (unresolvedError p).
Proof.
  intros Htable Hfaithful Hroot Hplain Hnodup Hparent Htarget.
  pose proof (plainPath_segments p Hplain) as Hsegs.
  unfold unresolvedError.
  destruct (decide (depth p = 1)) as [Hdepth|Hdepth].
  - rewrite bool_decide_eq_true_2 by done. apply setJoin_throws; [done| |].
    + rewrite (root_target p Hdepth), Htarget.
      apply bool_decide_eq_false_2. by intros [? [=]].
    + apply (cacheFaithful_sound st Hfaithful p Hdepth).
      rewrite (root_target p Hdepth), Htarget.
      apply bool_decide_eq_false_2. by intros [? [=]].
  - rewrite bool_decide_eq_false_2 by done. unfold setJoin.
    destruct (Str.split dot p) as [|seg [|seg' segs]] eqn:Hsplit.
    { by destruct (split_not_nil dot p). }
    { destruct Hdepth. unfold depth. by rewrite Hsplit. }
    assert (1 < depth p) as Hdeep by (unfold depth; rewrite Hsplit; simpl; lia).
    destruct (Hparent Hdeep) as [Hin [owner Howner]].
    rewrite <-Hsplit, (parentAlias_join p seg seg' segs Hsplit).
    rewrite <-Hsplit in Hsegs.
    assert (Str.split dot (parentPath p) = removelast (Str.split dot p))
      as Hparentsplit.
    { unfold parentPath. rewrite removelast_take. apply depth_parentPath.
      unfold depth in Hdeep |- *. lia. }
    assert (Str.split dot p
            = removelast (Str.split dot p) ++ [List.last (Str.split dot p) ""])
      as Hsnoc.
    { apply app_removelast_last. by rewrite Hsplit. }
    assert (removelast (Str.split dot p) ≠ []) as Hinit by by rewrite Hsplit.
    assert (walkRelations repo (relations owner)
              [List.last (Str.split dot p) ""] = None) as Hlast.
    { unfold targetOf in *. rewrite Hparentsplit in Howner.
      rewrite Hsnoc, (walkRelations_snoc _ _ _ Hinit) in Htarget.
      by rewrite Howner in Htarget. }
    assert (plainName (Str.replaceAll dot "_" (parentPath p)) = true) as Hpa.
    { rewrite replaceAll_join, Hparentsplit. apply plainName_join; [done|].
      rewrite removelast_take. by apply Forall_take. }
    assert (plainName (List.last (Str.split dot p) "") = true) as Hpl.
    { rewrite Forall_forall in Hsegs. apply Hsegs.
      rewrite Hsnoc at 2. apply elem_of_app. right. by left. }
    rewrite (join_accepts _ _ _ _ (builder st) owner Hpa Hpl).
    2:{ rewrite Htable. apply findAliasByName_unique.
        - by rewrite aliasTable_names.
        - right. apply list_elem_of_fmap. exists (parentPath p).
          split; [by rewrite Howner|done]. }
    by rewrite Hlast.
Qed.

(** *** A whole plan *)

(** The planner's run over a list of paths in which every path stands after
    its parent: it ends at the first path that is no chain of relations,
    and without such a path joins them all. *)
Lemma setJoins_outcome joinConfig paths processed st :
  aliases (builder st) = aliasTable repo rootAlias processed →
  cacheFaithful repo rootAlias st →
  plainName rootAlias = true →
  (∀ p, p ∈ paths → plainPath p = true) →
  NoDup (rootAlias :: map (Str.replaceAll dot "_") (processed ++ paths)) →
  (∀ q, q ∈ processed → is_Some (targetOf repo q)) →
  (∀ l1 p l2, paths = l1 ++ p :: l2 → 1 < depth p →
              parentPath p ∈ processed ++ l1) →
  match firstUnresolved repo paths with
  | Some x => setJoins' joinConfig paths st = Throw (unresolvedError x)
  | None =>
      ∃ st',
        setJoins' joinConfig paths st = Ok st'
        ∧ joins (builder st')
          = joins (builder st)
            ++ map (plannedJoinCall rootAlias joinConfig) paths
        ∧ aliases (builder st') = aliasTable repo rootAlias (processed ++ paths)
        ∧ selectedFields st'
          = fold_left (fun s f => setAdd f s)
              (List.flat_map
                 (fun p => registeredFor isArrayFull repo
                             (rov_select (joinOptions joinConfig p)) p)
                 paths)
              (selectedFields st)
        ∧ cacheFaithful repo rootAlias st'
  end.
Proof.
  revert processed st.
  induction paths as [|p paths IH];
    intros processed st Htable Hfaithful Hroot Hplain Hnodup Hdone Hparents.
  - exists st. simpl. by rewrite !app_nil_r.
  - assert (NoDup (rootAlias :: map (Str.replaceAll dot "_") processed))
      as Hnodup0.
    { rewrite map_app, app_comm_cons in Hnodup.
      by apply NoDup_app in Hnodup as [? _]. }
    assert (1 < depth p → parentPath p ∈ processed) as Hparent.
    { intros Hdeep. specialize (Hparents [] p paths eq_refl Hdeep).
      by rewrite app_nil_r in Hparents. }
    unfold firstUnresolved. cbn [find setJoins].
    destruct (targetOf repo p) as [md|] eqn:Htarget.
    + rewrite bool_decide_eq_true_2 by by eexists. cbn [negb].
      destruct (setJoin_run p (joinOptions joinConfig p) processed st md)
        as (st1 & -> & Hjoins & Haliases & Hselected & Hfaithful1); try done.
      { apply Hplain. by left. }
      cbn [bindR].
      assert (∀ q, q ∈ paths → plainPath q = true) as Hplain1.
      { intros q Hq. apply Hplain. by right. }
      assert (NoDup (rootAlias :: map (Str.replaceAll dot "_")
                                      ((processed ++ [p]) ++ paths)))
        as Hnodup1 by by rewrite <-app_assoc.
      assert (∀ q, q ∈ processed ++ [p] → is_Some (targetOf repo q)) as Hdone1.
      { intros q [Hq| ->%list_elem_of_singleton]%elem_of_app;
          [by apply Hdone|by eexists]. }
      assert (∀ l1 q l2, paths = l1 ++ q :: l2 → 1 < depth q →
                         parentPath q ∈ (processed ++ [p]) ++ l1) as Hparents1.
      { intros l1 q l2 -> Hdeep. rewrite <-app_assoc.
        apply (Hparents (p :: l1) q l2 eq_refl Hdeep). }
      pose proof (IH (processed ++ [p]) st1 Haliases Hfaithful1 Hroot Hplain1
                     Hnodup1 Hdone1 Hparents1) as Hrest.
      fold (firstUnresolved repo paths).
      destruct (firstUnresolved repo paths) as [x|]; [done|].
      destruct Hrest as (st' & -> & Hjoins' & Haliases' & Hselected' & Hf').
      exists st'. split_and!; [done| | | |done].
      * rewrite Hjoins', Hjoins, <-app_assoc. done.
      * by rewrite Haliases', <-app_assoc.
      * rewrite Hselected', Hselected. cbn [List.flat_map].
        by rewrite fold_left_app.
    + rewrite bool_decide_eq_false_2 by by intros [? [=]]. cbn [negb].
      rewrite (setJoin_unresolved p _ processed st); try done.
      * apply Hplain. by left.
      * intros Hdeep. split; [by apply Hparent|]. by apply Hdone, Hparent.
Qed.

Lemma sorted_after l1 p l2 :
  StronglySorted byDepth (l1 ++ p :: l2) → Forall (byDepth p) l2.
Proof.
  induction l1 as [|x l1 IH]; simpl; intros [Hl Hx]%StronglySorted_inv; auto.
Qed.

Lemma depth_of_parentPath p : 1 < depth p → depth (parentPath p) = depth p - 1.
Proof.
  intros Hdeep. unfold parentPath. unfold depth at 1.
  rewrite depth_parentPath by lia. rewrite length_take. unfold depth. lia.
Qed.

(** In the plan every path stands after its parent. *)
Lemma planned_parents_before joinConfig l1 p l2 :
  sortedRelations joinConfig = l1 ++ p :: l2 → 1 < depth p →
  parentPath p ∈ l1.
Proof.
  intros Hplan Hdeep.
  assert (p ∈ sortedRelations joinConfig) as Hp.
  { rewrite Hplan. apply elem_of_app. right. by left. }
  destruct (sortedRelations_parent_first joinConfig p (depth p - 1) Hp)
    as (m1 & m2 & m3 & Hsplit); [lia|].
  fold (parentPath p) in Hsplit.
  assert (parentPath p ∈ l1 ++ p :: l2) as Hin.
  { rewrite <-Hplan, Hsplit. apply elem_of_app. right. by left. }
  pose proof (depth_of_parentPath p Hdeep) as Hdepth.
  apply elem_of_app in Hin as [Hin|[Heq|Hin]%elem_of_cons]; [done| |].
  - rewrite Heq in Hdepth. lia.
  - pose proof (sortByDepth_sorted (collectAllNeededRelations joinConfig))
      as Hsorted.
    fold (sortedRelations joinConfig) in Hsorted. rewrite Hplan in Hsorted.
    apply sorted_after in Hsorted. rewrite Forall_forall in Hsorted.
    specialize (Hsorted _ Hin). unfold byDepth in Hsorted. lia.
Qed.

(** ** What the planner reads of a configuration *)

Lemma setJoin_reads name a b st :
  sameJoin a b → setJoin' name a st = setJoin' name b st.
Proof.
  intros [Hselect HjoinType].
  unfold setJoin, relationType, explicitSelect. by rewrite Hselect, HjoinType.
Qed.

Lemma setJoins_reads joinConfig1 joinConfig2 paths st :
  (∀ p, sameJoin (joinOptions joinConfig1 p) (joinOptions joinConfig2 p)) →
  setJoins' joinConfig1 paths st = setJoins' joinConfig2 paths st.
Proof.
  intros Hsame. revert st. induction paths as [|p paths IH]; intros st; [done|].
  simpl. rewrite (setJoin_reads p _ _ st (Hsame p)).
  destruct (setJoin' p _ st); simpl; [apply IH|done].
Qed.

Lemma closureFrom_keys joinConfig1 joinConfig2 all :
  map fst joinConfig1 = map fst joinConfig2 →
  closureFrom joinConfig1 all = closureFrom joinConfig2 all.
Proof.
  unfold closureFrom. revert joinConfig2 all.
  induction joinConfig1 as [|[k1 v1] l1 IH]; intros [|[k2 v2] l2] all; try done.
  simpl. intros [= -> Hrest]. by apply IH.
Qed.

Lemma build_reads joinConfig1 joinConfig2 st :
  map fst joinConfig1 = map fst joinConfig2 →
  (∀ p, sameJoin (joinOptions joinConfig1 p) (joinOptions joinConfig2 p)) →
  joinBuild' (RelationMap joinConfig1) st = joinBuild' (RelationMap joinConfig2) st.
Proof.
  intros Hkeys Hsame. unfold JoinQueryBuilder_build. simpl.
  unfold sortedRelations, collectAllNeededRelations.
  rewrite (closureFrom_keys _ _ [] Hkeys). by apply setJoins_reads.
Qed.

(** X12.  The [where] of a relation configuration is never read: the
    planner does with a configuration exactly what it does with the same
    configuration stripped of every [where], be it joins, selected columns
    or errors.  No condition is put on a join or on the query for it. *)
Theorem relation_filter_is_ignored joinConfig st :
  JoinQueryBuilder_build isArrayFull repo rootAlias (RelationMap joinConfig) st
  = JoinQueryBuilder_build isArrayFull repo rootAlias
      (RelationMap (map withoutWhere joinConfig)) st.
Proof.
  apply build_reads.
  - rewrite map_map. apply map_ext. intros [k [b|v]]; done.
  - intros p. unfold joinOptions.
    induction joinConfig as [|[k c] l IH]; [done|]. simpl.
    destruct c as [b|v]; simpl; by case_bool_decide.
Qed.

(** X13.  A relation switched off is joined all the same: the planner
    plans the keys of the configuration, and the flag [false] gets the
    options of the flag [true], a left join with every column. *)
Theorem false_flag_is_joined key before after st :
  JoinQueryBuilder_build isArrayFull repo rootAlias
    (RelationMap (before ++ (key, RelationFlag false) :: after)) st
  = JoinQueryBuilder_build isArrayFull repo rootAlias
      (RelationMap (before ++ (key, RelationFlag true) :: after)) st.
Proof.
  apply build_reads.
  - by rewrite !map_app.
  - intros p. unfold joinOptions.
    induction before as [|[k c] l IH]; simpl.
    + by case_bool_decide.
    + case_bool_decide; [done|]. apply IH.
Qed.

(** ** Merging configurations *)

Lemma objectGet_objectSet {A} key k (v : A) target :
  objectGet key (objectSet k v target)
  = if bool_decide (k = key) then Some v else objectGet key target.
Proof.
  induction target as [|[k' v'] rest IH]; simpl.
  - by case_bool_decide.
  - destruct (decide (k' = k)) as [->|Hne].
    + rewrite (bool_decide_eq_true_2 (k = k)) by done. simpl.
      by case_bool_decide.
    + rewrite (bool_decide_eq_false_2 (k' = k)) by done. simpl.
      rewrite IH. repeat case_bool_decide; congruence.
Qed.

Lemma objectSet_keys {A} k (v : A) target :
  map fst (objectSet k v target) = setAdd k (map fst target).
Proof.
  unfold setAdd. induction target as [|[k' v'] rest IH]; simpl; [done|].
  destruct (decide (k' = k)) as [->|Hne].
  - rewrite (bool_decide_eq_true_2 (k = k)) by done.
    rewrite bool_decide_eq_true_2 by by left. done.
  - rewrite (bool_decide_eq_false_2 (k' = k)) by done. simpl. rewrite IH.
    destruct (decide (k ∈ map fst rest)) as [Hin|Hnot].
    + rewrite !bool_decide_eq_true_2; [done|by right|done].
    + rewrite !bool_decide_eq_false_2; [done| |done].
      rewrite not_elem_of_cons. split; [congruence|done].
Qed.

Lemma objectGet_absent {A} key (object : list (string * A)) :
  key ∉ map fst object → objectGet key object = None.
Proof.
  induction object as [|[k v] rest IH]; simpl; [done|].
  rewrite not_elem_of_cons. intros [Hne Hrest].
  rewrite bool_decide_eq_false_2 by congruence. by apply IH.
Qed.

Lemma objectAssign_other {A} key (target source : list (string * A)) :
  objectGet key source = None →
  objectGet key (objectAssign target source) = objectGet key target.
Proof.
  unfold objectAssign. revert target.
  induction source as [|[k v] rest IH]; intros target; simpl; [done|].
  case_bool_decide; [done|]. intros Hrest. rewrite IH by done.
  rewrite objectGet_objectSet. simpl. by rewrite bool_decide_eq_false_2.
Qed.

Lemma objectAssign_own {A} key (c : A) (target source : list (string * A)) :
  NoDup (map fst source) → objectGet key source = Some c →
  objectGet key (objectAssign target source) = Some c.
Proof.
  unfold objectAssign. revert target.
  induction source as [|[k v] rest IH]; intros target; simpl; [done|].
  intros [Hk Hrest]%NoDup_cons. case_bool_decide as Heq.
  - intros [= ->]. subst k.
    change (fold_left _ rest ?t) with (objectAssign t rest).
    rewrite objectAssign_other by by apply objectGet_absent.
    rewrite objectGet_objectSet. simpl. by rewrite bool_decide_eq_true_2.
  - by apply IH.
Qed.

Lemma objectAssign_NoDup {A} (target source : list (string * A)) :
  NoDup (map fst target) → NoDup (map fst (objectAssign target source)).
Proof.
  unfold objectAssign. revert target.
  induction source as [|[k v] rest IH]; intros target Hnodup; simpl; [done|].
  apply IH. rewrite objectSet_keys. by apply setAdd_NoDup.
Qed.

(** X14.  Merging an array of configurations.  The configurations of an
    array are merged in order into one object: when several of them
    configure the same path, the last one that does decides its
    configuration, whole (nothing of an earlier one is kept), and the
    merged object holds every path once. *)
Theorem later_configuration_wins before item later key c :
  NoDup (map fst (parseJoinConfig item)) →
  objectGet key (parseJoinConfig item) = Some c →
  Forall (fun other => objectGet key (parseJoinConfig other) = None) later →
  objectGet key (parseJoinConfig (RelationList (before ++ item :: later)))
  = Some c
  ∧ NoDup (map fst (parseJoinConfig (RelationList (before ++ item :: later)))).
Proof.
  intros Hnodup Hitem Hlater.
  assert (∀ items result,
             NoDup (map fst result) →
             NoDup (map fst
                      (fold_left
                         (fun result config =>
                            objectAssign result (parseJoinConfig config))
                         items result))) as Hunique.
  { induction items as [|i items IH]; intros result Hresult; simpl; [done|].
    by apply IH, objectAssign_NoDup. }
  split; [|apply (Hunique _ []); constructor].
  change (parseJoinConfig (RelationList (before ++ item :: later)))
    with (fold_left
            (fun result config => objectAssign result (parseJoinConfig config))
            (before ++ item :: later) []).
  rewrite fold_left_app. simpl.
  set (merged := objectAssign _ (parseJoinConfig item)).
  assert (objectGet key merged = Some c) as Hmerged
      by by apply objectAssign_own.
  clearbody merged. revert merged Hmerged.
  induction Hlater as [|other later Hother _ IH]; intros merged Hmerged;
    simpl; [done|].
  apply IH. by rewrite objectAssign_other.
Qed.

(** ** The plan of a specification *)

Lemma RelationOptions_nested_ind (P : RelationOptions → Prop) :
  (∀ name, P (RelationName name)) →
  (∀ items, Forall P items → P (RelationList items)) →
  (∀ object, P (RelationMap object)) →
  ∀ config, P config.
Proof.
  intros Hname Hlist Hmap. fix IH 1. intros [name|items|object].
  - apply Hname.
  - apply Hlist. induction items as [|x items IHitems]; constructor.
    + apply IH.
    + exact IHitems.
  - apply Hmap.
Qed.

Lemma objectAssign_keys {A} key (target source : list (string * A)) :
  key ∈ map fst (objectAssign target source)
  ↔ key ∈ map fst target ∨ key ∈ map fst source.
Proof.
  unfold objectAssign. revert target.
  induction source as [|[k v] rest IH]; intros target; simpl.
  - rewrite elem_of_nil. tauto.
  - rewrite IH, objectSet_keys, setAdd_elem, elem_of_cons. tauto.
Qed.

(** The keys of the parsed configuration are the paths the caller has
    specified. *)
Lemma parseJoinConfig_keys config key :
  key ∈ map fst (parseJoinConfig config) ↔ key ∈ specPaths config.
Proof.
  induction config as [name|items IH|object] using RelationOptions_nested_ind;
    [done| |done].
  change (parseJoinConfig (RelationList items))
    with (fold_left
            (fun result config => objectAssign result (parseJoinConfig config))
            items []).
  cbn [specPaths].
  assert (∀ result,
             key ∈ map fst
                     (fold_left
                        (fun result config =>
                           objectAssign result (parseJoinConfig config))
                        items result)
             ↔ key ∈ map fst result ∨ key ∈ List.flat_map specPaths items)
    as Hfold.
  { induction IH as [|item items Hitem _ IHitems]; intros result; simpl.
    - rewrite elem_of_nil. tauto.
    - rewrite IHitems, objectAssign_keys, Hitem, elem_of_app. tauto. }
  rewrite Hfold. simpl. rewrite elem_of_nil. tauto.
Qed.

(** What the parsed configuration holds for a path is what the caller has
    supplied for it. *)
Lemma parseJoinConfig_lookup config :
  uniqueKeys config = true →
  NoDup (map fst (parseJoinConfig config))
  ∧ ∀ path, objectGet path (parseJoinConfig config) = specConfigOf config path.
Proof.
  induction config as [name|items IH|object] using RelationOptions_nested_ind.
  - intros _. split; [apply NoDup_singleton|done].
  - intros Hunique. cbn [uniqueKeys] in Hunique.
    change (parseJoinConfig (RelationList items))
      with (fold_left
              (fun result config => objectAssign result (parseJoinConfig config))
              items []).
    cbn [specConfigOf].
    assert (∀ result,
               NoDup (map fst result) →
               NoDup (map fst
                        (fold_left
                           (fun result config =>
                              objectAssign result (parseJoinConfig config))
                           items result))
               ∧ ∀ path,
                   objectGet path
                     (fold_left
                        (fun result config =>
                           objectAssign result (parseJoinConfig config))
                        items result)
                   = fold_left
                       (fun found item =>
                          match specConfigOf item path with
                          | Some c => Some c
                          | None => found
                          end)
                       items (objectGet path result)) as Hfold.
    { induction IH as [|item items Hitem _ IHitems]; intros result Hresult;
        [done|].
      cbn [forallb] in Hunique.
      apply andb_true_iff in Hunique as [Hitem' Hitems'].
      destruct (Hitem Hitem') as [Hnodup Hlookup].
      destruct (IHitems Hitems' (objectAssign result (parseJoinConfig item)))
        as [Hnodup' Hlookup']; [by apply objectAssign_NoDup|].
      split; [done|]. intros path. cbn [fold_left]. rewrite Hlookup'.
      f_equal. rewrite <-Hlookup.
      destruct (objectGet path (parseJoinConfig item)) as [c|] eqn:Hget.
      - by apply objectAssign_own.
      - by apply objectAssign_other. }
    apply Hfold. constructor.
  - intros Hunique. by apply bool_decide_eq_true in Hunique.
Qed.

Lemma joinOptions_spec config path :
  uniqueKeys config = true →
  relationType (joinOptions (parseJoinConfig config) path)
  = specJoinKind config path
  ∧ rov_select (joinOptions (parseJoinConfig config) path)
    = specSelect config path.
Proof.
  intros [_ Hlookup]%parseJoinConfig_lookup.
  unfold joinOptions, specJoinKind, specSelect, relationType.
  rewrite Hlookup.
  destruct (specConfigOf config path) as [[[]|[sel w [[]|]]]|]; done.
Qed.

Lemma firstUnresolved_none paths :
  (∀ p, p ∈ paths → is_Some (targetOf repo p)) → firstUnresolved repo paths = None.
Proof.
  unfold firstUnresolved. induction paths as [|p paths IH]; [done|].
  intros Hall. cbn [find]. rewrite bool_decide_eq_true_2 by (apply Hall; by left).
  apply IH. intros q Hq. apply Hall. by right.
Qed.

(** The run of the planner from the state [build] plans in. *)
Lemma plan_outcome config st :
  let planned := sortedRelations (parseJoinConfig config) in
  unjoined repo rootAlias st → unambiguous rootAlias planned →
  match firstUnresolved repo planned with
  | Some x => joinBuild' config st = Throw (unresolvedError x)
  | None =>
      ∃ st',
        joinBuild' config st = Ok st'
        ∧ joins (builder st')
          = joins (builder st)
            ++ map (plannedJoinCall rootAlias (parseJoinConfig config)) planned
        ∧ selectedFields st'
          = fold_left (fun s f => setAdd f s)
              (List.flat_map
                 (fun p => registeredFor isArrayFull repo
                             (rov_select
                                (joinOptions (parseJoinConfig config) p)) p)
                 planned)
              (selectedFields st)
  end.
Proof.
  intros planned [Htable Hfaithful] (Hroot & Hplain & Hnodup).
  pose proof (setJoins_outcome (parseJoinConfig config) planned [] st
                Htable Hfaithful Hroot Hplain Hnodup) as Hrun.
  unfold JoinQueryBuilder_build. fold planned.
  destruct (firstUnresolved repo planned) as [x|].
  - apply Hrun; [by intros q ?%elem_of_nil|].
    intros l1 p l2 Hplan Hdeep.
    by apply (planned_parents_before (parseJoinConfig config) l1 p l2).
  - destruct Hrun as (st' & Hbuild & Hjoins & _ & Hselected & _).
    + by intros q ?%elem_of_nil.
    + intros l1 p l2 Hplan Hdeep.
      by apply (planned_parents_before (parseJoinConfig config) l1 p l2).
    + by exists st'.
Qed.

(** C1.  From the state [build] plans in, for a specification whose planned
    paths are chains of relations with plain names and aliases of their
    own (otherwise the build throws, see C6): the planned paths are
    pairwise different and are exactly the non-empty segment prefixes of
    the paths the caller has specified; the plan is sorted by depth, so
    every ancestor of a path stands before it; the planner returns, having
    appended one join per planned path in the order of the plan, each under
    the alias with underscores for the dots of its path, an inner join
    where the caller has asked for one for that very path and a left join
    everywhere else, for the synthesized ancestors in particular; and the
    columns it has registered are, path by path in the order of the plan,
    those of the configuration of that very path: with a select list of the
    caller's for the path, the entries of the list that are columns of its
    entity (after the primary key, for a path of one segment), and for
    every other path, the synthesized ancestors among them, the primary key
    and every column of its entity. *)
Theorem join_closure config st :
  let planned := sortedRelations (parseJoinConfig config) in
  uniqueKeys config = true →
  unjoined repo rootAlias st →
  unambiguous rootAlias planned →
  (∀ p, p ∈ planned → is_Some (targetOf repo p)) →
  (NoDup planned
   ∧ ∀ p, p ∈ planned ↔
          ∃ key i, key ∈ specPaths config ∧ 1 ≤ i ≤ depth key
                   ∧ p = Str.join "." (take i (Str.split dot key)))
  ∧ (StronglySorted byDepth planned
     ∧ ∀ child i, child ∈ planned → 1 ≤ i < depth child →
         ∃ l1 l2 l3,
           planned
           = l1 ++ Str.join "." (take i (Str.split dot child)) :: l2
                ++ child :: l3)
  ∧ ∃ st',
      JoinQueryBuilder_build isArrayFull repo rootAlias config st = Ok st'
      ∧ map joinSummary (joins (builder st'))
        = map joinSummary (joins (builder st)) ++ map (specJoin config) planned
      ∧ selectedFields st'
        = fold_left (fun s f => setAdd f s)
            (List.flat_map (specRegistered isArrayFull repo config) planned)
            (selectedFields st).
Proof.
  intros planned Hunique Hstate Hnames Hresolve. split_and!.
  - apply sortedRelations_NoDup.
  - intros p. unfold planned. rewrite sortedRelations_elem.
    by setoid_rewrite parseJoinConfig_keys.
  - apply sortByDepth_sorted.
  - intros child i. apply sortedRelations_parent_first.
  - pose proof (plan_outcome config st Hstate Hnames) as Hrun.
    fold planned in Hrun.
    rewrite (firstUnresolved_none planned Hresolve) in Hrun.
    destruct Hrun as (st' & Hbuild & Hjoins & Hselected).
    exists st'. split_and!; [done| |].
    + rewrite Hjoins, map_app, map_map. f_equal. apply map_ext. intros p.
      unfold plannedJoinCall, joinSummary, specJoin. simpl.
      by destruct (joinOptions_spec config p Hunique) as [-> _].
    + rewrite Hselected. f_equal. apply List.flat_map_ext. intros p.
      unfold specRegistered.
      by destruct (joinOptions_spec config p Hunique) as [_ ->].
Qed.

(** C6, as the program has it.  From the state [build] plans in and with
    plain names and aliases of their own, a specification whose plan holds
    a path that is no chain of relations ends in a hard error at the first
    such path of the plan, before anything is joined for it: for a path of
    one segment the planner's own [Relation 'x' not found]; for a longer
    path, whose ancestors are relations, the planner raises nothing itself,
    the join call is refused by the ORM with its own error, which names the
    last segment.  When every planned path is a chain of relations the
    planner returns with one join per planned path. *)
Theorem missing_relation config st :
  let planned := sortedRelations (parseJoinConfig config) in
  unjoined repo rootAlias st →
  unambiguous rootAlias planned →
  match firstUnresolved repo planned with
  | Some x =>
      JoinQueryBuilder_build isArrayFull repo rootAlias config st
      = Throw (if bool_decide (depth x = 1)
               then Error ("Relation '" +:+ x +:+ "' not found")
               else TypeORMError
                      ("Relation with property path "
                         +:+ List.last (Str.split dot x) ""
                         +:+ " in entity was not found."))
  | None =>
      ∃ st',
        JoinQueryBuilder_build isArrayFull repo rootAlias config st = Ok st'
        ∧ length (joins (builder st'))
          = length (joins (builder st)) + length planned
  end.
Proof.
  intros planned Hstate Hnames.
  pose proof (plan_outcome config st Hstate Hnames) as Hrun.
  fold planned in Hrun.
  destruct (firstUnresolved repo planned) as [x|]; [done|].
  destruct Hrun as (st' & Hbuild & Hjoins & _).
  exists st'. split; [done|]. by rewrite Hjoins, length_app, length_map.
Qed.

(** X11.  The planned joins in full.  From the state [build] plans in, for
    a plan of chains of relations with plain names and aliases of their
    own, the joins the planner appends are, path by path in plan order: a
    path of one segment is joined on [<root alias>.<path>], a longer path on
    [<alias of its parent path>.<last segment>], each under the alias that
    has an underscore for every dot of the path.  The parent path of every
    longer path is planned too and stands before it, so every join hangs
    off an alias that an earlier join of the plan, or the root, has
    introduced, and the ORM accepts it. *)
Theorem joins_hang_off_their_parents config st :
  let joinConfig := parseJoinConfig config in
  let planned := sortedRelations joinConfig in
  unjoined repo rootAlias st →
  unambiguous rootAlias planned →
  (∀ p, p ∈ planned → is_Some (targetOf repo p)) →
  (∃ st', JoinQueryBuilder_build isArrayFull repo rootAlias config st = Ok st'
          ∧ joins (builder st')
            = joins (builder st)
              ++ map (plannedJoinCall rootAlias joinConfig) planned)
  ∧ (∀ p, p ∈ planned → 1 < depth p →
          ∃ l1 l2 l3, planned = l1 ++ parentPath p :: l2 ++ p :: l3).
Proof.
  intros joinConfig planned Hstate Hnames Hresolve. split.
  - pose proof (plan_outcome config st Hstate Hnames) as Hrun.
    fold joinConfig planned in Hrun.
    rewrite (firstUnresolved_none planned Hresolve) in Hrun.
    destruct Hrun as (st' & Hbuild & Hjoins & _). by exists st'.
  - intros p Hp Hdepth. apply sortedRelations_parent_first; [done|lia].
Qed.

(** ** The parts of the query each option writes *)

Lemma selectEntityColumns_builder cols st st' :
  selectEntityColumns normalizeColumnName repo rootAlias cols st = Ok st' →
  builder st' = builder st.
Proof.
  revert st. induction cols as [|col cols IH]; intros st Hrun; simpl in Hrun.
  - by injection Hrun as <-.
  - destruct (getFieldWithAlias' col false st) as [[field st1]|] eqn:Hfield;
      simpl in Hrun; [|done].
    apply getFieldWithAlias_frame in Hfield as (_ & _ & <- & _).
    by rewrite (IH _ Hrun).
Qed.

Lemma fieldsWithAliases_builder fields st fs st' :
  fieldsWithAliases normalizeColumnName repo rootAlias fields st = Ok (fs, st') →
  builder st' = builder st.
Proof.
  revert st fs. induction fields as [|f fields IH]; intros st fs Hrun;
    simpl in Hrun.
  - by injection Hrun as <- <-.
  - destruct (getFieldWithAlias' f false st) as [[field st1]|] eqn:Hfield;
      simpl in Hrun; [|done].
    destruct (fieldsWithAliases _ _ _ fields st1) as [[others st2]|] eqn:Hrest;
      simpl in Hrun; [|done].
    injection Hrun as <- <-.
    apply getFieldWithAlias_frame in Hfield as (_ & _ & <- & _). eauto.
Qed.

Lemma buildSelect_builder select_ st st' :
  buildSelect normalizeColumnName repo rootAlias select_ st = Ok st' →
  builder st' = builder st.
Proof.
  unfold buildSelect.
  destruct select_ as [[|f fields]|]; try apply selectEntityColumns_builder.
  intros Hrun.
  destruct (fieldsWithAliases _ _ _ (f :: fields) st) as [[fs st1]|] eqn:Hfs;
    simpl in Hrun; [|done].
  injection Hrun as <-. destruct (addSelected_frame fs st1) as (-> & _).
  by eapply fieldsWithAliases_builder.
Qed.

Lemma setJoin_builder name options st st' :
  setJoin' name options st = Ok st' →
  ∃ kind property alias_,
    join_ repo kind property alias_ (builder st) = Ok (builder st').
Proof.
  unfold setJoin.
  destruct (Str.split dot name) as [|seg [|seg' segs]] eqn:Hsplit.
  - by destruct (split_not_nil dot name).
  - pose proof (getRelationMetadata_frame name st) as (Hb & _).
    destruct (getRelationMetadata repo rootAlias name st) as [[ar|] st1];
      simpl in *; [|done].
    rewrite Hb.
    destruct (join_ repo _ _ name (builder st)) as [joined|] eqn:Hjoin;
      simpl; [|done].
    intros [= <-]. builder_after. by eexists _, _, _.
  - destruct (join_ repo _ _ _ (builder st)) as [joined|] eqn:Hjoin;
      simpl; [|done].
    set (st1 := setBuilder joined st).
    pose proof (getRelationMetadata_frame name st1) as (Hb & _).
    destruct (getRelationMetadata repo rootAlias name st1) as [[ar|] st2];
      simpl in Hb |- *.
    + destruct (explicitSelect isArrayFull options) as [sel|]; intros [= <-];
        builder_after; rewrite Hb; by eexists _, _, _.
    + intros [= <-]. rewrite Hb. by eexists _, _, _.
Qed.

Lemma setJoins_builder joinConfig paths st st' :
  setJoins' joinConfig paths st = Ok st' →
  alias (builder st') = alias (builder st)
  ∧ wheres (builder st') = wheres (builder st)
  ∧ findOptions (builder st') = findOptions (builder st)
  ∧ orderBys (builder st') = orderBys (builder st)
  ∧ (paths = [] → joins (builder st') = joins (builder st)).
Proof.
  revert st. induction paths as [|p paths IH]; intros st Hrun; simpl in Hrun.
  - by injection Hrun as <-.
  - destruct (setJoin' p _ st) as [st1|] eqn:Hjoin; simpl in Hrun; [|done].
    destruct (IH _ Hrun) as (-> & -> & -> & -> & _).
    apply setJoin_builder in Hjoin as (kind & property & alias_ & Hjoin).
    apply join_ok in Hjoin as (? & ? & ? & _ & ? & _).
    by split_and!.
Qed.

Lemma whereBuild_builder whereObject st st' :
  whereBuild' whereObject st = Ok st' →
  alias (builder st') = alias (builder st)
  ∧ joins (builder st') = joins (builder st)
  ∧ findOptions (builder st') = findOptions (builder st)
  ∧ orderBys (builder st') = orderBys (builder st)
  ∧ ∃ added, wheres (builder st') = wheres (builder st) ++ added
             ∧ length added ≤ 1.
Proof.
  assert (∃ added : list (string * gmap string JsValue),
             wheres (builder st) = wheres (builder st) ++ added
             ∧ length added ≤ 1) as Hnone.
  { exists []. rewrite app_nil_r. simpl. split; [done|lia]. }
  unfold WhereQueryBuilder_build.
  destruct (negb (truthy whereObject)); [by intros [= <-]|].
  destruct (isArray whereObject && bool_decide (entries whereObject = []));
    [by intros [= <-]|].
  destruct (typeofObject whereObject && bool_decide (entries whereObject = []));
    [by intros [= <-]|].
  destruct (compile' _ st) as [[[query params] st1]|] eqn:Hrun; simpl; [|done].
  pose proof (buildWhereQueryAndParams_untouched _ _ _ _ Hrun) as (Hb & _).
  destruct (Str.isEmpty query); intros [= <-]; simpl; rewrite Hb.
  - done.
  - split_and!; try done. exists [(query, params)]. simpl. split; [done|lia].
Qed.

Lemma buildOrder_builder order st st' :
  buildOrder normalizeColumnName repo rootAlias order st = Ok st' →
  alias (builder st') = alias (builder st)
  ∧ joins (builder st') = joins (builder st)
  ∧ wheres (builder st') = wheres (builder st)
  ∧ findOptions (builder st') = findOptions (builder st)
  ∧ selectedFields st' = selectedFields st
  ∧ ∃ fields,
      orderBys (builder st')
      = orderBys (builder st) ++ zip fields (map snd order)
      ∧ length fields = length order
      ∧ Forall (fun field =>
                  Str.occurs (getIdentifierQuoteChar repo) field = false)
               fields.
Proof.
  revert st. induction order as [|[key direction] order IH]; intros st Hrun;
    simpl in Hrun.
  - injection Hrun as <-. split_and!; try done. exists []. by rewrite app_nil_r.
  - destruct (getFieldWithAlias' key false st) as [[field st1]|] eqn:Hfield;
      simpl in Hrun; [|done].
    apply getFieldWithAlias_frame in Hfield as (_ & _ & Hb & Hs).
    destruct (IH _ Hrun) as (-> & -> & -> & -> & -> & fields & -> & Hlen & Hall).
    simpl. rewrite Hb. split_and!; try done.
    exists (cleanFieldName repo field :: fields). split_and!.
    + by rewrite <-app_assoc.
    + simpl. by rewrite Hlen.
    + constructor; [apply cleanFieldName_unquoted|done].
Qed.

(** The builder after the options have been applied, part by part. *)
Lemma applyOptions_builder options st st' :
  applyOptions normalizeColumnName isArrayFull repo rootAlias extraOperatorValue
    options st = Ok st' →
  let st1 := applyFindOptions repo options st in
  alias (builder st') = alias (builder st)
  ∧ findOptions (builder st') = findOptions (builder st1)
  ∧ (∃ added, wheres (builder st') = wheres (builder st1) ++ added
              ∧ length added ≤ 1
              ∧ (match opt_where options with
                 | Some w => truthy w = false
                 | None => True
                 end → added = []))
  ∧ (match opt_relations options with
     | Some r => relationsTruthy r = false
     | None => True
     end → joins (builder st') = joins (builder st))
  ∧ ∃ fields,
      orderBys (builder st')
      = orderBys (builder st)
        ++ zip fields (map snd (default [] (opt_order options)))
      ∧ length fields = length (default [] (opt_order options))
      ∧ Forall (fun field =>
                  Str.occurs (getIdentifierQuoteChar repo) field = false)
               fields.
Proof.
  intros Hrun st1. unfold applyOptions in Hrun. fold st1 in Hrun.
  assert (alias (builder st1) = alias (builder st)
          ∧ joins (builder st1) = joins (builder st)
          ∧ orderBys (builder st1) = orderBys (builder st))
    as (Ha1 & Hj1 & Ho1).
  { unfold st1, applyFindOptions.
    by destruct (flagSet (opt_onlyDeleted options)),
      (deleteDateColumn (metadata repo)). }
  destruct (buildSelect _ _ _ _ st1) as [st2|] eqn:Hselect; simpl in Hrun;
    [|done].
  apply buildSelect_builder in Hselect as Hb2.
  destruct (match opt_relations options with
            | Some r => _
            | None => _
            end) as [st3|] eqn:Hjoin; simpl in Hrun; [|done].
  assert (alias (builder st3) = alias (builder st2)
          ∧ wheres (builder st3) = wheres (builder st2)
          ∧ findOptions (builder st3) = findOptions (builder st2)
          ∧ orderBys (builder st3) = orderBys (builder st2)
          ∧ (match opt_relations options with
             | Some r => relationsTruthy r = false
             | None => True
             end → joins (builder st3) = joins (builder st2)))
    as (Ha3 & Hw3 & Hf3 & Ho3 & Hj3).
  { destruct (opt_relations options) as [r|]; [|by injection Hjoin as <-].
    destruct (relationsTruthy r); [|by injection Hjoin as <-].
    unfold JoinQueryBuilder_build in Hjoin.
    apply setJoins_builder in Hjoin as (? & ? & ? & ? & _). by split_and!. }
  destruct (match opt_where options with
            | Some w => _
            | None => _
            end) as [st4|] eqn:Hwhere; simpl in Hrun; [|done].
  assert (alias (builder st4) = alias (builder st3)
          ∧ joins (builder st4) = joins (builder st3)
          ∧ findOptions (builder st4) = findOptions (builder st3)
          ∧ orderBys (builder st4) = orderBys (builder st3)
          ∧ ∃ added, wheres (builder st4) = wheres (builder st3) ++ added
                     ∧ length added ≤ 1
                     ∧ (match opt_where options with
                        | Some w => truthy w = false
                        | None => True
                        end → added = []))
    as (Ha4 & Hj4 & Hf4 & Ho4 & added & Hw4 & Hlen & Hadded).
  { assert (∃ added : list (string * gmap string JsValue),
               wheres (builder st3) = wheres (builder st3) ++ added
               ∧ length added ≤ 1
               ∧ (match opt_where options with
                  | Some w => truthy w = false
                  | None => True
                  end → added = [])) as Hnone.
    { exists []. rewrite app_nil_r. simpl. split_and!; [done|lia|done]. }
    destruct (opt_where options) as [w|]; [|by injection Hwhere as <-].
    destruct (truthy w); [|by injection Hwhere as <-].
    apply whereBuild_builder in Hwhere
        as (? & ? & ? & ? & added & ? & ?).
    split_and!; try done. by exists added. }
  assert (alias (builder st') = alias (builder st4)
          ∧ joins (builder st') = joins (builder st4)
          ∧ wheres (builder st') = wheres (builder st4)
          ∧ findOptions (builder st') = findOptions (builder st4)
          ∧ ∃ fields,
              orderBys (builder st')
              = orderBys (builder st4)
                ++ zip fields (map snd (default [] (opt_order options)))
              ∧ length fields = length (default [] (opt_order options))
              ∧ Forall (fun field =>
                          Str.occurs (getIdentifierQuoteChar repo) field = false)
                       fields)
    as (Ha5 & Hj5 & Hw5 & Hf5 & fields & Ho5 & Hlen5 & Hall).
  { destruct (opt_order options) as [order|].
    - apply buildOrder_builder in Hrun
          as (? & ? & ? & ? & _ & fields & ? & ? & ?).
      split_and!; try done. by exists fields.
    - injection Hrun as <-. split_and!; try done. exists [].
      by rewrite app_nil_r. }
  split_and!.
  - congruence.
  - congruence.
  - exists added. split_and!; [congruence|done|done].
  - intros Hnone. rewrite Hj5, Hj4, (Hj3 Hnone), Hb2. done.
  - exists fields. split_and!; [congruence|done|done].
Qed.

(** X15.  Pagination and soft delete through a whole build.  Whatever else
    the options hold, a build that returns has set the find options once,
    to the [take] and [skip] of the options and to [withDeleted: true]
    exactly when [withDeleted] is set or [onlyDeleted] is set on an entity
    with a delete-date column.  Of the WHERE clauses of the query it has
    appended, first, for [onlyDeleted] on such an entity, the predicate
    [<alias>.<delete column> IS NOT NULL] without parameters, on the
    property name of the column and unquoted, and then at most one clause
    for the filter of the options, none when there is no filter. *)
Theorem soft_delete_and_pagination options st st' :
  FindQueryBuilder_build normalizeColumnName isArrayFull repo rootAlias
    extraOperatorValue (Some options) st = Ok st' →
  findOptions (builder st')
  = Some {| fo_take := opt_take options; fo_skip := opt_skip options;
            fo_withDeleted :=
              if includesDeleted repo options then Some true else None |}
  ∧ ∃ filter,
      wheres (builder st')
      = wheres (builder st) ++ onlyDeletedClauses repo options st ++ filter
      ∧ length filter ≤ 1
      ∧ (match opt_where options with
         | Some w => truthy w = false
         | None => True
         end → filter = []).
Proof.
  unfold FindQueryBuilder_build. intros Hbuild.
  destruct (applyOptions _ _ _ _ _ options st) as [st1|] eqn:Hrun;
    simpl in Hbuild; [|done].
  injection Hbuild as <-. simpl.
  apply applyOptions_builder in Hrun
      as (_ & -> & (filter & -> & Hlen & Hfilter) & _).
  split.
  - unfold applyFindOptions, includesDeleted.
    destruct (flagSet (opt_onlyDeleted options)),
      (deleteDateColumn (metadata repo)) as [c|]; simpl;
      by rewrite ?orb_true_r, ?orb_false_r.
  - exists filter. split; [|done].
    unfold applyFindOptions, onlyDeletedClauses.
    destruct (flagSet (opt_onlyDeleted options)),
      (deleteDateColumn (metadata repo)) as [c|]; simpl;
      by rewrite <-?app_assoc.
Qed.

(** X16.  Joins and order through a whole build.  Without relations in the
    options (none, or the empty string) a build adds no join to the query.
    The order of the options becomes one order clause per key, appended in
    the order of the keys and each with the direction of its key, on a
    field free of the identifier quote of the dialect; without an order no
    order clause is added.  The alias of the query never changes. *)
Theorem joins_and_order_of_a_build options st st' :
  FindQueryBuilder_build normalizeColumnName isArrayFull repo rootAlias
    extraOperatorValue (Some options) st = Ok st' →
  alias (builder st') = alias (builder st)
  ∧ (match opt_relations options with
     | Some r => relationsTruthy r = false
     | None => True
     end → joins (builder st') = joins (builder st))
  ∧ ∃ fields,
      orderBys (builder st')
      = orderBys (builder st)
        ++ zip fields (map snd (default [] (opt_order options)))
      ∧ length fields = length (default [] (opt_order options))
      ∧ Forall (fun field =>
                  Str.occurs (getIdentifierQuoteChar repo) field = false)
               fields.
Proof.
  unfold FindQueryBuilder_build. intros Hbuild.
  destruct (applyOptions _ _ _ _ _ options st) as [st1|] eqn:Hrun;
    simpl in Hbuild; [|done].
  injection Hbuild as <-. simpl.
  by apply applyOptions_builder in Hrun as (? & _ & _ & ? & ?).
Qed.

(** ** The state [build] plans in *)

Lemma getFieldWithAlias_faithful field useDbField st column st1 :
  getFieldWithAlias' field useDbField st = Ok (column, st1) →
  cacheFaithful repo rootAlias st → cacheFaithful repo rootAlias st1.
Proof.
  unfold getFieldWithAlias. intros Hfield Hfaithful.
  pose proof (getRelationMetadata_faithful field st Hfaithful) as Hget.
  destruct (Str.split dot field) as [|seg [|seg' segs]].
  - destruct (getRelationMetadata repo rootAlias field st) as [[r|] st'];
      destruct Hget as [Hfaithful' _];
      simpl in *; destruct (normalizeColumnName _ _); simpl in Hfield;
      try done; by injection Hfield as <- <-.
  - destruct useDbField; destruct (normalizeColumnName _ _); simpl in Hfield;
      try done; by injection Hfield as <- <-.
  - destruct (getRelationMetadata repo rootAlias field st) as [[r|] st'];
      destruct Hget as [Hfaithful' _];
      simpl in *; destruct (normalizeColumnName _ _); simpl in Hfield;
      try done; by injection Hfield as <- <-.
Qed.

Lemma buildSelect_faithful select_ st st' :
  buildSelect normalizeColumnName repo rootAlias select_ st = Ok st' →
  cacheFaithful repo rootAlias st → cacheFaithful repo rootAlias st'.
Proof.
  assert (∀ fields st0,
             cacheFaithful repo rootAlias st0 →
             cacheFaithful repo rootAlias (addSelected fields st0)) as Hadd.
  { intros fields st0. apply cacheFaithful_ext.
    by destruct (addSelected_frame fields st0) as (_ & ? & _). }
  assert (∀ cols st0 st0',
             selectEntityColumns normalizeColumnName repo rootAlias cols st0
             = Ok st0' →
             cacheFaithful repo rootAlias st0 →
             cacheFaithful repo rootAlias st0') as Hcols.
  { induction cols as [|col cols IH]; intros st0 st0' Hrun Hfaithful;
      simpl in Hrun.
    - by injection Hrun as <-.
    - destruct (getFieldWithAlias' col false st0) as [[field st1]|] eqn:Hfield;
        simpl in Hrun; [|done].
      apply (IH _ _ Hrun). apply (Hadd [field]).
      by eapply getFieldWithAlias_faithful. }
  assert (∀ fields st0 fs st0',
             fieldsWithAliases normalizeColumnName repo rootAlias fields st0
             = Ok (fs, st0') →
             cacheFaithful repo rootAlias st0 →
             cacheFaithful repo rootAlias st0') as Hfields.
  { induction fields as [|f fields IH]; intros st0 fs st0' Hrun Hfaithful;
      simpl in Hrun.
    - by injection Hrun as <- <-.
    - destruct (getFieldWithAlias' f false st0) as [[field st1]|] eqn:Hfield;
        simpl in Hrun; [|done].
      destruct (fieldsWithAliases _ _ _ fields st1) as [[others st2]|] eqn:Hrest;
        simpl in Hrun; [|done].
      injection Hrun as <- <-. apply (IH _ _ _ Hrest).
      by eapply getFieldWithAlias_faithful. }
  unfold buildSelect. destruct select_ as [[|f fields]|]; eauto.
  intros Hrun Hfaithful.
  destruct (fieldsWithAliases _ _ _ (f :: fields) st) as [[fs st1]|] eqn:Hfs;
    simpl in Hrun; [|done].
  injection Hrun as <-. apply Hadd. eauto.
Qed.

(** [FindQueryBuilder.build] calls the planner after [buildSelect], on the
    builder its constructor has created under the name of the entity:
    nothing is joined yet, and the cache is faithful. *)
Lemma planner_state_unjoined options st2 :
  rootAlias = targetName (metadata repo) →
  buildSelect normalizeColumnName repo rootAlias (opt_select options)
    (applyFindOptions repo options (newFindQueryBuilder repo)) = Ok st2 →
  unjoined repo rootAlias st2.
Proof.
  intros Hroot Hselect. split.
  - rewrite (buildSelect_builder _ _ _ Hselect), Hroot.
    unfold applyFindOptions.
    by destruct (flagSet (opt_onlyDeleted options)),
      (deleteDateColumn (metadata repo)).
  - apply (buildSelect_faithful _ _ _ Hselect).
    intros p r Hp. unfold applyFindOptions in Hp.
    destruct (flagSet (opt_onlyDeleted options)),
      (deleteDateColumn (metadata repo)); simpl in Hp;
      by rewrite lookup_empty in Hp.
Qed.

(** ** The relation builder of the client *)

Lemma fold_setAdd_map {A} (f : A → string) l s :
  fold_left (fun s x => setAdd x s) (map f l) s
  = fold_left (fun s x => setAdd (f x) s) l s.
Proof. revert s. induction l as [|x l IH]; intros s; [done|]. apply IH. Qed.

Lemma objectSet_all {A} (c : A) k target :
  Forall (fun entry => snd entry = c) target →
  Forall (fun entry => snd entry = c) (objectSet k c target).
Proof.
  induction 1 as [|[k' v'] rest Hhead Hrest IH]; simpl.
  - by repeat constructor.
  - case_bool_decide; constructor; done.
Qed.

(** X19.  The relation builder and the planner.  A list of relation names
    given to the builder of the client comes out as the very object the
    planner of the server makes of the same list, so both agree on the
    relations of a request.  Of a list of any relation options the builder
    keeps one entry per element, under the element turned into a string and
    switched on without select list or filter: what an element that is an
    object configures is lost, and the object is kept under the key
    [[object Object]]. *)
Theorem relation_builder_keeps_names names items :
  RelationBuilder_toObject
    (RelationBuilder_setRelations (RelationList (map RelationName names))
       RelationBuilder_new)
  = parseJoinConfig (RelationList (map RelationName names))
  ∧ map fst (RelationBuilder_toObject
               (RelationBuilder_setRelations (RelationList items)
                  RelationBuilder_new))
    = newSet (map relationKey items)
  ∧ Forall (fun entry => snd entry = RelationFlag true)
           (RelationBuilder_toObject
              (RelationBuilder_setRelations (RelationList items)
                 RelationBuilder_new)).
Proof.
  unfold RelationBuilder_toObject, RelationBuilder_setRelations,
    RelationBuilder_new, newSet.
  cbn [relationsTruthy]. split_and!.
  - change (parseJoinConfig (RelationList (map RelationName names)))
      with (fold_left
              (fun result config => objectAssign result (parseJoinConfig config))
              (map RelationName names) []).
    generalize (@nil (string * RelationConfig)).
    induction names as [|name names IH]; intros this; [done|]. apply IH.
  - rewrite fold_setAdd_map.
    change (@nil string) with (map fst (@nil (string * RelationConfig))).
    generalize (@nil (string * RelationConfig)).
    induction items as [|item items IH]; intros this; [done|].
    cbn [fold_left]. rewrite IH. f_equal.
    unfold RelationBuilder_add. apply objectSet_keys.
  - assert (Forall (fun entry : string * RelationConfig =>
                      snd entry = RelationFlag true) []) as Hnil
        by constructor.
    revert Hnil. generalize (@nil (string * RelationConfig)).
    induction items as [|item items IH]; intros this Hthis; [done|].
    cbn [fold_left]. apply IH. unfold RelationBuilder_add.
    by apply objectSet_all.
Qed.

End Properties.

(** * The properties on the test connection *)

Lemma fixture_operators_distinct :
  distinctOperatorValues Fixture.extraOperatorValue.
Proof. compute_done. Qed.

Lemma build_selects_unquoted_witness :
  ∃ st', Fixture.build (Some Fixture.johnsWithProfile) Fixture.mysqlState = Ok st'
         ∧ selects (builder st')
           = ["User.name"; "User.email"; "profile.id"; "profile.age";
              "profile.bio"; "profile.verified"]
         ∧ Forall (fun field => Str.occurs backtick field = false)
                  (selects (builder st')).
Proof.
  eexists. split; [by vm_compute|]. split; [reflexivity|].
  refine (proj1 (proj2 (build_selects_unquoted
                          Fixture.normalizeColumnName Fixture.isArrayFull
                          (Fixture.userRepository "mysql") "User"
                          Fixture.extraOperatorValue
                          (Some Fixture.johnsWithProfile) Fixture.mysqlState _ _))
                _).
  - by vm_compute.
  - compute_done.
Defined.

Lemma onlyDeleted_without_delete_column_witness :
  let only := withOnlyDeleted (Some true) Fixture.noOptions in
  let plain := withOnlyDeleted None Fixture.noOptions in
  let build :=
    FindQueryBuilder_build Fixture.normalizeColumnName Fixture.isArrayFull
      (Fixture.profileRepository "mysql") "Profile" Fixture.extraOperatorValue in
  wheres (builder (applyFindOptions (Fixture.profileRepository "mysql") only
                     Fixture.profileState)) = []
  ∧ build (Some only) Fixture.profileState
    = build (Some plain) Fixture.profileState.
Proof.
  destruct (onlyDeleted_without_delete_column
              Fixture.normalizeColumnName Fixture.isArrayFull
              (Fixture.profileRepository "mysql") "Profile"
              Fixture.extraOperatorValue Fixture.noOptions Fixture.profileState
              eq_refl eq_refl) as (_ & Hwheres & _ & Hbuild).
  split; [exact Hwheres|exact Hbuild].
Defined.

Lemma empty_in_and_empty_notIn_witness :
  Fixture.compile (JObj [("status", JObj [("$in", JArr [])])]) Fixture.mysqlState
  = Ok (("1 = 0", ∅), setParamIndex 1 Fixture.mysqlState)
  ∧ Fixture.compile (JObj [("status", JObj [("$notIn", JArr [])])])
      Fixture.mysqlState
    = Ok (("`User`.`status` NOT IN (:...where_param_0)",
           {[ "where_param_0" := JArr [] ]}),
          setParamIndex 1 Fixture.mysqlState).
Proof.
  exact (empty_in_and_empty_notIn
           Fixture.normalizeColumnName (Fixture.userRepository "mysql") "User"
           Fixture.extraOperatorValue "status" "`User`.`status`"
           Fixture.mysqlState Fixture.mysqlState
           fixture_operators_distinct eq_refl eq_refl).
Defined.

Lemma array_operators_guarded_witness :
  let parse :=
    parseWhereObjectToQueryAndParams (Fixture.userRepository "mysql")
      Fixture.extraOperatorValue "`User`.`tags`" in
  parse (JArr [JStr "a"]) "$contArr" Fixture.mysqlState
  = Throw (BadRequestException
             "Operator $contArr is only supported for PostgreSQL")
  ∧ parse (JStr "a") "$inL" Fixture.mysqlState
    = Throw (BadRequestException "Operator $inL requires an array value")
  ∧ parse (JArr []) "$intersectsArr" Fixture.mysqlState
    = Ok (("1 = 0", ∅), setParamIndex 1 Fixture.mysqlState).
Proof.
  destruct (array_operators_guarded
              (Fixture.userRepository "mysql") Fixture.extraOperatorValue
              "`User`.`tags`" Fixture.mysqlState fixture_operators_distinct)
    as (Hdialect & Harray & Hempty).
  split_and!.
  - apply (Hdialect CONT_ARR (JStr "a") []); [by left|compute_done].
  - apply (Harray IN_L (JStr "a")); [by left|reflexivity].
  - apply (Hempty INTERSECTS_ARR). by right; left.
Defined.

Lemma group_parenthesisation_witness :
  Fixture.compile
    (JObj [("$or", JArr [Fixture.activeOnly; JObj [];
                         JObj [("name", JStr "John")]])])
    Fixture.mysqlState
  = Ok (("((`User`.`status` = :where_param_0) OR (`User`.`name` = :where_param_1))",
         {[ "where_param_1" := JStr "John" ]}
           ∪ ({[ "where_param_0" := JStr "active" ]} ∪ ∅)),
        setParamIndex 2 Fixture.mysqlState)
  ∧ Fixture.compile
      (JObj [("$and", JArr [Fixture.activeOnly; JObj [];
                            JObj [("name", JStr "John")]])])
      Fixture.mysqlState
    = Ok (("((`User`.`status` = :where_param_0) AND (`User`.`name` = :where_param_1))",
           {[ "where_param_1" := JStr "John" ]}
             ∪ ({[ "where_param_0" := JStr "active" ]} ∪ ∅)),
          setParamIndex 2 Fixture.mysqlState).
Proof.
  destruct (group_parenthesisation
              Fixture.normalizeColumnName (Fixture.userRepository "mysql")
              "User" Fixture.extraOperatorValue
              Fixture.activeOnly [JObj []; JObj [("name", JStr "John")]]
              [ ("`User`.`status` = :where_param_0",
                 {[ "where_param_0" := JStr "active" ]});
                ("", ∅);
                ("`User`.`name` = :where_param_1",
                 {[ "where_param_1" := JStr "John" ]}) ]
              Fixture.mysqlState (setParamIndex 2 Fixture.mysqlState)
              eq_refl) as [Hand Hor].
  split; [exact Hor|exact Hand].
Defined.

(** C8 as the specification words it fails: the single surviving fragment
    of a group comes out in parentheses, not as it is. *)
Lemma single_fragment_is_parenthesised :
  compiledQuery (Fixture.compile Fixture.activeOnly Fixture.mysqlState)
  = Some "`User`.`status` = :where_param_0"
  ∧ compiledQuery
      (Fixture.compile (JObj [("$and", JArr [Fixture.activeOnly])])
         Fixture.mysqlState)
    = Some "(`User`.`status` = :where_param_0)"
  ∧ specGroupQuery "$and" ["`User`.`status` = :where_param_0"]
    = "`User`.`status` = :where_param_0"
  ∧ compiledQuery
      (Fixture.compile (JObj [("$and", JArr [Fixture.activeOnly])])
         Fixture.mysqlState)
    ≠ Some (specGroupQuery "$and" ["`User`.`status` = :where_param_0"]).
Proof. split_and!; [reflexivity|reflexivity|reflexivity|by vm_compute]. Qed.

(** The names of the test entities are plain, and the aliases of a plan
    over them are its paths with underscores. *)
Ltac each_planned Hp :=
  vm_compute in Hp;
  repeat (apply elem_of_cons in Hp as [->|Hp]);
  [..|by apply elem_of_nil in Hp].

Lemma fixture_unjoined :
  unjoined (Fixture.userRepository "mysql") "User" Fixture.mysqlState.
Proof.
  split; [reflexivity|].
  apply (fresh_cache_faithful (Fixture.userRepository "mysql") "User").
Qed.

Lemma join_closure_witness :
  ∃ st',
    Fixture.plan Fixture.postsAndCountries Fixture.mysqlState = Ok st'
    ∧ map joinSummary (joins (builder st'))
      = [(LeftJoin, "posts"); (InnerJoin, "profile");
         (LeftJoin, "profile_addresses");
         (InnerJoin, "profile_addresses_country")]
    ∧ selectedFields st'
      = ["posts.id"; "posts.title"; "posts.content";
         "profile.id"; "profile.age";
         "profile_addresses.id"; "profile_addresses.street";
         "profile_addresses.city"; "profile_addresses.state";
         "profile_addresses.postalCode";
         "profile_addresses_country.name"].
Proof.
  destruct (join_closure
              Fixture.isArrayFull (Fixture.userRepository "mysql") "User"
              Fixture.postsAndCountries Fixture.mysqlState)
    as (_ & _ & st' & Hplan & Hjoins & Hselected).
  - reflexivity.
  - exact fixture_unjoined.
  - split_and!; [reflexivity| |compute_done].
    intros p Hp. each_planned Hp; reflexivity.
  - intros p Hp. each_planned Hp; by eexists.
  - exists st'. split_and!; [exact Hplan|exact Hjoins|exact Hselected].
Defined.

Lemma missing_relation_witness :
  Fixture.plan (RelationMap [("profile", RelationFlag true);
                             ("nope.addresses", RelationFlag true)])
    Fixture.mysqlState
  = Throw (Error "Relation 'nope' not found")
  ∧ Fixture.plan (RelationMap [("profile.nonexistent", RelationFlag true)])
      Fixture.mysqlState
    = Throw (TypeORMError
               "Relation with property path nonexistent in entity was not found.").
Proof.
  split.
  - refine (missing_relation
              Fixture.isArrayFull (Fixture.userRepository "mysql") "User"
              (RelationMap [("profile", RelationFlag true);
                            ("nope.addresses", RelationFlag true)])
              Fixture.mysqlState fixture_unjoined _).
    split_and!; [reflexivity| |compute_done].
    intros p Hp. each_planned Hp; reflexivity.
  - refine (missing_relation
              Fixture.isArrayFull (Fixture.userRepository "mysql") "User"
              (RelationMap [("profile.nonexistent", RelationFlag true)])
              Fixture.mysqlState fixture_unjoined _).
    split_and!; [reflexivity| |compute_done].
    intros p Hp. each_planned Hp; reflexivity.
Defined.

(** C6 as stated fails: [profile.nonexistent] names no relation of the
    profile, and the build does end in a hard error, but not in the
    planner's [Relation 'x' not found]: the join call is refused by the
    ORM, with an error of its own. *)
Lemma nested_missing_relation_is_refused_by_the_orm :
  Fixture.plan (RelationMap [("profile.nonexistent", RelationFlag true)])
    Fixture.mysqlState
  = Throw (TypeORMError
             "Relation with property path nonexistent in entity was not found.")
  ∧ ∀ x,
      Fixture.plan (RelationMap [("profile.nonexistent", RelationFlag true)])
        Fixture.mysqlState
      ≠ Throw (Error ("Relation '" +:+ x +:+ "' not found")).
Proof.
  assert (Fixture.plan
            (RelationMap [("profile.nonexistent", RelationFlag true)])
            Fixture.mysqlState
          = Throw (TypeORMError
                     "Relation with property path nonexistent in entity was not found."))
    as Hplan by by vm_compute.
  split; [exact Hplan|]. intros x. by rewrite Hplan.
Qed.

Lemma parameters_do_not_collide_witness :
  ∃ c st',
    Fixture.compile Fixture.ageRanges Fixture.mysqlState = Ok (c, st')
    ∧ length (leaves Fixture.extraOperatorValue Fixture.ageRanges) = 4
    ∧ paramIndex st' = 4
    ∧ size (snd c) = 5.
Proof.
  eexists _, _. split; [by vm_compute|].
  destruct (parameters_do_not_collide
              Fixture.normalizeColumnName (Fixture.userRepository "mysql") "User"
              Fixture.extraOperatorValue Fixture.ageRanges Fixture.mysqlState
              _ _ eq_refl) as (Hindex & _ & _ & Hsize & _).
  split_and!; [reflexivity|exact Hindex|exact Hsize].
Defined.

(** C5 as stated fails: a null test is a leaf comparison, the
    specification counts one key for it, and it binds none. *)
Lemma null_test_binds_no_parameter :
  ∃ c st',
    Fixture.compile Fixture.deletedIsNull Fixture.mysqlState = Ok (c, st')
    ∧ fst c = "`User`.`deletedAt` IS NULL"
    ∧ length (leaves Fixture.extraOperatorValue Fixture.deletedIsNull) = 1
    ∧ sum_list_with (specParams Fixture.extraOperatorValue)
        (leaves Fixture.extraOperatorValue Fixture.deletedIsNull) = 1
    ∧ size (snd c) = 0.
Proof. eexists _, _. split_and!; by vm_compute. Qed.

(** C3 fails on the code for a nested path.  With [select: ["city"]] on
    [profile.addresses] the planner registers the city alone: [id], the
    primary key of the address entity, is not registered, whereas the same
    configuration on the root relation [profile] does register the primary
    key of the profile. *)
Theorem nested_select_drops_primary_key :
  (∃ st',
      Fixture.plan
        (RelationMap [("profile", Fixture.selecting ["age"; "shoeSize"]);
                      ("profile.addresses", Fixture.selecting ["city"])])
        Fixture.mysqlState = Ok st'
      ∧ selectedFields st'
        = ["profile.id"; "profile.age"; "profile_addresses.city"]
      ∧ "profile_addresses.id" ∉ selectedFields st')
  ∧ map propertyPath (primaryColumns Fixture.ProfileAddress) = ["id"]
  ∧ map propertyPath (primaryColumns Fixture.Profile) = ["id"].
Proof.
  split_and!; [|reflexivity..].
  eexists. split_and!; [by vm_compute|reflexivity|compute_done].
Qed.

Lemma where_build_appends_one_clause_witness :
  ∃ st',
    WhereQueryBuilder_build Fixture.normalizeColumnName
      (Fixture.userRepository "mysql") "User" Fixture.extraOperatorValue
      Fixture.activeOnly Fixture.mysqlState = Ok st'
    ∧ wheres (builder st')
      = [("`User`.`status` = :where_param_0",
          {[ "where_param_0" := JStr "active" ]})]
    ∧ joins (builder st') = joins (builder Fixture.mysqlState).
Proof.
  eexists. split; [by vm_compute|].
  split; [reflexivity|].
  refine (proj1 (proj2 (proj2 (proj2 (where_build_appends_one_clause
                                        Fixture.normalizeColumnName
                                        (Fixture.userRepository "mysql") "User"
                                        Fixture.extraOperatorValue
                                        Fixture.activeOnly
                                        Fixture.mysqlState _ _))))).
  by vm_compute.
Defined.

Lemma siblings_are_anded_witness :
  Fixture.compile (JObj [("status", JStr "active"); ("name", JStr "John")])
    Fixture.mysqlState
  = Ok (("`User`.`status` = :where_param_0 AND `User`.`name` = :where_param_1",
         {[ "where_param_1" := JStr "John" ]}
           ∪ {[ "where_param_0" := JStr "active" ]}),
        setParamIndex 2 Fixture.mysqlState).
Proof.
  exact (siblings_are_anded
           Fixture.normalizeColumnName (Fixture.userRepository "mysql") "User"
           Fixture.extraOperatorValue
           [("status", JStr "active")] [("name", JStr "John")]
           Fixture.mysqlState
           "`User`.`status` = :where_param_0"
           {[ "where_param_0" := JStr "active" ]}
           (setParamIndex 1 Fixture.mysqlState)
           "`User`.`name` = :where_param_1"
           {[ "where_param_1" := JStr "John" ]}
           (setParamIndex 2 Fixture.mysqlState)
           eq_refl eq_refl).
Defined.

Lemma vacuous_element_is_neutral_witness :
  Fixture.compile (JObj [("$and", JArr [Fixture.activeOnly; JObj []])])
    Fixture.mysqlState
  = Fixture.compile (JObj [("$and", JArr [Fixture.activeOnly])])
      Fixture.mysqlState.
Proof.
  exact (vacuous_element_is_neutral
           Fixture.normalizeColumnName (Fixture.userRepository "mysql") "User"
           Fixture.extraOperatorValue
           "$and" (JObj []) [Fixture.activeOnly] [] [] [] Fixture.mysqlState
           eq_refl eq_refl).
Defined.

Lemma bare_value_is_equality_witness :
  Fixture.compile Fixture.activeOnly Fixture.mysqlState
  = Fixture.compile (JObj [("status", JObj [("$eq", JStr "active")])])
      Fixture.mysqlState.
Proof.
  apply (bare_value_is_equality
           Fixture.normalizeColumnName (Fixture.userRepository "mysql") "User"
           Fixture.extraOperatorValue "status" (JStr "active") [] []
           Fixture.mysqlState); [reflexivity|discriminate].
Defined.

Lemma unsupported_operator_is_refused_witness :
  Fixture.compile (JObj [("city", JObj [("$ilike", JStr "%new%")])])
    Fixture.mysqlState
  = Throw (BadRequestException "Unsupported operator: $ilike").
Proof.
  refine (proj2 (unsupported_operator_is_refused
                   Fixture.normalizeColumnName (Fixture.userRepository "mysql")
                   "User" Fixture.extraOperatorValue "$ilike" _)
            "city" (JStr "%new%") [] [] "`User`.`city`"
            Fixture.mysqlState Fixture.mysqlState eq_refl eq_refl).
  compute_done.
Defined.

Lemma range_operands_witness :
  parseWhereObjectToQueryAndParams (Fixture.userRepository "mysql")
    Fixture.extraOperatorValue "`User`.`age`" (JArr [JNum 18]) "$between"
    Fixture.mysqlState
  = Ok (("`User`.`age` BETWEEN :where_param_0_0 AND :where_param_0_1",
         <[ "where_param_0_1" := JUndefined ]>
           {[ "where_param_0_0" := JNum 18 ]}),
        setParamIndex 1 Fixture.mysqlState)
  ∧ parseWhereObjectToQueryAndParams (Fixture.userRepository "mysql")
      Fixture.extraOperatorValue "`User`.`age`" (JNum 18) "$notBetween"
      Fixture.mysqlState
    = Throw TypeError.
Proof.
  pose proof (range_operands
                (Fixture.userRepository "mysql") Fixture.extraOperatorValue
                "`User`.`age`" Fixture.mysqlState fixture_operators_distinct)
    as H.
  cbv zeta in H. destruct H as [Hrange Hthrow]. split.
  - exact (proj1 (Hrange [JNum 18])).
  - apply Hthrow; [by right; left|reflexivity|discriminate].
Defined.

Lemma successive_compilations_do_not_collide_witness :
  ({[ "where_param_1" := JStr "John" ]} : gmap string JsValue)
    ##ₘ {[ "where_param_0" := JStr "active" ]}
  ∧ size (({[ "where_param_1" := JStr "John" ]} : gmap string JsValue)
            ∪ {[ "where_param_0" := JStr "active" ]}) = 2
  ∧ paramIndex (setParamIndex 2 Fixture.mysqlState) = 2.
Proof.
  exact (successive_compilations_do_not_collide
           Fixture.normalizeColumnName (Fixture.userRepository "mysql") "User"
           Fixture.extraOperatorValue
           Fixture.activeOnly (JObj [("name", JStr "John")])
           Fixture.mysqlState
           "`User`.`status` = :where_param_0"
           {[ "where_param_0" := JStr "active" ]}
           (setParamIndex 1 Fixture.mysqlState)
           "`User`.`name` = :where_param_1"
           {[ "where_param_1" := JStr "John" ]}
           (setParamIndex 2 Fixture.mysqlState)
           eq_refl eq_refl).
Defined.

Lemma resolution_walks_the_relation_chain_witness :
  ∃ r st',
    getRelationMetadata (Fixture.userRepository "mysql") "User"
      "profile.addresses" Fixture.mysqlState = (Some r, st')
    ∧ ar_name r = "addresses"
    ∧ ar_columns r = ["id"; "street"; "city"; "state"; "postalCode"]
    ∧ ar_primaryColumns r = ["id"].
Proof.
  destruct (resolution_walks_the_relation_chain
              (Fixture.userRepository "mysql") "User" "profile.addresses"
              Fixture.mysqlState eq_refl)
    as (r & st' & Hget & _ & Hname & _ & Hcolumns & Hprimary & _).
  exists r, st'. split_and!; [exact Hget|exact Hname|exact Hcolumns|exact Hprimary].
Defined.

Lemma filter_column_uses_join_alias_witness :
  getFieldWithAlias Fixture.normalizeColumnName (Fixture.userRepository "mysql")
    "User" "profile.addresses.city" false Fixture.mysqlState
  = Ok ("`profile_addresses`.`city`", Fixture.mysqlState).
Proof.
  exact (proj2 (filter_column_uses_join_alias
                  Fixture.normalizeColumnName Fixture.isArrayFull
                  (Fixture.userRepository "mysql") "User"
                  "profile.addresses" "city" false Fixture.mysqlState
                  eq_refl eq_refl)).
Defined.

Lemma joins_hang_off_their_parents_witness :
  ∃ st',
    Fixture.plan
      (RelationMap [("profile.addresses.country", Fixture.selecting ["name"])])
      Fixture.mysqlState = Ok st'
    ∧ joins (builder st')
      = [ {| joinKind := LeftJoin; joinProperty := Some "User.profile";
             joinAlias := "profile" |};
          {| joinKind := LeftJoin; joinProperty := Some "profile.addresses";
             joinAlias := "profile_addresses" |};
          {| joinKind := LeftJoin;
             joinProperty := Some "profile_addresses.country";
             joinAlias := "profile_addresses_country" |} ].
Proof.
  destruct (joins_hang_off_their_parents
              Fixture.isArrayFull (Fixture.userRepository "mysql") "User"
              (RelationMap [("profile.addresses.country",
                             Fixture.selecting ["name"])])
              Fixture.mysqlState fixture_unjoined)
    as [(st' & Hplan & Hjoins) _].
  - split_and!; [reflexivity| |compute_done].
    intros p Hp. each_planned Hp; reflexivity.
  - intros p Hp. each_planned Hp; by eexists.
  - exists st'. split; [exact Hplan|exact Hjoins].
Defined.

Lemma later_configuration_wins_witness :
  objectGet "profile"
    (parseJoinConfig
       (RelationList [RelationName "profile";
                      RelationMap [("profile", Fixture.selecting ["age"])];
                      RelationName "posts"]))
  = Some (Fixture.selecting ["age"]).
Proof.
  refine (proj1 (later_configuration_wins
                   [RelationName "profile"]
                   (RelationMap [("profile", Fixture.selecting ["age"])])
                   [RelationName "posts"] "profile" (Fixture.selecting ["age"])
                   _ eq_refl _)).
  - compute_done.
  - by repeat constructor.
Defined.

Lemma soft_delete_and_pagination_witness :
  ∃ st',
    Fixture.build (Some Fixture.deletedActive) Fixture.mysqlState = Ok st'
    ∧ wheres (builder st')
      = [("User.deletedAt IS NOT NULL", ∅);
         ("`User`.`status` = :where_param_0",
          {[ "where_param_0" := JStr "active" ]})]
    ∧ findOptions (builder st')
      = Some {| fo_take := Some 10%Z; fo_skip := None;
                fo_withDeleted := Some true |}.
Proof.
  eexists. split; [by vm_compute|]. split; [reflexivity|].
  refine (proj1 (soft_delete_and_pagination
                   Fixture.normalizeColumnName Fixture.isArrayFull
                   (Fixture.userRepository "mysql") "User"
                   Fixture.extraOperatorValue Fixture.deletedActive
                   Fixture.mysqlState _ _)).
  by vm_compute.
Defined.

Lemma joins_and_order_of_a_build_witness :
  ∃ st',
    Fixture.build (Some Fixture.johnsWithProfile) Fixture.mysqlState = Ok st'
    ∧ orderBys (builder st') = [("profile.age", ASC)]
    ∧ alias (builder st') = "User".
Proof.
  eexists. split; [by vm_compute|]. split; [reflexivity|].
  refine (proj1 (joins_and_order_of_a_build
                   Fixture.normalizeColumnName Fixture.isArrayFull
                   (Fixture.userRepository "mysql") "User"
                   Fixture.extraOperatorValue Fixture.johnsWithProfile
                   Fixture.mysqlState _ _)).
  by vm_compute.
Defined.

Lemma null_and_boolean_tests_ignore_their_value_witness :
  Fixture.compile (JObj [("deletedAt", JObj [("$isNull", JBool false)])])
    Fixture.mysqlState
  = Fixture.compile Fixture.deletedIsNull Fixture.mysqlState.
Proof.
  apply (null_and_boolean_tests_ignore_their_value
           Fixture.normalizeColumnName (Fixture.userRepository "mysql") "User"
           Fixture.extraOperatorValue IS_NULL "deletedAt"
           (JBool false) (JBool true) [] [] [] [] Fixture.mysqlState
           fixture_operators_distinct); [by left|reflexivity].
Defined.
